(** * The incremental load-test orchestrator (JitsiLoadTestOrchestrator)

    A shallow embedding of the orchestrator class: its capacity
    arithmetic, the incremental test loop with on-demand scaling, the
    classification and metric extraction applied to the raw test output,
    and the final report.

    Conventions of the embedding.
    - A JavaScript string is the list of its UTF-16 code units ([N]).
    - Participant counts and node counts are integers ([Z]); the
      configuration reads them with [parseInt], so they are
      integer-valued, and the embedding is exact as long as they stay in
      the range where binary64 arithmetic on integers is exact.
    - [Math.ceil (a / b)] and [Math.floor (m * 0.8)] are computed on exact
      rationals ([Q]); the success rate, where [0 / 0] matters, is
      computed on binary64 floats ([PrimFloat]).
    - Everything outside the process (doctl, ssh, the clock, the file
      system) is a [world]: a family of replies indexed by the number of
      external calls made so far.  Each external call is logged in the
      [trace] component of the state, with the size of the node registry
      at that moment.
    - An [async] method is a function from the state to a result, a value
      or a thrown message, and the state it leaves; messages printed on
      the console are left out.
    - The test loop need not terminate (the increment may be negative), so
      it takes a bound on the number of its iterations, the fuel; a
      property proved for every fuel holds at every point of a run. *)

From Stdlib Require Import String Ascii.
From Stdlib Require Import ZArith QArith Qround List Bool Lia.
From Stdlib Require Import Floats Uint63.
Import ListNotations.
Open Scope Z_scope.

(** ** JavaScript strings *)

Module JS.

Definition jsstring := list N.

Definition lit (s : string) : jsstring :=
  map N_of_ascii (list_ascii_of_string s).

Fixpoint str_eqb (a b : jsstring) : bool :=
  match a, b with
  | [], [] => true
  | x :: a', y :: b' => N.eqb x y && str_eqb a' b'
  | _, _ => false
  end.

(** [startsWith pat s]: [pat] is a prefix of [s]. *)
Fixpoint startsWith (pat s : jsstring) : bool :=
  match pat, s with
  | [], _ => true
  | _ :: _, [] => false
  | p :: pat', c :: s' => N.eqb p c && startsWith pat' s'
  end.

(** [String.prototype.includes]: [pat] occurs somewhere in [s]. *)
Fixpoint includes (s pat : jsstring) : bool :=
  startsWith pat s ||
  match s with
  | [] => false
  | _ :: s' => includes s' pat
  end.

(** Character classes of the regular expressions used by the script. *)

(** [\d] *)
Definition is_digit (c : N) : bool := (48 <=? c)%N && (c <=? 57)%N.

(** [\s]: WhiteSpace and LineTerminator code points. *)
Definition is_space (c : N) : bool :=
  ((9 <=? c)%N && (c <=? 13)%N) || (c =? 32)%N || (c =? 160)%N ||
  (c =? 5760)%N || ((8192 <=? c)%N && (c <=? 8202)%N) ||
  (c =? 8232)%N || (c =? 8233)%N || (c =? 8239)%N || (c =? 8287)%N ||
  (c =? 12288)%N || (c =? 65279)%N.

(** [.] without the [s] flag: anything but a line terminator. *)
Definition is_dot (c : N) : bool :=
  negb ((c =? 10)%N || (c =? 13)%N || (c =? 8232)%N || (c =? 8233)%N).

(** [[^\n]] *)
Definition not_newline (c : N) : bool := negb (c =? 10)%N.

(** Case folding of the [i] flag, for an ASCII letter of the pattern: a
    code unit of 128 or more never canonicalizes to an ASCII one. *)
Definition upcase (c : N) : N :=
  if (97 <=? c)%N && (c <=? 122)%N then (c - 32)%N else c.

Definition chr_eq (p : N) : N -> bool := fun c => N.eqb p c.
Definition chr_eq_i (p : N) : N -> bool := fun c => N.eqb (upcase p) (upcase c).

(** Decimal rendering of a non-negative integer, and [parseInt] on a run of
    decimal digits. *)
Definition digit_of (d : Z) : N := Z.to_N (48 + d).

Fixpoint digits_fuel (fuel : nat) (n : Z) (acc : jsstring) : jsstring :=
  match fuel with
  | O => acc
  | S fuel' =>
      if n <? 10 then digit_of n :: acc
      else digits_fuel fuel' (n / 10) (digit_of (n mod 10) :: acc)
  end.

Definition digits (n : Z) : jsstring :=
  digits_fuel (S (Z.to_nat (Z.log2 n))) n [].

(** [String(n)] for an integer [n]. *)
Definition string_of_Z (n : Z) : jsstring :=
  if n <? 0 then 45%N :: digits (- n) else digits n.

Definition parse_digits (s : jsstring) : Z :=
  fold_left (fun acc c => 10 * acc + (Z.of_N c - 48)) s 0.

End JS.
Import JS.

(** ** A backtracking matcher for the regular expressions of the script *)

Module Regex.

(** The fragment of the regular-expression language the script uses:
    character classes, sequencing, ordered alternation, greedy repetition
    of a class, and capturing groups. *)
Inductive regex :=
| Eps
| Cls (p : N -> bool)
| Seq (r1 r2 : regex)
| Alt (r1 r2 : regex)
| Star (p : N -> bool)
| Group (r : regex).

(** [p+] *)
Definition Plus (p : N -> bool) : regex := Seq (Cls p) (Star p).
(** [r?] *)
Definition Opt (r : regex) : regex := Alt r Eps.

Fixpoint Lit_with (eq : N -> N -> bool) (s : jsstring) : regex :=
  match s with
  | [] => Eps
  | c :: s' => Seq (Cls (eq c)) (Lit_with eq s')
  end.

Definition Lit (s : string) : regex := Lit_with chr_eq (lit s).
(** A literal under the [i] flag. *)
Definition LitI (s : string) : regex := Lit_with chr_eq_i (lit s).

Section Matcher.
Context {R : Type}.

(** Greedy [p*]: take as many code units as possible, give one back at
    a time while the continuation fails. *)
Fixpoint star (p : N -> bool) (s : jsstring)
         (k : jsstring -> option R) : option R :=
  match s with
  | c :: s' =>
      if p c then
        match star p s' k with
        | Some x => Some x
        | None => k s
        end
      else k s
  | [] => k []
  end.

(** [rx r s caps k]: match [r] at the head of [s]; on success call the
    continuation on the rest of the input and the captures so far. *)
Fixpoint rx (r : regex) (s : jsstring) (caps : list jsstring)
         (k : jsstring -> list jsstring -> option R) : option R :=
  match r with
  | Eps => k s caps
  | Cls p =>
      match s with
      | c :: s' => if p c then k s' caps else None
      | [] => None
      end
  | Seq r1 r2 => rx r1 s caps (fun s1 caps1 => rx r2 s1 caps1 k)
  | Alt r1 r2 =>
      match rx r1 s caps k with
      | Some x => Some x
      | None => rx r2 s caps k
      end
  | Star p => star p s (fun s1 => k s1 caps)
  | Group r1 =>
      rx r1 s caps
         (fun s1 caps1 =>
            k s1 (caps1 ++ [firstn (length s - length s1) s]))
  end.
End Matcher.

(** A match: the matched text and the captured groups. *)
Definition match_at (r : regex) (s : jsstring)
  : option (jsstring * list jsstring) :=
  rx r s [] (fun s1 caps => Some (firstn (length s - length s1) s, caps)).

(** [s.match(r)] without the [g] flag: the leftmost match. *)
Fixpoint search (r : regex) (s : jsstring)
  : option (jsstring * list jsstring) :=
  match match_at r s with
  | Some m => Some m
  | None =>
      match s with
      | [] => None
      | _ :: s' => search r s'
      end
  end.

(** [s.match(r)] with the [g] flag: the texts of all matches, left to
    right, without overlap; [skip] is the number of code units left to
    step over after the previous match. *)
Fixpoint match_all_from (r : regex) (s : jsstring) (skip : nat)
  : list jsstring :=
  match s with
  | [] =>
      match skip, match_at r [] with
      | O, Some (m, _) => [m]
      | _, _ => []
      end
  | _ :: s' =>
      match skip with
      | S n => match_all_from r s' n
      | O =>
          match match_at r s with
          | Some (m, _) => m :: match_all_from r s' (length m - 1)
          | None => match_all_from r s' 0
          end
      end
  end.

Definition match_all (r : regex) (s : jsstring) : list jsstring :=
  match_all_from r s 0.

End Regex.
Import Regex.

(** ** Numbers *)

Module Num.

(** [Math.ceil (a / b)] on integer-valued [a] and [b <> 0]. *)
Definition ceil_div (a b : Z) : Z := Qceiling (inject_Z a / inject_Z b).

(** [Math.floor (m * 0.8)] on an integer-valued [m]. *)
Definition floor_80pct (m : Z) : Z := Qfloor (inject_Z m * (8 # 10)).

(** [Math.max (...xs, 0)] *)
Definition max_with_0 (xs : list Z) : Z := fold_right Z.max 0 xs.

(** A count (an array length) as a binary64 number. *)
Definition float_of_nat (n : nat) : float :=
  PrimFloat.of_uint63 (Uint63.of_Z (Z.of_nat n)).

Section ToFixed.
(** [Number::toString] on a finite number of magnitude [10^21] or more
    (exponential notation) is left to the runtime. *)
Variable toString_large : float -> jsstring.

(** The integer [n] for which [n / 10 - m * 2^e] is closest to zero, the
    larger one on a tie. *)
Definition nearest_tenths (m e : Z) : Z :=
  if 0 <=? e then 10 * m * 2 ^ e
  else (20 * m + 2 ^ (- e)) / 2 ^ (- e + 1).

Definition at_least_1e21 (m e : Z) : bool :=
  if 0 <=? e then 10 ^ 21 <=? m * 2 ^ e
  else 10 ^ 21 * 2 ^ (- e) <=? m.

(** The digits of [n] with a point before the last one, padded with a
    leading zero below 10. *)
Definition with_one_decimal (n : Z) : jsstring :=
  let m := if n =? 0 then lit "0" else digits n in
  let m := if (length m <=? 1)%nat then 48%N :: m else m in
  firstn (length m - 1) m ++ lit "." ++ skipn (length m - 1) m.

(** [x.toFixed(1)] *)
Definition toFixed1 (x : float) : jsstring :=
  match Prim2SF x with
  | S754_nan => lit "NaN"
  | S754_infinity false => lit "Infinity"
  | S754_infinity true => lit "-Infinity"
  | S754_zero _ => lit "0.0"
  | S754_finite sign m e =>
      if at_least_1e21 (Zpos m) e then toString_large x
      else
        (if sign then lit "-" else []) ++
        with_one_decimal (nearest_tenths (Zpos m) e)
  end.
End ToFixed.

End Num.
Import Num.

(** ** Metric extraction and classification of the raw test output *)

Inductive result (A : Type) :=
| Ok (a : A)
| Throw (message : jsstring).
Arguments Ok {A} a.
Arguments Throw {A} message.

Module Metrics.

(** [/(\d+)\s+participants?\s+joined/gi] *)
Definition JOINED : regex :=
  Seq (Group (Plus is_digit))
    (Seq (Plus is_space)
       (Seq (LitI "participant")
          (Seq (Opt (Cls (chr_eq_i 115)))
             (Seq (Plus is_space) (LitI "joined"))))).

(** [/\d+/] *)
Definition DIGITS : regex := Plus is_digit.

(** [/Total time:\s+(\d+:\d+)/] *)
Definition TOTAL_TIME : regex :=
  Seq (Lit "Total time:")
    (Seq (Plus is_space)
       (Group (Seq (Plus is_digit) (Seq (Cls (chr_eq 58)) (Plus is_digit))))).

(** [/(?:ERROR|FAILED):[^\n]*/g] *)
Definition FAILURE_REASON : regex :=
  Seq (Alt (Lit "ERROR") (Lit "FAILED")) (Seq (Lit ":") (Star not_newline)).

(** [/ERROR.*|FAILED.*/g] *)
Definition ERROR_LINE : regex :=
  Alt (Seq (Lit "ERROR") (Star is_dot)) (Seq (Lit "FAILED") (Star is_dot)).

Record metrics := {
  participantsJoined : option Z;
  testDuration : option jsstring;
  failureReasons : option (list jsstring)
}.

(** [{}] *)
Definition no_metrics : metrics :=
  {| participantsJoined := None; testDuration := None;
     failureReasons := None |}.

Definition type_error : jsstring :=
  lit "Cannot read properties of null (reading '0')".

(** The first capture of a non-global match, [durationMatch[1]]. *)
Definition capture1 (m : jsstring * list jsstring) : option jsstring :=
  nth_error (snd m) 0.

Definition parseTestMetrics (output : jsstring) : result metrics :=
  let joinMatches := match_all JOINED output in
  let joined :=
    match joinMatches with
    | [] => Ok None
    | _ :: _ =>
        match search DIGITS (last joinMatches []) with
        | Some (d, _) => Ok (Some (parse_digits d))
        | None => Throw type_error
        end
    end in
  match joined with
  | Throw e => Throw e
  | Ok pj =>
      let duration :=
        match search TOTAL_TIME output with
        | Some m => capture1 m
        | None => None
        end in
      let reasons := match_all FAILURE_REASON output in
      Ok {| participantsJoined := pj;
            testDuration := duration;
            failureReasons := Some (firstn 3 reasons) |}
  end.

(** [output.includes("BUILD SUCCESS") || !output.includes("FAILURES")] *)
Definition classify (output : jsstring) : bool :=
  includes output (lit "BUILD SUCCESS") ||
  negb (includes output (lit "FAILURES")).

(** [(output.match(/ERROR.*|FAILED.*/g) || []).slice(0, 5)] *)
Definition error_lines (output : jsstring) : list jsstring :=
  firstn 5 (match_all ERROR_LINE output).

End Metrics.
Import Metrics.


(** ** The orchestrator *)

Module Orchestrator.

(** [this.config], as far as the campaign reads it. *)
Record config := {
  maxParticipants : Z;
  incrementStep : Z;
  participantsPerNode : Z;
  autoCleanup : bool
}.

Definition hubSize : jsstring := lit "s-2vcpu-4gb".
Definition nodeSize : jsstring := lit "s-4vcpu-8gb".

(** An entry of [this.nodes]. *)
Record node := {
  node_id : Z;
  node_name : jsstring;
  node_ip : jsstring;
  node_maxParticipants : Z
}.

(** An entry of [this.testResults]. *)
Record testResult := {
  participants : Z;
  success : bool;
  errors : list jsstring;
  duration : Z;
  timestamp : Z;
  metrics : Metrics.metrics
}.

Definition set_success (b : bool) (r : testResult) : testResult :=
  {| participants := participants r; success := b; errors := errors r;
     duration := duration r; timestamp := timestamp r;
     metrics := metrics r |}.

Definition set_errors (e : list jsstring) (r : testResult) : testResult :=
  {| participants := participants r; success := success r; errors := e;
     duration := duration r; timestamp := timestamp r;
     metrics := metrics r |}.

Definition set_metrics (m : Metrics.metrics) (r : testResult) : testResult :=
  {| participants := participants r; success := success r;
     errors := errors r; duration := duration r;
     timestamp := timestamp r; metrics := m |}.

Definition set_duration (d : Z) (r : testResult) : testResult :=
  {| participants := participants r; success := success r;
     errors := errors r; duration := d; timestamp := timestamp r;
     metrics := metrics r |}.

(** The report written at the end of a campaign ([jitsiUrl] and
    [estimatedCost], a floating-point estimate of the price, are left
    out). *)
Record summary := {
  maxSuccessfulParticipants : Z;
  breakingPoint : option Z;
  totalTests : nat;
  successRate : jsstring;
  recommendedCapacity : Z
}.

Record report := {
  testConfig_maxParticipants : Z;
  testConfig_incrementStep : Z;
  testConfig_nodesUsed : nat;
  report_summary : summary;
  detailedResults : list testResult;
  infrastructure_hub : option jsstring;
  infrastructure_nodes : list node
}.

(** *** The outside world *)

(** The remote scripts; their text, a template over these data, is left
    out, and so are the temporary file it is written to and the flags of
    the test command. *)
Inductive script :=
| HubSetup
| NodeSetup (name : jsstring)
| TortureSetup
| TestRun (participants : Z).

(** The calls that leave the process. *)
Inductive call :=
| CreateDroplet (name size : jsstring)
| DeleteDroplet (name : jsstring)
| RemoteScript (ip : option jsstring) (s : script)
| Sleep (ms : Z)
| Now
| WriteReport (r : report).

(** What [doctl compute droplet create] printed: the id and the address. *)
Record droplet := { droplet_id : Z; droplet_ip : jsstring }.

(** The reply to the external call number [t]; [inl m] and [Some m] stand
    for a rejected promise with message [m]. *)
Record world := {
  doctl_create : nat -> jsstring + droplet;
  doctl_delete : nat -> option jsstring;
  ssh : nat -> jsstring + (jsstring * jsstring);
  clock : nat -> Z;
  write_file : nat -> option jsstring
}.

(** The fields of the orchestrator object, and the log of external calls,
    each with the size of [this.nodes] when it was made. *)
Record state := {
  nodes : list node;
  hubIp : option jsstring;
  requiredNodes : option Z;
  testResults : list testResult;
  trace : list (call * nat)
}.

(** [constructor] *)
Definition constructor : state :=
  {| nodes := []; hubIp := None; requiredNodes := None; testResults := [];
     trace := [] |}.

Definition push_node (n : node) (st : state) : state :=
  {| nodes := nodes st ++ [n]; hubIp := hubIp st;
     requiredNodes := requiredNodes st; testResults := testResults st;
     trace := trace st |}.

Definition set_hubIp (ip : jsstring) (st : state) : state :=
  {| nodes := nodes st; hubIp := Some ip;
     requiredNodes := requiredNodes st; testResults := testResults st;
     trace := trace st |}.

Definition set_requiredNodes (n : Z) (st : state) : state :=
  {| nodes := nodes st; hubIp := hubIp st; requiredNodes := Some n;
     testResults := testResults st; trace := trace st |}.

Definition push_result (r : testResult) (st : state) : state :=
  {| nodes := nodes st; hubIp := hubIp st;
     requiredNodes := requiredNodes st;
     testResults := testResults st ++ [r]; trace := trace st |}.

Definition log_call (c : call) (st : state) : state :=
  {| nodes := nodes st; hubIp := hubIp st;
     requiredNodes := requiredNodes st; testResults := testResults st;
     trace := trace st ++ [(c, length (nodes st))] |}.

(** *** Computations: state passing with exceptions *)

(** A thrown exception keeps the mutations made before it. *)
Definition M (A : Type) : Type := state -> result A * state.

Definition ret {A} (a : A) : M A := fun st => (Ok a, st).

Definition bind {A B} (c : M A) (f : A -> M B) : M B :=
  fun st =>
    match c st with
    | (Ok a, st1) => f a st1
    | (Throw e, st1) => (Throw e, st1)
    end.

Definition throw {A} (e : jsstring) : M A := fun st => (Throw e, st).

Definition get : M state := fun st => (Ok st, st).

Definition modify (f : state -> state) : M unit := fun st => (Ok tt, f st).

Declare Scope orch_scope.
Delimit Scope orch_scope with orch.
Notation "x <- c ;; k" := (bind c (fun x => k))
  (at level 100, c at next level, right associativity) : orch_scope.
Notation "c ;;; k" := (bind c (fun _ => k))
  (at level 100, right associativity) : orch_scope.
Local Open Scope orch_scope.

(** Make the external call [c]; the result is its number. *)
Definition emit (c : call) : M nat :=
  fun st => (Ok (length (trace st)), log_call c st).

(** How the incremental loop stands: left by its condition, left by
    [break], or still iterating when the fuel of the model ran out. *)
Inductive loop_exit := Finished | Broke | Running.

Section Campaign.
Variable toString_large : float -> jsstring.
Variable cfg : config.
Variable w : world.

Definition now : M Z := t <- emit Now ;; ret (clock w t).

Definition sleep (ms : Z) : M unit := emit (Sleep ms) ;;; ret tt.

Definition createDroplet (name size : jsstring) : M droplet :=
  t <- emit (CreateDroplet name size) ;;
  match doctl_create w t with
  | inl e => throw e
  | inr d => ret d
  end.

Definition executeRemoteScript (ip : option jsstring) (s : script)
  : M jsstring :=
  t <- emit (RemoteScript ip s) ;;
  match ssh w t with
  | inl e => throw e
  | inr (stdout, stderr) =>
      if negb (str_eqb stderr []) && negb (includes stderr (lit "Warning"))
      then throw (lit "SSH execution failed: " ++ stderr)
      else ret stdout
  end.

Definition calculateInfrastructure : M unit :=
  let nodesNeeded :=
    ceil_div (maxParticipants cfg) (participantsPerNode cfg) in
  modify (set_requiredNodes nodesNeeded).

Definition node_name_of (i : Z) : jsstring :=
  lit "jitsi-node-" ++ string_of_Z i.

Definition new_node (i : Z) (d : droplet) : node :=
  {| node_id := droplet_id d; node_name := node_name_of i;
     node_ip := droplet_ip d;
     node_maxParticipants := participantsPerNode cfg |}.

(** [for (let i = from; ...; i++)] over [count] iterations. *)
Fixpoint create_initial_nodes (count : nat) (i : Z) : M unit :=
  match count with
  | O => ret tt
  | S count' =>
      d <- createDroplet (node_name_of i) nodeSize ;;
      modify (push_node (new_node i d)) ;;;
      create_initial_nodes count' (i + 1)
  end.

Definition provisionInfrastructure : M unit :=
  hubData <- createDroplet (lit "jitsi-hub") hubSize ;;
  modify (set_hubIp (droplet_ip hubData)) ;;;
  st <- get ;;
  let required :=
    match requiredNodes st with Some n => n | None => 0 end in
  let initialNodes := Z.min 3 required in
  create_initial_nodes (Z.to_nat initialNodes) 1 ;;;
  sleep 60000.

Definition setupHub : M unit :=
  st <- get ;; executeRemoteScript (hubIp st) HubSetup ;;; ret tt.

Definition setupNode (n : node) : M unit :=
  executeRemoteScript (Some (node_ip n)) (NodeSetup (node_name n)) ;;;
  ret tt.

Definition setupTorture : M unit :=
  st <- get ;; executeRemoteScript (hubIp st) TortureSetup ;;; ret tt.

Fixpoint setup_nodes (ns : list node) : M unit :=
  match ns with
  | [] => ret tt
  | n :: ns' => setupNode n ;;; setup_nodes ns'
  end.

Definition setupInfrastructure : M unit :=
  setupHub ;;;
  st <- get ;;
  setup_nodes (nodes st) ;;;
  setupTorture.

Fixpoint add_nodes_from (count : nat) (nodeIndex : Z) : M unit :=
  match count with
  | O => ret tt
  | S count' =>
      d <- createDroplet (node_name_of nodeIndex) nodeSize ;;
      let newNode := new_node nodeIndex d in
      modify (push_node newNode) ;;;
      sleep 45000 ;;;
      setupNode newNode ;;;
      add_nodes_from count' (nodeIndex + 1)
  end.

Definition addNodes (count : Z) : M unit :=
  st <- get ;;
  let startIndex := Z.of_nat (length (nodes st)) + 1 in
  add_nodes_from (Z.to_nat count) startIndex.

(** The [try] block of [runSingleTest]: the result object as the block
    left it, and the exception it ended with, if any. *)
Definition try_test (r0 : testResult)
  : M (testResult * option jsstring) :=
  fun st =>
    match executeRemoteScript (hubIp st) (TestRun (participants r0)) st with
    | (Throw e, st1) => (Ok (r0, Some e), st1)
    | (Ok output, st1) =>
        let r1 := set_success (classify output) r0 in
        match parseTestMetrics output with
        | Throw e => (Ok (r1, Some e), st1)
        | Ok m =>
            let r2 := set_metrics m r1 in
            let r3 :=
              if negb (success r2)
              then set_errors (error_lines output) r2
              else r2 in
            (Ok (r3, None), st1)
        end
    end.

Definition runSingleTest (participants : Z) : M testResult :=
  startTime <- now ;;
  timestamp <- now ;;
  let result :=
    {| participants := participants; success := false; errors := [];
       duration := 0; timestamp := timestamp; metrics := no_metrics |} in
  tried <- try_test result ;;
  let result :=
    match tried with
    | (r, Some message) => set_success false (set_errors (errors r ++ [message]) r)
    | (r, None) => r
    end in
  finish <- now ;;
  ret (set_duration (finish - startTime) result).

Fixpoint test_loop (fuel : nat) (participants currentNodes : Z)
  : M loop_exit :=
  if participants <=? maxParticipants cfg then
    match fuel with
    | O => ret Running
    | S fuel' =>
        let requiredNodes :=
          ceil_div participants (participantsPerNode cfg) in
        currentNodes <-
          (if requiredNodes >? currentNodes
           then addNodes (requiredNodes - currentNodes) ;;;
                ret requiredNodes
           else ret currentNodes) ;;
        result <- runSingleTest participants ;;
        modify (push_result result) ;;;
        if negb (success result) then ret Broke
        else
          sleep 30000 ;;;
          test_loop fuel' (participants + incrementStep cfg) currentNodes
    end
  else ret Finished.

Definition runIncrementalTests (fuel : nat) : M loop_exit :=
  st <- get ;;
  let currentNodes := Z.of_nat (length (nodes st)) in
  test_loop fuel (incrementStep cfg) currentNodes.

(** [testResults.find((r) => !r.success)?.participants || null] *)
Definition breaking_point (results : list testResult) : option Z :=
  match find (fun r => negb (success r)) results with
  | Some r => if participants r =? 0 then None else Some (participants r)
  | None => None
  end.

Definition max_success (results : list testResult) : Z :=
  max_with_0 (map participants (filter success results)).

(** [((successes / total) * 100).toFixed(1)] *)
Definition success_rate (results : list testResult) : jsstring :=
  toFixed1 toString_large
    (PrimFloat.mul
       (PrimFloat.div (float_of_nat (length (filter success results)))
                      (float_of_nat (length results)))
       (float_of_nat 100)).

Definition summarize (results : list testResult) : summary :=
  let maxSuccess := max_success results in
  {| maxSuccessfulParticipants := maxSuccess;
     breakingPoint := breaking_point results;
     totalTests := length results;
     successRate := success_rate results;
     recommendedCapacity := floor_80pct maxSuccess |}.

Definition build_report (st : state) : report :=
  {| testConfig_maxParticipants := maxParticipants cfg;
     testConfig_incrementStep := incrementStep cfg;
     testConfig_nodesUsed := length (nodes st);
     report_summary := summarize (testResults st);
     detailedResults := testResults st;
     infrastructure_hub := hubIp st;
     infrastructure_nodes := nodes st |}.

Definition generateFinalReport : M report :=
  st <- get ;;
  let report := build_report st in
  now ;;;
  t <- emit (WriteReport report) ;;
  match write_file w t with
  | Some e => throw e
  | None => ret report
  end.

(** Each droplet is deleted in a [try] of its own: whatever
    [doctl_delete] replies, the failure is logged and the loop goes on. *)
Fixpoint delete_droplets (names : list jsstring) : M unit :=
  match names with
  | [] => ret tt
  | n :: names' => emit (DeleteDroplet n) ;;; delete_droplets names'
  end.

Definition cleanup : M unit :=
  st <- get ;;
  delete_droplets (lit "jitsi-hub" :: map node_name (nodes st)).

(** The [try] block of [runCompleteTest]; [None] when the fuel of the
    model ran out inside the test loop. *)
Definition campaign_steps (fuel : nat) : M (option report) :=
  calculateInfrastructure ;;;
  provisionInfrastructure ;;;
  setupInfrastructure ;;;
  exit <- runIncrementalTests fuel ;;
  match exit with
  | Running => ret None
  | Finished | Broke =>
      report <- generateFinalReport ;;
      (if autoCleanup cfg then cleanup else ret tt) ;;;
      ret (Some report)
  end.

Definition runCompleteTest (fuel : nat) : M (option report) :=
  fun st =>
    match campaign_steps fuel st with
    | (Ok r, st1) => (Ok r, st1)
    | (Throw e, st1) =>
        match (if autoCleanup cfg then cleanup else ret tt) st1 with
        | (_, st2) => (Throw e, st2)
        end
    end.

End Campaign.

(** *** Start-up *)

(** The environment: the two mandatory variables, the values [parseInt]
    gave for the three numeric ones ([None] for [NaN]), and whether
    [AUTO_CLEANUP] differs from ["false"]. *)
Record env := {
  DO_TOKEN : option jsstring;
  DO_SSH_KEY_ID : option jsstring;
  MAX_PARTICIPANTS : option Z;
  INCREMENT_STEP : option Z;
  PARTICIPANTS_PER_NODE : option Z;
  AUTO_CLEANUP_not_false : bool
}.

(** [parseInt(v) || d] *)
Definition or_default (v : option Z) (d : Z) : Z :=
  match v with
  | Some z => if z =? 0 then d else z
  | None => d
  end.

Definition main_config (e : env) : config :=
  {| maxParticipants := or_default (MAX_PARTICIPANTS e) 1000;
     incrementStep := or_default (INCREMENT_STEP e) 50;
     participantsPerNode := or_default (PARTICIPANTS_PER_NODE e) 80;
     autoCleanup := AUTO_CLEANUP_not_false e |}.

(** [!process.env.X] *)
Definition missing (v : option jsstring) : bool :=
  match v with
  | None | Some [] => true
  | Some (_ :: _) => false
  end.

(** The process: its exit code, if it has exited, and the final state
    (the interrupt handler is left out). *)
Definition main (toString_large : float -> jsstring) (e : env) (w : world)
           (fuel : nat) : option Z * state :=
  if missing (DO_TOKEN e) then (Some 1, constructor)
  else if missing (DO_SSH_KEY_ID e) then (Some 1, constructor)
  else
    match runCompleteTest toString_large (main_config e) w fuel constructor with
    | (Ok (Some _), st) => (Some 0, st)
    | (Ok None, st) => (None, st)
    | (Throw _, st) => (Some 1, st)
    end.

End Orchestrator.
Import Orchestrator.
Local Open Scope orch_scope.

(** * Specification vocabulary *)

(** ** Strings *)

(** [pat] occurs in [s]. *)
Definition occurs_in (pat s : jsstring) : Prop :=
  exists pre post, s = pre ++ pat ++ post.

(** The longest prefix in a class, and what follows it. *)
Fixpoint takeWhile (p : N -> bool) (s : jsstring) : jsstring :=
  match s with
  | c :: s' => if p c then c :: takeWhile p s' else []
  | [] => []
  end.

Fixpoint dropWhile (p : N -> bool) (s : jsstring) : jsstring :=
  match s with
  | c :: s' => if p c then dropWhile p s' else s
  | [] => []
  end.

(** ** The total-time token *)

(** What [TOTAL_TIME] matches at the head of [s], read off the input:
    the literal, white space, digits, a colon, digits. *)
Definition total_time_closed (s : jsstring) : option (jsstring * list jsstring) :=
  if startsWith (lit "Total time:") s then
    match skipn 11 s with
    | c :: s2 =>
        if is_space c then
          match dropWhile is_space s2 with
          | d :: s4 =>
              if is_digit d then
                match dropWhile is_digit s4 with
                | col :: e :: s7 =>
                    if chr_eq 58 col && is_digit e then
                      Some (firstn (length s - length (dropWhile is_digit s7)) s,
                            [firstn (length (d :: s4) - length (dropWhile is_digit s7)) (d :: s4)])
                    else None
                | _ => None
                end
              else None
          | [] => None
          end
        else None
    | [] => None
    end
  else None.

(** An occurrence of the total-time token right after [pre]: the words
    [Total time:], white space, and [tok], digits around a colon, as long
    as the digits go. *)
Definition total_time_token_at (output pre tok : jsstring) : Prop :=
  exists ws d1 d2 rest,
    output = pre ++ lit "Total time:" ++ ws ++ d1 ++ [58%N] ++ d2 ++ rest /\
    ws <> [] /\ forallb is_space ws = true /\
    d1 <> [] /\ forallb is_digit d1 = true /\
    d2 <> [] /\ forallb is_digit d2 = true /\
    match rest with c :: _ => is_digit c = false | [] => True end /\
    tok = d1 ++ [58%N] ++ d2.

Definition first_total_time_token (output tok : jsstring) : Prop :=
  exists pre,
    total_time_token_at output pre tok /\
    forall pre' tok', total_time_token_at output pre' tok' ->
                      (length pre <= length pre')%nat.

Definition last_total_time_token (output tok : jsstring) : Prop :=
  exists pre,
    total_time_token_at output pre tok /\
    forall pre' tok', total_time_token_at output pre' tok' ->
                      (length pre' <= length pre)%nat.

(** An output with two total times. *)
Definition two_totals : jsstring :=
  lit "Total time: 1:02" ++ [10%N] ++ lit "Total time: 3:04".

(** ** The report *)

(** [m] is the largest load among the successful results. *)
Definition is_max_successful (results : list testResult) (m : Z) : Prop :=
  (exists r, In r results /\ success r = true /\ participants r = m) /\
  (forall r, In r results -> success r = true -> participants r <= m).

(** [x.toFixed(1)] when it needs no exponent. *)
Definition toFixed1_positional (x : float) : option jsstring :=
  match Prim2SF x with
  | S754_nan => Some (lit "NaN")
  | S754_infinity false => Some (lit "Infinity")
  | S754_infinity true => Some (lit "-Infinity")
  | S754_zero _ => Some (lit "0.0")
  | S754_finite sign m e =>
      if at_least_1e21 (Zpos m) e then None
      else Some ((if sign then lit "-" else []) ++
                 with_one_decimal (nearest_tenths (Zpos m) e))
  end.

(** The number [successRate] is printed from, for [s] successes out of
    [t] results. *)
Definition rate (s t : nat) : float :=
  PrimFloat.mul (PrimFloat.div (float_of_nat s) (float_of_nat t))
                (float_of_nat 100).

(** The tenths of a percent [n] is one of the integers nearest to
    [1000 * s / t]. *)
Definition nearest_tenth_of_percent (s t : nat) (n : Z) : Prop :=
  0 <= n <= 1000 /\
  - Z.of_nat t <= 2 * (n * Z.of_nat t - 1000 * Z.of_nat s) <= Z.of_nat t.

Definition nearest_b (s t : nat) (n : Z) : bool :=
  (0 <=? n) && (n <=? 1000) &&
  (- Z.of_nat t <=? 2 * (n * Z.of_nat t - 1000 * Z.of_nat s)) &&
  (2 * (n * Z.of_nat t - 1000 * Z.of_nat s) <=? Z.of_nat t).

Definition rate_candidate (s t : nat) (n : Z) : bool :=
  match toFixed1_positional (rate s t) with
  | Some str => str_eqb str (with_one_decimal n) && nearest_b s t n
  | None => false
  end.

(** The printed rate of [s] out of [t] is the half-up rounding of
    [1000 * s / t], or the integer below it. *)
Definition rate_checked (s t : nat) : bool :=
  let n := (2000 * Z.of_nat s + Z.of_nat t) / (2 * Z.of_nat t) in
  rate_candidate s t n || rate_candidate s t (n - 1).

(** ** The campaign *)

(** The executor raises [e] on its call number [t]: the promise is
    rejected, or the standard error is not empty and has no warning. *)
Definition executor_raises (w : world) (t : nat) (e : jsstring) : Prop :=
  match ssh w t with
  | inl m => e = m
  | inr (_, stderr) =>
      stderr <> [] /\ includes stderr (lit "Warning") = false /\
      e = lit "SSH execution failed: " ++ stderr
  end.

(** The executor returns [output] on its call number [t]. *)
Definition executor_returns (w : world) (t : nat) (output : jsstring) : Prop :=
  exists stderr,
    ssh w t = inr (output, stderr) /\
    (stderr = [] \/ includes stderr (lit "Warning") = true).

(** The call [c], made as call number [t], failed with message [e]. *)
Definition call_failed (w : world) (t : nat) (c : call) (e : jsstring) : Prop :=
  match c with
  | CreateDroplet _ _ => doctl_create w t = inl e
  | RemoteScript _ _ => executor_raises w t e
  | WriteReport _ => write_file w t = Some e
  | DeleteDroplet _ | Sleep _ | Now => False
  end.

(** The calls that bring a worker node up. *)
Definition scaling_call (c : call) : Prop :=
  match c with
  | CreateDroplet _ _ | Sleep _ | RemoteScript _ (NodeSetup _) => True
  | _ => False
  end.

Definition not_test (c : call) : Prop :=
  match c with
  | RemoteScript _ (TestRun _) => False
  | _ => True
  end.

(** Every call of the trace [tr], made from [st] on, that failed and was
    not a test run ended the computation, with its message. *)
Definition fatal_calls {A} (w : world) (st : state) (r : result A)
           (tr : list (call * nat)) : Prop :=
  forall j c n e,
    nth_error tr j = Some (c, n) -> not_test c ->
    call_failed w (length (trace st) + j) c e -> r = Throw e.

(** [st'] comes after [st]: the registry, the result log and the trace
    have only grown, by [added], [new] and [tr]. *)
Definition grows (st st' : state) (added : list node)
           (new : list testResult) (tr : list (call * nat)) : Prop :=
  nodes st' = nodes st ++ added /\
  testResults st' = testResults st ++ new /\
  trace st' = trace st ++ tr /\
  hubIp st' = hubIp st.

Definition trace_extends {A} (c : M A) : Prop :=
  forall st r st', c st = (r, st') -> exists tr, trace st' = trace st ++ tr.

(** The calls of one test step, with [n] nodes registered. *)
Definition test_calls (ip : option jsstring) (p : Z) (n : nat)
  : list (call * nat) :=
  [(Now, n); (Now, n); (RemoteScript ip (TestRun p), n); (Now, n)].

(** The first call of a campaign. *)
Definition hub_call : call * nat :=
  (CreateDroplet (lit "jitsi-hub") hubSize, 0%nat).

(** The loads [p], [p + inc], ..., [n] of them. *)
Fixpoint loads_from (p inc : Z) (n : nat) : list Z :=
  match n with
  | O => []
  | S n' => p :: loads_from (p + inc) inc n'
  end.

(** Nothing comes after a failed result. *)
Fixpoint stops_at_first_failure (rs : list testResult) : Prop :=
  match rs with
  | [] => True
  | x :: rest => (success x = false -> rest = []) /\ stops_at_first_failure rest
  end.

(** The test runs of a trace: the load, and the size of the registry. *)
Definition test_events (tr : list (call * nat)) : list (Z * nat) :=
  flat_map (fun ev =>
              match ev with
              | (RemoteScript _ (TestRun L), n) => [(L, n)]
              | _ => []
              end) tr.

Section CampaignVocabulary.
Variable toString_large : float -> jsstring.
Variable cfg : config.
Variable w : world.

(** A computation that ended by an exception: the last call of its trace
    is a scaling call, and it failed. *)
Definition thrown_by_scaling (st : state) (tr : list (call * nat))
           (e : jsstring) : Prop :=
  exists tr' c n,
    tr = tr' ++ [(c, n)] /\ scaling_call c /\
    call_failed w (length (trace st) + length tr') c e.

(** The scaling step at the head of an iteration of the test loop. *)
Definition scale (participants currentNodes : Z) : M Z :=
  let requiredNodes := ceil_div participants (participantsPerNode cfg) in
  if requiredNodes >? currentNodes
  then addNodes cfg w (requiredNodes - currentNodes) ;;; ret requiredNodes
  else ret currentNodes.

(** A test ran with at least the nodes its load requires. *)
Definition enough_nodes (ev : call * nat) : Prop :=
  match fst ev with
  | RemoteScript _ (TestRun L) =>
      ceil_div L (participantsPerNode cfg) <= Z.of_nat (snd ev)
  | _ => True
  end.

(** The registry at each test when every step adds the missing nodes and
    no more: the larger of its size so far and the number required. *)
Fixpoint expected_tests (cur : Z) (loads : list Z) : list (Z * nat) :=
  match loads with
  | [] => []
  | L :: rest =>
      let cur' := Z.max cur (ceil_div L (participantsPerNode cfg)) in
      (L, Z.to_nat cur') :: expected_tests cur' rest
  end.

(** What the test loop has done when it stops, or when the fuel of the
    model runs out. *)
Record loop_facts (p cur : Z) (st : state) (r : result loop_exit)
       (st' : state) (added : list node) (new : list testResult)
       (tr : list (call * nat)) : Prop := {
  lf_grows : grows st st' added new tr;
  lf_loads :
    map participants new = loads_from p (incrementStep cfg) (length new);
  lf_bound : Forall (fun x => participants x <= maxParticipants cfg) new;
  lf_stops : stops_at_first_failure new;
  lf_enough : Forall enough_nodes tr;
  lf_sizes : test_events tr = expected_tests cur (map participants new);
  lf_throw : forall e, r = Throw e -> thrown_by_scaling st tr e;
  lf_fatal : fatal_calls w st r tr;
  lf_broke : r = Ok Broke -> exists l x, new = l ++ [x] /\ success x = false;
  lf_finished : r = Ok Finished -> Forall (fun x => success x = true) new;
  lf_failed : forall x, In x new -> success x = false -> r = Ok Broke;
  lf_raised :
    forall j ip L n e,
      nth_error tr j = Some (RemoteScript ip (TestRun L), n) ->
      executor_raises w (length (trace st) + j) e ->
      r = Ok Broke /\ length tr = (j + 2)%nat /\
      exists l x, new = l ++ [x] /\ participants x = L /\
                  success x = false /\ errors x = [e];
  lf_returned :
    forall j ip L n output,
      nth_error tr j = Some (RemoteScript ip (TestRun L), n) ->
      executor_returns w (length (trace st) + j) output ->
      exists x, In x new /\ participants x = L /\
                success x = classify output
}.

(** Some call of the trace [tr], made from [st] on, failed with [e] and
    was not a test run. *)
Definition failed_call (st : state) (tr : list (call * nat)) (e : jsstring)
  : Prop :=
  exists tr' c n,
    tr = tr' ++ [(c, n)] /\ not_test c /\
    call_failed w (length (trace st) + length tr') c e.

(** A run that leaves the result log alone and runs no test. *)
Definition quiet_run {A} (st : state) (r : result A) (st' : state)
           (tr : list (call * nat)) : Prop :=
  testResults st' = testResults st /\
  trace st' = trace st ++ tr /\
  Forall (fun ev => not_test (fst ev)) tr /\
  (forall e, r = Throw e -> failed_call st tr e) /\
  fatal_calls w st r tr.

Definition quiet {A} (c : M A) : Prop :=
  forall st r st', c st = (r, st') -> exists tr, quiet_run st r st' tr.

(** The phases of a campaign, around the test loop. *)
Definition maybe_cleanup : M unit :=
  if autoCleanup cfg then cleanup else ret tt.

Definition prelude : M unit :=
  calculateInfrastructure cfg ;;;
  provisionInfrastructure cfg w ;;;
  setupInfrastructure w.

Definition report_and_cleanup : M (option report) :=
  report <- generateFinalReport toString_large cfg w ;;
  maybe_cleanup ;;;
  ret (Some report).

Definition loop_then_report (fuel : nat) : M (option report) :=
  exit <- runIncrementalTests cfg w fuel ;;
  match exit with
  | Running => ret None
  | Finished | Broke => report_and_cleanup
  end.

(** What holds of a campaign, at its end or when the fuel of the model
    runs out. *)
Record campaign_facts (r : result (option report)) (st' : state) : Prop := {
  cf_loads :
    map participants (testResults st') =
    loads_from (incrementStep cfg) (incrementStep cfg)
               (length (testResults st'));
  cf_bound :
    Forall (fun x => participants x <= maxParticipants cfg) (testResults st');
  cf_stops : stops_at_first_failure (testResults st');
  cf_enough : Forall enough_nodes (trace st');
  cf_throw :
    forall e, r = Throw e ->
              exists j c n, nth_error (trace st') j = Some (c, n) /\
                            not_test c /\ call_failed w j c e;
  cf_fatal :
    forall j c n e, nth_error (trace st') j = Some (c, n) -> not_test c ->
                    call_failed w j c e -> r = Throw e;
  cf_failed :
    forall x, In x (testResults st') -> success x = false -> r <> Ok None;
  cf_raised :
    forall j ip L n e,
      nth_error (trace st') j = Some (RemoteScript ip (TestRun L), n) ->
      executor_raises w j e ->
      (exists l x, testResults st' = l ++ [x] /\ participants x = L /\
                   success x = false /\ errors x = [e]) /\
      (exists rep k,
          nth_error (trace st') (j + 3) = Some (WriteReport rep, k) /\
          detailedResults rep = testResults st' /\
          match write_file w (j + 3) with
          | Some e' => r = Throw e'
          | None => r = Ok (Some rep)
          end);
  cf_returned :
    forall j ip L n output,
      nth_error (trace st') j = Some (RemoteScript ip (TestRun L), n) ->
      executor_returns w j output ->
      exists x, In x (testResults st') /\ participants x = L /\
                success x = classify output
}.

End CampaignVocabulary.

(** A campaign, as the script starts it. *)
Definition campaign (toString_large : float -> jsstring) (e : env) (w : world)
           (fuel : nat) : result (option report) * state :=
  runCompleteTest toString_large (main_config e) w fuel constructor.

(** ** Examples *)

(** Exponent notation never shows in the examples. *)
Definition no_exponent : float -> jsstring := fun _ => [].

Definition example_env (maxP inc perNode : Z) : env :=
  {| DO_TOKEN := Some (lit "token"); DO_SSH_KEY_ID := Some (lit "key");
     MAX_PARTICIPANTS := Some maxP; INCREMENT_STEP := Some inc;
     PARTICIPANTS_PER_NODE := Some perNode;
     AUTO_CLEANUP_not_false := true |}.

(** A world where every call succeeds and every test prints
    [BUILD SUCCESS], except that the executor answers [reply] to the call
    number [bad]. *)
Definition example_world (bad : nat) (reply : jsstring + jsstring * jsstring)
  : world :=
  {| doctl_create := fun t =>
       inr {| droplet_id := Z.of_nat t; droplet_ip := lit "10.0.0.1" |};
     doctl_delete := fun _ => None;
     ssh := fun t =>
       if Nat.eqb t bad then reply else inr (lit "BUILD SUCCESS", []);
     clock := fun t => 1000 * Z.of_nat t;
     write_file := fun _ => None |}.

Definition failed_at (p : Z) : testResult :=
  {| participants := p; success := false; errors := [lit "boom"];
     duration := 0; timestamp := 0; metrics := no_metrics |}.

Definition passed_at (p : Z) : testResult :=
  {| participants := p; success := true; errors := [];
     duration := 0; timestamp := 0; metrics := no_metrics |}.

(** * The text at the edges of the script *)

(** ** Numbers read from text *)

(** The value of a digit, in radix 10 and in radix 16. *)
Definition dec_value (c : N) : option Z :=
  if is_digit c then Some (Z.of_N c - 48) else None.

Definition hex_value (c : N) : option Z :=
  if is_digit c then Some (Z.of_N c - 48)
  else if (97 <=? c)%N && (c <=? 102)%N then Some (Z.of_N c - 87)
  else if (65 <=? c)%N && (c <=? 70)%N then Some (Z.of_N c - 55)
  else None.

(** The number written by the longest prefix of [s] made of digits of
    the radix [R]; [acc] is what has been read so far, [None] when no
    digit has been. *)
Fixpoint radix_prefix (value : N -> option Z) (R : Z) (s : jsstring)
         (acc : option Z) : option Z :=
  match s with
  | c :: s' =>
      match value c with
      | Some d =>
          radix_prefix value R s'
            (Some (R * match acc with Some a => a | None => 0 end + d))
      | None => acc
      end
  | [] => acc
  end.

(** [parseInt(s)], without a radix: white space, a sign, the prefix [0x]
    or [0X] for radix 16, then the digits; [None] is [NaN].  The number is
    the integer read, as long as binary64 holds it exactly. *)
Definition parseInt (s : jsstring) : option Z :=
  let s := dropWhile is_space s in
  let '(sign, s) :=
    match s with
    | c :: s' =>
        if (c =? 45)%N then (-1, s')
        else if (c =? 43)%N then (1, s') else (1, s)
    | [] => (1, s)
    end in
  let '(R, s) :=
    match s with
    | z :: x :: s' =>
        if (z =? 48)%N && ((x =? 120)%N || (x =? 88)%N) then (16, s')
        else (10, s)
    | _ => (10, s)
    end in
  match radix_prefix (if R =? 16 then hex_value else dec_value) R s None with
  | Some v => Some (sign * v)
  | None => None
  end.

(** [parseInt(process.env.X) || d]: a variable that is not set reads as
    the text [undefined]. *)
Definition env_number (v : option jsstring) (d : Z) : Z :=
  or_default
    (parseInt match v with Some s => s | None => lit "undefined" end) d.

(** ** The reply of [doctl compute droplet create] *)

(** [s.trim()] *)
Definition trim (s : jsstring) : jsstring :=
  rev (dropWhile is_space (rev (dropWhile is_space s))).

(** [s.split(/\s+/)]: the pieces of [s] between its runs of white space.
    The head of the result is the piece being read; [in_gap] tells that
    the code unit before [s] was white space. *)
Fixpoint split_spaces (s : jsstring) (in_gap : bool) : list jsstring :=
  match s with
  | [] => [[]]
  | c :: s' =>
      if is_space c then
        if in_gap then split_spaces s' true else [] :: split_spaces s' true
      else
        match split_spaces s' false with
        | piece :: pieces => (c :: piece) :: pieces
        | [] => [[c]]
        end
  end.

(** What [createDroplet] makes of the standard output of the command:
    [id] is [parseInt] of the first column, the address is the third
    column; [None] stands for [NaN] and for [undefined]. *)
Record droplet_data := {
  data_id : option Z;
  data_ip : option jsstring
}.

Definition createDroplet_data (stdout : jsstring) : droplet_data :=
  let columns := split_spaces (trim stdout) false in
  {| data_id :=
       match nth_error columns 0 with
       | Some id => parseInt id
       | None => None
       end;
     data_ip := nth_error columns 2 |}.

(** ** The test command *)

(** [words.join(sep)] *)
Fixpoint join (sep : jsstring) (words : list jsstring) : jsstring :=
  match words with
  | [] => []
  | [w] => w
  | w :: rest => w ++ sep ++ join sep rest
  end.

(** [-Dweb.participant${i}.isRemote=true] *)
Definition remote_flag (i : Z) : jsstring :=
  lit "-Dweb.participant" ++ string_of_Z i ++ lit ".isRemote=true".

(** [for (let i = ...; i <= participants; i++) remoteFlags.push(...)],
    over [count] iterations. *)
Fixpoint remote_flags_from (count : nat) (i : Z) : list jsstring :=
  match count with
  | O => []
  | S count' => remote_flag i :: remote_flags_from count' (i + 1)
  end.

Definition remoteFlags (participants : Z) : list jsstring :=
  remote_flags_from (Z.to_nat participants) 1.

(** [${this.hubIp}] *)
Definition template_of (v : option jsstring) : jsstring :=
  match v with Some s => s | None => lit "null" end.

Definition test_words (jitsiUrl testsToRun : jsstring)
           (hubIp : option jsstring) (participants : Z) : list jsstring :=
  [lit "mvn"; lit "test";
   lit "-Djitsi-meet.instance.url=" ++ jitsiUrl;
   lit "-Djitsi-meet.tests.toRun=" ++ testsToRun;
   lit "-Denable.headless=true";
   lit "-Dremote.address=http://" ++ template_of hubIp ++ lit ":4444/wd/hub";
   lit "-Dremote.resource.path=/usr/share/jitsi-meet-torture";
   lit "-Dtest.timeout=300"] ++ remoteFlags participants.

Definition testCommand (jitsiUrl testsToRun : jsstring)
           (hubIp : option jsstring) (participants : Z) : jsstring :=
  join (lit " ") (test_words jitsiUrl testsToRun hubIp participants).

(** ** Vocabulary for text *)

Definition blank (s : jsstring) : Prop := forallb is_space s = true.

(** A column: some text without white space. *)
Definition word (s : jsstring) : Prop :=
  s <> [] /\ forallb (fun c => negb (is_space c)) s = true.

(** A line of columns: the first one, then each further one after its
    gap. *)
Definition columns_text (first : jsstring)
           (more : list (jsstring * jsstring)) : jsstring :=
  first ++ concat (map (fun gc => fst gc ++ snd gc) more).

Definition gap_and_word (gc : jsstring * jsstring) : Prop :=
  fst gc <> [] /\ blank (fst gc) /\ word (snd gc).

(** What may follow a decimal number for [parseInt] to read it: no
    further digit, and no [x] that would make a lone [0] a hexadecimal
    prefix. *)
Definition ends_decimal (rest : jsstring) : Prop :=
  match rest with
  | c :: _ => is_digit c = false /\ c <> 120%N /\ c <> 88%N
  | [] => True
  end.

(** Text that does not begin with a number: after the white space comes
    the end, or a code unit that is neither a digit nor a sign. *)
Definition not_a_number (s : jsstring) : Prop :=
  match dropWhile is_space s with
  | c :: _ => is_digit c = false /\ c <> 45%N /\ c <> 43%N
  | [] => True
  end.

(** What may follow the digits of a decimal number. *)
Definition ends_number (rest : jsstring) : Prop :=
  match rest with c :: _ => is_digit c = false | [] => True end.

(** The text [0x] or [0X] makes what follows hexadecimal. *)
Definition hex_marker (s rest : jsstring) : Prop :=
  s = [48%N] /\ exists c rest', rest = c :: rest' /\ (c = 120%N \/ c = 88%N).

(** ** Vocabulary for the lines of the output *)

(** [r] is a piece of [output]: one of the [tags], then [text] in the
    class [p] as far as it goes. *)
Definition tagged_run (tags : list jsstring) (p : N -> bool)
           (output r : jsstring) : Prop :=
  exists pre tag text post,
    output = pre ++ tag ++ text ++ post /\ In tag tags /\
    r = tag ++ text /\ forallb p text = true /\
    match post with c :: _ => p c = false | [] => True end.

(** A failure reason: [ERROR:] or [FAILED:] and the rest of the line. *)
Definition failure_reason_in : jsstring -> jsstring -> Prop :=
  tagged_run [lit "ERROR:"; lit "FAILED:"] not_newline.

(** An error line: [ERROR] or [FAILED] and the rest of the line. *)
Definition error_line_in : jsstring -> jsstring -> Prop :=
  tagged_run [lit "ERROR"; lit "FAILED"] is_dot.

(** ** Vocabulary for the count of participants that joined *)

(** [pat] is a prefix of [s], the case of letters apart. *)
Fixpoint startsWith_i (pat s : jsstring) : bool :=
  match pat, s with
  | [], _ => true
  | _ :: _, [] => false
  | p :: pat', c :: s' => chr_eq_i p c && startsWith_i pat' s'
  end.

(** [s] without a leading [s] or [S]. *)
Definition after_s (s : jsstring) : jsstring :=
  match s with
  | c :: s' => if chr_eq_i 115 c then s' else s
  | [] => s
  end.

(** What [JOINED] matches at the head of [s], read off the input:
    digits, white space, [participant] with or without [s], white space,
    [joined]. *)
Definition joined_closed (s : jsstring) : option (jsstring * list jsstring) :=
  match s with
  | c :: s0 =>
      if is_digit c then
        match dropWhile is_digit s0 with
        | c2 :: s2 =>
            if is_space c2 then
              let s3 := dropWhile is_space s2 in
              if startsWith_i (lit "participant") s3 then
                match after_s (skipn 11 s3) with
                | c5 :: s5 =>
                    if is_space c5 then
                      let s6 := dropWhile is_space s5 in
                      if startsWith_i (lit "joined") s6 then
                        Some (firstn (length s - length (skipn 6 s6)) s,
                              [firstn (length s - length (dropWhile is_digit s0)) s])
                      else None
                    else None
                | [] => None
                end
              else None
            else None
        | [] => None
        end
      else None
  | [] => None
  end.

(** [s] is [pat], the case of letters apart. *)
Definition same_letters (pat s : jsstring) : Prop :=
  Forall2 (fun p c => chr_eq_i p c = true) pat s.

(** [tok] reads "[n] participant(s) joined": the digits of [n], white
    space, the word [participant], with or without [s] and in any case,
    white space, and the word [joined] in any case. *)
Definition joined_phrase (tok : jsstring) (n : Z) : Prop :=
  exists d ws1 P S ws2 J,
    tok = d ++ ws1 ++ P ++ S ++ ws2 ++ J /\
    d <> [] /\ forallb is_digit d = true /\ n = parse_digits d /\
    ws1 <> [] /\ blank ws1 /\
    same_letters (lit "participant") P /\
    (S = [] \/ same_letters (lit "s") S) /\
    ws2 <> [] /\ blank ws2 /\
    same_letters (lit "joined") J.

(** ** Invariants of a campaign *)

(** The state after the calls [cs], made one after the other. *)
Definition logged (cs : list call) (st : state) : state :=
  fold_left (fun s c => log_call c s) cs st.

(** A call that neither creates nor deletes a droplet. *)
Definition plain_call (c : call) : Prop :=
  match c with
  | CreateDroplet _ _ | DeleteDroplet _ => False
  | _ => True
  end.

(** The droplets whose creation succeeded, by name, among the calls
    [tr], the first of which has the number [t]. *)
Fixpoint created_from (w : world) (t : nat) (tr : list (call * nat))
  : list jsstring :=
  match tr with
  | [] => []
  | (c, _) :: tr' =>
      match c, doctl_create w t with
      | CreateDroplet name _, inr _ => name :: created_from w (S t) tr'
      | _, _ => created_from w (S t) tr'
      end
  end.

Definition created (w : world) (tr : list (call * nat)) : list jsstring :=
  created_from w 0 tr.

(** The droplets a trace asks to delete, by name. *)
Definition deleted (tr : list (call * nat)) : list jsstring :=
  flat_map (fun ev => match fst ev with
                      | DeleteDroplet name => [name]
                      | _ => []
                      end) tr.

Section Invariants.
Variable cfg : config.
Variable w : world.

(** A result that some step has returned. *)
Definition step_result (x : testResult) : Prop :=
  exists p st st', runSingleTest w p st = (Ok x, st').

(** A property of the state that every elementary move of a campaign
    keeps, the deletion of droplets apart: a call that is neither a
    creation nor a deletion, a creation that failed, the creation of the
    hub and the recording of its address, the creation of the next node
    and its registration, the plan, and the recording of a result. *)
Record sound_invariant (I : state -> Prop) : Prop := {
  si_call :
    forall c st, plain_call c -> I st -> I (log_call c st);
  si_create_failed :
    forall name size st e,
      doctl_create w (length (trace st)) = inl e -> I st ->
      I (log_call (CreateDroplet name size) st);
  si_hub :
    forall st d,
      doctl_create w (length (trace st)) = inr d -> I st ->
      I (set_hubIp (droplet_ip d)
           (log_call (CreateDroplet (lit "jitsi-hub") hubSize) st));
  si_node :
    forall st d,
      doctl_create w (length (trace st)) = inr d -> I st ->
      let i := Z.of_nat (length (nodes st)) + 1 in
      I (push_node (new_node cfg i d)
           (log_call (CreateDroplet (node_name_of i) nodeSize) st));
  si_required :
    forall n st, I st -> I (set_requiredNodes n st);
  si_result :
    forall x st, step_result x -> I st -> I (push_result x st)
}.

(** The registry lists the nodes in the order of their numbers, each
    with the capacity of the configuration. *)
Definition registry_numbered (st : state) : Prop :=
  forall k n,
    nth_error (nodes st) k = Some n ->
    node_name n = node_name_of (Z.of_nat k + 1) /\
    node_maxParticipants n = participantsPerNode cfg.

(** Every node of the registry holds what [doctl] replied when it was
    created, and every droplet that was created is the hub or a node of
    the registry. *)
Definition registry_created (st : state) : Prop :=
  (forall n,
      In n (nodes st) ->
      exists j k d,
        nth_error (trace st) j = Some (CreateDroplet (node_name n) nodeSize, k) /\
        doctl_create w j = inr d /\
        node_id n = droplet_id d /\ node_ip n = droplet_ip d) /\
  (forall name,
      In name (created w (trace st)) ->
      name = lit "jitsi-hub" \/ In name (map node_name (nodes st))).

End Invariants.

(** The computation [c] keeps the property [I] of the state, however it
    ends. *)
Definition keeps (I : state -> Prop) {A} (c : M A) : Prop :=
  forall st r st', c st = (r, st') -> I st -> I st'.

(** No droplet has been deleted. *)
Definition nothing_deleted (st : state) : Prop := deleted (trace st) = [].

(** Every result of the log has at most five errors, and none when it
    is a success. *)
Definition errors_bounded (st : state) : Prop :=
  Forall (fun x => (length (errors x) <= 5)%nat /\
                   (success x = true -> errors x = []))
         (testResults st).

(** ** Vocabulary for the outcome of a campaign *)

(** The size of the registry after the tests at [loads], from [cur]
    nodes: each test adds the nodes it misses. *)
Definition nodes_after (cfg : config) (cur : Z) (loads : list Z) : Z :=
  fold_left (fun c L => Z.max c (ceil_div L (participantsPerNode cfg)))
            loads cur.

(** A world in which no call fails and every test is a success. *)
Definition never_fails (w : world) : Prop :=
  (forall t, exists d, doctl_create w t = inr d) /\
  (forall t, exists output,
      ssh w t = inr (output, []) /\ classify output = true) /\
  (forall t, write_file w t = None).

(** ** Further examples *)

(** The settings of [example_env], without the final clean-up. *)
Definition env_without_cleanup (maxP inc perNode : Z) : env :=
  {| DO_TOKEN := Some (lit "token"); DO_SSH_KEY_ID := Some (lit "key");
     MAX_PARTICIPANTS := Some maxP; INCREMENT_STEP := Some inc;
     PARTICIPANTS_PER_NODE := Some perNode;
     AUTO_CLEANUP_not_false := false |}.

(** A world where every call succeeds and every test prints
    [BUILD SUCCESS]. *)
Definition steady_world : world :=
  {| doctl_create := fun t =>
       inr {| droplet_id := Z.of_nat t; droplet_ip := lit "10.0.0.1" |};
     doctl_delete := fun _ => None;
     ssh := fun _ => inr (lit "BUILD SUCCESS", []);
     clock := fun t => 1000 * Z.of_nat t;
     write_file := fun _ => None |}.

(** The requests to delete the droplets [names], made when the registry
    holds [n] nodes. *)
Definition deletions (names : list jsstring) (n : nat) : list (call * nat) :=
  map (fun name => (DeleteDroplet name, n)) names.

(** * Properties *)

(** ** Capacity arithmetic *)

(** [Math.ceil (a / b)] in integer arithmetic: minus the floor of the
    opposite. *)
Lemma ceil_div_opp_floor (a b : Z) : ceil_div a b = - ((- a) / b).
Proof.
  unfold ceil_div, Qceiling, Qfloor, Qdiv, Qinv, Qmult, Qopp, inject_Z.
  destruct b as [|p|p]; cbn [Qnum Qden Z.opp].
  - rewrite Z.mul_0_r, Z.div_0_r. reflexivity.
  - rewrite Z.mul_1_r, Pos.mul_1_l. reflexivity.
  - rewrite Pos.mul_1_l.
    replace (- (a * -1)) with a by lia.
    replace (Z.neg p) with (- Z.pos p) by reflexivity.
    rewrite Z.div_opp_opp by lia. reflexivity.
Qed.

Lemma ceil_div_bounds (a b : Z) :
  0 < b -> (ceil_div a b - 1) * b < a <= ceil_div a b * b.
Proof.
  intros Hb. rewrite ceil_div_opp_floor.
  pose proof (Z.div_mod (- a) b ltac:(lia)) as Hdm.
  pose proof (Z.mod_pos_bound (- a) b Hb) as Hm.
  nia.
Qed.

Lemma ceil_div_unique (a b k : Z) :
  0 < b -> (k - 1) * b < a <= k * b -> ceil_div a b = k.
Proof.
  intros Hb Hk. pose proof (ceil_div_bounds a b Hb) as Hc. nia.
Qed.



(** ** Strings *)

Lemma startsWith_iff (pat s : jsstring) :
  startsWith pat s = true <-> exists post, s = pat ++ post.
Proof.
  revert s. induction pat as [|p pat IH]; intros s; cbn.
  - split; [intros _; exists s; reflexivity | reflexivity].
  - destruct s as [|c s]; [split; [discriminate | intros [post H]; discriminate]|].
    rewrite andb_true_iff, N.eqb_eq, IH. split.
    + intros [-> [post ->]]. exists post. reflexivity.
    + intros [post H]. injection H as -> ->. split; [reflexivity | now exists post].
Qed.

Lemma includes_iff (s pat : jsstring) :
  includes s pat = true <-> occurs_in pat s.
Proof.
  unfold occurs_in. induction s as [|c s IH].
  - cbn. rewrite orb_false_r, startsWith_iff. split.
    + intros [post H]. exists [], post. exact H.
    + intros [pre [post H]]. destruct pre; [exists post; exact H | discriminate].
  - cbn [includes]. rewrite orb_true_iff, startsWith_iff, IH. split.
    + intros [[post H] | [pre [post H]]].
      * exists [], post. exact H.
      * exists (c :: pre), post. cbn. now rewrite H.
    + intros [pre [post H]]. destruct pre as [|c' pre].
      * left. exists post. exact H.
      * right. cbn in H. injection H as _ H. now exists pre, post.
Qed.

(** The classification of an output: [BUILD SUCCESS] present, or
    [FAILURES] missing. *)
Lemma classify_iff (output : jsstring) :
  classify output = true <->
  occurs_in (lit "BUILD SUCCESS") output \/
  ~ occurs_in (lit "FAILURES") output.
Proof.
  unfold classify. rewrite orb_true_iff, negb_true_iff, <- !includes_iff.
  destruct (includes output (lit "FAILURES")); intuition congruence.
Qed.

(** ** The matcher *)

Lemma take_drop_while (p : N -> bool) (s : jsstring) :
  s = takeWhile p s ++ dropWhile p s.
Proof.
  induction s as [|c s IH]; cbn; [reflexivity|].
  destruct (p c); cbn; [now rewrite <- IH | reflexivity].
Qed.

Lemma takeWhile_all (p : N -> bool) (s : jsstring) :
  forallb p (takeWhile p s) = true.
Proof.
  induction s as [|c s IH]; cbn; [reflexivity|].
  destruct (p c) eqn:E; cbn; [now rewrite E | reflexivity].
Qed.

Lemma dropWhile_head (p : N -> bool) (s : jsstring) (c : N) (s' : jsstring) :
  dropWhile p s = c :: s' -> p c = false.
Proof.
  induction s as [|d s IH]; cbn; [discriminate|].
  destruct (p d) eqn:E; [exact IH|].
  intros H. injection H as -> _. exact E.
Qed.

Lemma dropWhile_app (p : N -> bool) (run rest : jsstring) :
  forallb p run = true ->
  match rest with c :: _ => p c = false | [] => True end ->
  dropWhile p (run ++ rest) = rest /\ takeWhile p (run ++ rest) = run.
Proof.
  intros Hrun Hrest. induction run as [|c run IH]; cbn.
  - destruct rest as [|c rest]; [split; reflexivity|].
    cbn. rewrite Hrest. split; reflexivity.
  - cbn in Hrun. apply andb_true_iff in Hrun as [Hc Hrun].
    rewrite Hc. destruct (IH Hrun) as [-> ->]. split; reflexivity.
Qed.

Section MatcherFacts.
Context {R : Type}.

(** A continuation that succeeds after the longest run is reached by the
    first attempt. *)
Lemma star_greedy (p : N -> bool) (s : jsstring) (k : jsstring -> option R) :
  k (dropWhile p s) <> None -> star p s k = k (dropWhile p s).
Proof.
  induction s as [|c s IH]; cbn; [reflexivity|].
  destruct (p c); [|reflexivity].
  intros H. rewrite (IH H). destruct (k (dropWhile p s)); [reflexivity | contradiction].
Qed.

(** A continuation that rejects every input starting in the class is
    only ever satisfied after the longest run. *)
Lemma star_commit (p : N -> bool) (s : jsstring) (k : jsstring -> option R) :
  (forall c s', p c = true -> k (c :: s') = None) ->
  star p s k = k (dropWhile p s).
Proof.
  intros Hk. induction s as [|c s IH]; cbn; [reflexivity|].
  destruct (p c) eqn:E; [|reflexivity].
  rewrite IH. destruct (k (dropWhile p s)) eqn:Ek; [reflexivity|].
  apply Hk. exact E.
Qed.

(** Whatever the matcher answers was answered by the continuation, on a
    suffix of the input. *)
Lemma star_suffix (p : N -> bool) (s : jsstring) (k : jsstring -> option R)
      (x : R) :
  star p s k = Some x ->
  exists pre s1, s = pre ++ s1 /\ k s1 = Some x.
Proof.
  induction s as [|c s IH]; cbn.
  - intros H. exists [], []. split; [reflexivity | exact H].
  - destruct (p c).
    + destruct (star p s k) eqn:E.
      * intros H. injection H as ->.
        destruct (IH eq_refl) as (pre & s1 & -> & Hk).
        exists (c :: pre), s1. split; [reflexivity | exact Hk].
      * intros H. exists [], (c :: s). split; [reflexivity | exact H].
    + intros H. exists [], (c :: s). split; [reflexivity | exact H].
Qed.

Lemma rx_suffix (r : regex) :
  forall (s : jsstring) (caps : list jsstring)
         (k : jsstring -> list jsstring -> option R) (x : R),
    rx r s caps k = Some x ->
    exists pre s1 caps1, s = pre ++ s1 /\ k s1 caps1 = Some x.
Proof.
  induction r as [|p|r1 IH1 r2 IH2|r1 IH1 r2 IH2|p|r1 IH1];
    intros s caps k x; cbn.
  - intros H. exists [], s, caps. split; [reflexivity | exact H].
  - destruct s as [|c s]; [discriminate|].
    destruct (p c); [|discriminate].
    intros H. exists [c], s, caps. split; [reflexivity | exact H].
  - intros H. apply IH1 in H as (pre1 & s1 & caps1 & -> & H).
    apply IH2 in H as (pre2 & s2 & caps2 & -> & H).
    exists (pre1 ++ pre2), s2, caps2. split; [now rewrite app_assoc | exact H].
  - destruct (rx r1 s caps k) eqn:E.
    + intros H. injection H as ->. now apply IH1 in E.
    + intros H. now apply IH2 in H.
  - intros H. apply star_suffix in H as (pre & s1 & -> & H).
    exists pre, s1, caps. split; [reflexivity | exact H].
  - intros H. apply IH1 in H as (pre & s1 & caps1 & -> & H).
    eexists pre, s1, _. split; [reflexivity | exact H].
Qed.

(** A literal is matched by comparing it with the head of the input. *)
Lemma rx_Lit (l : jsstring) (r : regex) (s : jsstring)
      (caps : list jsstring) (k : jsstring -> list jsstring -> option R) :
  rx (Seq (Lit_with chr_eq l) r) s caps k =
  if startsWith l s then rx r (skipn (length l) s) caps k else None.
Proof.
  revert s. induction l as [|c l IH]; intros s; [reflexivity|].
  cbn [Lit_with]. change (rx (Seq (Seq (Cls (chr_eq c)) (Lit_with chr_eq l)) r) s caps k)
    with (rx (Cls (chr_eq c)) s caps
             (fun s1 caps1 => rx (Seq (Lit_with chr_eq l) r) s1 caps1 k)).
  cbn [rx]. destruct s as [|d s]; [reflexivity|]. cbn [startsWith length skipn].
  unfold chr_eq at 1. destruct (N.eqb c d); [apply IH | reflexivity].
Qed.

End MatcherFacts.

Lemma firstn_app_length_sub {A} (pre s1 : list A) :
  firstn (length (pre ++ s1) - length s1) (pre ++ s1) = pre.
Proof.
  rewrite length_app, Nat.add_sub, firstn_app, Nat.sub_diag, firstn_all.
  cbn. apply app_nil_r.
Qed.

(** The text of a match is a prefix of the input. *)
Lemma match_at_prefix (r : regex) (s m : jsstring) (caps : list jsstring) :
  match_at r s = Some (m, caps) -> exists s1, s = m ++ s1.
Proof.
  unfold match_at. intros H.
  apply rx_suffix in H as (pre & s1 & caps1 & -> & H).
  injection H as <- _. exists s1. now rewrite firstn_app_length_sub.
Qed.

Lemma match_all_from_In (r : regex) (s : jsstring) :
  forall (skip : nat) (m : jsstring),
    In m (match_all_from r s skip) ->
    exists s' caps, match_at r s' = Some (m, caps).
Proof.
  induction s as [|c s IH]; intros skip m; cbn [match_all_from].
  - destruct skip; [|intros []].
    destruct (match_at r []) as [[m' caps]|] eqn:E; [|intros []].
    intros [<-|[]]. now exists [], caps.
  - destruct skip as [|n]; [|apply IH].
    destruct (match_at r (c :: s)) as [[m' caps]|] eqn:E; [|apply IH].
    intros [<-|H]; [now exists (c :: s), caps | now apply IH in H].
Qed.

(** ** The total-time token and metric extraction *)

Lemma space_not_digit c : is_space c = true -> is_digit c = false.
Proof.
  unfold is_space, is_digit. intros H.
  rewrite !orb_true_iff, !andb_true_iff, !N.eqb_eq, !N.leb_le in H.
  apply andb_false_iff. rewrite !N.leb_gt. lia.
Qed.

Lemma digit_not_colon c : is_digit c = true -> chr_eq 58 c = false.
Proof.
  unfold is_digit, chr_eq. rewrite andb_true_iff, !N.leb_le, N.eqb_neq. lia.
Qed.

Lemma match_at_TOTAL_TIME s : match_at TOTAL_TIME s = total_time_closed s.
Proof.
  unfold match_at, TOTAL_TIME, total_time_closed, Lit.
  rewrite rx_Lit.
  destruct (startsWith (lit "Total time:") s); [|reflexivity].
  change (length (lit "Total time:")) with 11%nat.
  destruct (skipn 11 s) as [|c s2]; [reflexivity|].
  cbn [rx Plus]. destruct (is_space c); [|reflexivity].
  rewrite star_commit.
  2:{ intros c' s' Hc'. cbn [rx]. now rewrite (space_not_digit _ Hc'). }
  destruct (dropWhile is_space s2) as [|d s4]; [reflexivity|].
  cbn [rx]. destruct (is_digit d); [|reflexivity].
  rewrite star_commit.
  2:{ intros c' s' Hc'. cbn [rx]. now rewrite (digit_not_colon _ Hc'). }
  destruct (dropWhile is_digit s4) as [|col s6]; [reflexivity|].
  cbn [rx]. destruct (chr_eq 58 col); [|destruct s6; reflexivity].
  destruct s6 as [|e s7]; [reflexivity|].
  cbn [andb]. destruct (is_digit e); [|reflexivity].
  rewrite star_greedy by discriminate. reflexivity.
Qed.

Lemma skipn_app_exact {A} (a b : list A) : skipn (length a) (a ++ b) = b.
Proof. rewrite skipn_app, Nat.sub_diag, skipn_all. reflexivity. Qed.

Lemma total_time_closed_complete (s tok : jsstring) :
  total_time_token_at s [] tok ->
  exists m, total_time_closed s = Some (m, [tok]).
Proof.
  intros (ws & d1 & d2 & rest & Hs & Hws & Hsp & Hd1 & Hdg1 & Hd2 & Hdg2 & Hrest & ->).
  cbn [app] in Hs. unfold total_time_closed.
  assert (Hst : startsWith (lit "Total time:") s = true).
  { apply startsWith_iff. eexists. exact Hs. }
  rewrite Hst.
  assert (Hsk : skipn 11 s = ws ++ d1 ++ [58%N] ++ d2 ++ rest).
  { rewrite Hs. apply (skipn_app_exact (lit "Total time:")). }
  rewrite Hsk.
  destruct ws as [|c ws]; [contradiction|].
  destruct d1 as [|d d1]; [contradiction|].
  destruct d2 as [|e d2]; [contradiction|].
  cbn [forallb] in Hsp, Hdg1, Hdg2.
  apply andb_true_iff in Hsp as [Hc Hsp].
  apply andb_true_iff in Hdg1 as [Hd Hdg1].
  apply andb_true_iff in Hdg2 as [He Hdg2].
  cbn [app]. rewrite Hc.
  destruct (dropWhile_app is_space ws (d :: d1 ++ 58%N :: e :: d2 ++ rest) Hsp) as [-> _].
  { destruct (is_space d) eqn:E; [|reflexivity].
    apply space_not_digit in E. congruence. }
  rewrite Hd.
  destruct (dropWhile_app is_digit d1 (58%N :: e :: d2 ++ rest) Hdg1) as [-> _];
    [reflexivity|].
  rewrite He.
  destruct (dropWhile_app is_digit d2 rest Hdg2 Hrest) as [-> _].
  change (chr_eq 58 58) with true. cbn [andb].
  eexists. f_equal. f_equal. f_equal.
  replace (d :: d1 ++ 58%N :: e :: d2 ++ rest)
    with ((d :: d1 ++ 58%N :: e :: d2) ++ rest)
    by (cbn [app]; now rewrite <- !app_assoc).
  apply firstn_app_length_sub.
Qed.

Lemma dropWhile_stops (p : N -> bool) (s : jsstring) :
  match dropWhile p s with c :: _ => p c = false | [] => True end.
Proof.
  destruct (dropWhile p s) as [|c s'] eqn:E; [exact I|].
  exact (dropWhile_head p s c s' E).
Qed.

(** A string, cut after its longest prefix in a class. *)
Lemma span_cases (p : N -> bool) (s : jsstring) :
  exists run rest,
    s = run ++ rest /\ dropWhile p s = rest /\ forallb p run = true /\
    match rest with c :: _ => p c = false | [] => True end.
Proof.
  exists (takeWhile p s), (dropWhile p s).
  split; [apply take_drop_while|].
  split; [reflexivity|].
  split; [apply takeWhile_all | apply dropWhile_stops].
Qed.

Lemma total_time_closed_sound (s m : jsstring) (caps : list jsstring) :
  total_time_closed s = Some (m, caps) ->
  exists tok, caps = [tok] /\ total_time_token_at s [] tok.
Proof.
  unfold total_time_closed.
  destruct (startsWith (lit "Total time:") s) eqn:Hst; [|discriminate].
  apply startsWith_iff in Hst as [post ->].
  rewrite (skipn_app_exact (lit "Total time:")).
  destruct post as [|c s2]; [discriminate|].
  destruct (is_space c) eqn:Hc; [|discriminate].
  destruct (span_cases is_space s2) as (ws & r2 & -> & -> & Hws & _).
  destruct r2 as [|d s4]; [discriminate|].
  destruct (is_digit d) eqn:Hd; [|discriminate].
  destruct (span_cases is_digit s4) as (d1 & r4 & -> & -> & Hd1 & _).
  destruct r4 as [|col [|e s7]]; [discriminate..|].
  destruct (chr_eq 58 col) eqn:Hcol; [|discriminate].
  apply N.eqb_eq in Hcol. subst col.
  cbn [andb]. destruct (is_digit e) eqn:He; [|discriminate].
  destruct (span_cases is_digit s7) as (d2 & rest & -> & -> & Hd2 & Hrest).
  assert (Htok : firstn (length (d :: d1 ++ 58%N :: e :: d2 ++ rest) - length rest)
                        (d :: d1 ++ 58%N :: e :: d2 ++ rest)
                 = (d :: d1) ++ [58%N] ++ e :: d2).
  { replace (d :: d1 ++ 58%N :: e :: d2 ++ rest)
      with (((d :: d1) ++ [58%N] ++ e :: d2) ++ rest)
      by (cbn [app]; now rewrite <- !app_assoc).
    apply firstn_app_length_sub. }
  intros H. injection H as _ <-. eexists. split; [reflexivity|].
  exists (c :: ws), (d :: d1), (e :: d2), rest.
  split; [cbn [app]; reflexivity|].
  split; [discriminate|].
  split; [cbn [forallb]; now rewrite Hc, Hws|].
  split; [discriminate|].
  split; [cbn [forallb]; now rewrite Hd, Hd1|].
  split; [discriminate|].
  split; [cbn [forallb]; now rewrite He, Hd2|].
  split; [exact Hrest|].
  exact Htok.
Qed.

(** *** The leftmost match *)

Lemma search_Some (r : regex) (s : jsstring) (x : jsstring * list jsstring) :
  search r s = Some x ->
  exists pre suf,
    s = pre ++ suf /\ match_at r suf = Some x /\
    forall pre' suf', s = pre' ++ suf' -> (length pre' < length pre)%nat ->
                      match_at r suf' = None.
Proof.
  induction s as [|c s IH]; cbn [search].
  - destruct (match_at r []) eqn:E; [|discriminate].
    intros H. injection H as ->. exists [], []. split; [reflexivity|].
    split; [exact E|]. intros pre' suf' _ Hlt. cbn in Hlt. lia.
  - destruct (match_at r (c :: s)) eqn:E.
    + intros H. injection H as ->. exists [], (c :: s). split; [reflexivity|].
      split; [exact E|]. intros pre' suf' _ Hlt. cbn in Hlt. lia.
    + intros H. destruct (IH H) as (pre & suf & -> & Hm & Hmin).
      exists (c :: pre), suf. split; [reflexivity|]. split; [exact Hm|].
      intros pre' suf' Heq Hlt. destruct pre' as [|c' pre'].
      * cbn in Heq. subst suf'. exact E.
      * cbn in Heq. injection Heq as _ Heq. apply (Hmin pre' suf' Heq).
        cbn in Hlt. lia.
Qed.

Lemma search_None (r : regex) (s : jsstring) :
  search r s = None ->
  forall pre suf, s = pre ++ suf -> match_at r suf = None.
Proof.
  induction s as [|c s IH]; cbn [search].
  - destruct (match_at r []) eqn:E; [discriminate|].
    intros _ pre suf Heq. symmetry in Heq. apply app_eq_nil in Heq as [_ ->]. exact E.
  - destruct (match_at r (c :: s)) eqn:E; [discriminate|].
    intros H pre suf Heq. destruct pre as [|c' pre].
    + cbn in Heq. subst suf. exact E.
    + cbn in Heq. injection Heq as _ Heq. exact (IH H pre suf Heq).
Qed.

(** *** [parseTestMetrics] *)

Lemma firstn_consumed {A} (pre s1 whole : list A) :
  whole = pre ++ s1 -> firstn (length whole - length s1) whole = pre.
Proof. intros ->. apply firstn_app_length_sub. Qed.

Lemma JOINED_starts_with_digit (s m : jsstring) (caps : list jsstring) :
  match_at JOINED s = Some (m, caps) ->
  exists c m', m = c :: m' /\ is_digit c = true.
Proof.
  unfold match_at, JOINED.
  match goal with |- context [Seq (Group _) ?t] => set (tail := t) end.
  cbn [rx Plus].
  destruct s as [|c s]; [discriminate|].
  destruct (is_digit c) eqn:Hc; [|discriminate].
  intros H. apply star_suffix in H as (pre1 & s1 & -> & H).
  apply rx_suffix in H as (pre2 & s2 & caps2 & -> & H).
  rewrite (firstn_consumed (c :: pre1 ++ pre2) s2) in H
    by (cbn [app]; now rewrite <- app_assoc).
  injection H as <- _. exists c, (pre1 ++ pre2). split; [reflexivity | exact Hc].
Qed.

Lemma search_DIGITS (c : N) (s : jsstring) :
  is_digit c = true -> search DIGITS (c :: s) <> None.
Proof.
  intros Hc. cbn [search]. unfold match_at, DIGITS. cbn [rx Plus].
  rewrite Hc, star_greedy by discriminate. discriminate.
Qed.

Lemma last_In {A} (l : list A) (d : A) : l <> [] -> In (last l d) l.
Proof.
  induction l as [|a l IH]; [contradiction|]. intros _.
  destruct l as [|b l]; [left; reflexivity|].
  right. apply IH. discriminate.
Qed.

(** Metric extraction never raises an exception. *)
Lemma parseTestMetrics_total (output : jsstring) :
  exists pj,
    parseTestMetrics output =
    Ok {| participantsJoined := pj;
          testDuration :=
            match search TOTAL_TIME output with
            | Some m => capture1 m
            | None => None
            end;
          failureReasons := Some (firstn 3 (match_all FAILURE_REASON output)) |}.
Proof.
  unfold parseTestMetrics.
  destruct (match_all JOINED output) as [|m ms] eqn:E; [now exists None|].
  assert (Hin : In (last (m :: ms) []) (match_all JOINED output)).
  { rewrite E. apply last_In. discriminate. }
  apply match_all_from_In in Hin as (s' & caps & Hm).
  apply JOINED_starts_with_digit in Hm as (c & m' & -> & Hc).
  pose proof (search_DIGITS c m' Hc) as Hs.
  destruct (search DIGITS (c :: m')) as [[d caps']|]; [|contradiction].
  now exists (Some (parse_digits d)).
Qed.

Lemma token_at_shift (output pre tok : jsstring) :
  total_time_token_at output pre tok <->
  exists suf, output = pre ++ suf /\ total_time_token_at suf [] tok.
Proof.
  unfold total_time_token_at. split.
  - intros (ws & d1 & d2 & rest & -> & H).
    eexists. split; [reflexivity|]. exists ws, d1, d2, rest.
    split; [reflexivity | exact H].
  - intros (suf & -> & ws & d1 & d2 & rest & -> & H).
    exists ws, d1, d2, rest. split; [reflexivity | exact H].
Qed.

(** The regular expression matches exactly where the token occurs. *)
Lemma token_at_iff_match (output pre tok : jsstring) :
  total_time_token_at output pre tok <->
  exists suf m, output = pre ++ suf /\
                match_at TOTAL_TIME suf = Some (m, [tok]).
Proof.
  rewrite token_at_shift. split.
  - intros (suf & -> & H). apply total_time_closed_complete in H as [m H].
    exists suf, m. now rewrite match_at_TOTAL_TIME.
  - intros (suf & m & -> & H). exists suf. split; [reflexivity|].
    rewrite match_at_TOTAL_TIME in H.
    apply total_time_closed_sound in H as (tok' & E & H).
    now injection E as <-.
Qed.

Lemma app_same_length {A} (a b a' b' : list A) :
  a ++ b = a' ++ b' -> length a = length a' -> a = a' /\ b = b'.
Proof.
  revert a'. induction a as [|x a IH]; intros [|x' a'] H L;
    try discriminate; [now split|].
  cbn in H. injection H as -> H. injection L as L.
  destruct (IH a' H L) as [-> ->]. now split.
Qed.

Lemma search_TOTAL_TIME_Some (output tok : jsstring) :
  (exists m caps, search TOTAL_TIME output = Some (m, caps) /\
                  capture1 (m, caps) = Some tok) <->
  first_total_time_token output tok.
Proof.
  split.
  - intros (m & caps & Hs & Hc).
    apply search_Some in Hs as (pre & suf & -> & Hm & Hmin).
    pose proof Hm as Hm'. rewrite match_at_TOTAL_TIME in Hm'.
    apply total_time_closed_sound in Hm' as (tok' & -> & _).
    cbn in Hc. injection Hc as ->.
    exists pre. split.
    + apply token_at_iff_match. now exists suf, m.
    + intros pre' tok' H. apply token_at_iff_match in H as (suf' & m' & E & H).
      destruct (Nat.le_gt_cases (length pre) (length pre')) as [L|L]; [exact L|].
      rewrite (Hmin pre' suf' E L) in H. discriminate.
  - intros (pre & Htok & Hmin).
    apply token_at_iff_match in Htok as (suf & m & -> & Hm).
    destruct (search TOTAL_TIME (pre ++ suf)) as [[m0 caps0]|] eqn:Hs.
    + apply search_Some in Hs as (pre0 & suf0 & E & Hm0 & Hmin0).
      assert (L : length pre0 = length pre).
      { apply Nat.le_antisymm.
        - destruct (Nat.le_gt_cases (length pre0) (length pre)) as [L|L]; [exact L|].
          rewrite (Hmin0 pre suf eq_refl L) in Hm. discriminate.
        - pose proof Hm0 as Hm0'. rewrite match_at_TOTAL_TIME in Hm0'.
          apply total_time_closed_sound in Hm0' as (tok0 & -> & _).
          apply (Hmin pre0 tok0). apply token_at_iff_match. now exists suf0, m0. }
      symmetry in E. destruct (app_same_length _ _ _ _ E L) as [-> ->].
      rewrite Hm in Hm0. injection Hm0 as <- <-.
      now exists m, [tok].
    + rewrite (search_None _ _ Hs pre suf eq_refl) in Hm. discriminate.
Qed.

Lemma search_TOTAL_TIME_None (output : jsstring) :
  search TOTAL_TIME output = None <->
  forall pre tok, ~ total_time_token_at output pre tok.
Proof.
  split.
  - intros Hs pre tok H. apply token_at_iff_match in H as (suf & m & E & H).
    rewrite (search_None _ _ Hs pre suf E) in H. discriminate.
  - intros Hno. destruct (search TOTAL_TIME output) as [[m caps]|] eqn:Hs; [|reflexivity].
    apply search_Some in Hs as (pre & suf & -> & Hm & _).
    pose proof Hm as Hm'. rewrite match_at_TOTAL_TIME in Hm'.
    apply total_time_closed_sound in Hm' as (tok & -> & _).
    exfalso. apply (Hno pre tok). apply token_at_iff_match. now exists suf, m.
Qed.

(** C9, amended: metric extraction raises no error, and the duration
    metric is the token of the first (leftmost) occurrence of
    [Total time:], white space and digits around a colon; it is unset
    exactly when the output has no such occurrence. *)
Theorem C9_duration_is_first_total_time :
  forall output : jsstring,
  exists m,
    parseTestMetrics output = Ok m /\
    (forall tok, testDuration m = Some tok <-> first_total_time_token output tok) /\
    (testDuration m = None <->
     forall pre tok, ~ total_time_token_at output pre tok).
Proof.
  intros output. destruct (parseTestMetrics_total output) as [pj ->].
  eexists. split; [reflexivity|]. cbn [testDuration]. split.
  - intros tok. rewrite <- search_TOTAL_TIME_Some.
    destruct (search TOTAL_TIME output) as [[m caps]|]; split.
    + intros H. now exists m, caps.
    + intros (m' & caps' & E & H). now injection E as -> ->.
    + discriminate.
    + intros (m' & caps' & E & _). discriminate.
  - rewrite <- search_TOTAL_TIME_None.
    destruct (search TOTAL_TIME output) as [[m caps]|] eqn:Hs; [|tauto].
    split; [|discriminate].
    apply search_Some in Hs as (pre & suf & -> & Hm & _).
    rewrite match_at_TOTAL_TIME in Hm.
    apply total_time_closed_sound in Hm as (tok & -> & _). discriminate.
Qed.

Lemma two_totals_tail (n : nat) :
  (18 <= n)%nat -> match_at TOTAL_TIME (skipn n two_totals) = None.
Proof.
  intros Hn.
  do 18 (destruct n as [|n]; [lia|]).
  do 16 (destruct n as [|n]; [vm_compute; reflexivity|]).
  rewrite skipn_all2; [reflexivity|]. cbn. lia.
Qed.

(** C9 as claimed fails: on an output with two total times the duration
    metric is the first one, [1:02], while the last occurrence is
    [3:04]. *)
Lemma C9_duration_not_last :
  (exists m, parseTestMetrics two_totals = Ok m /\
             testDuration m = Some (lit "1:02")) /\
  last_total_time_token two_totals (lit "3:04") /\
  lit "1:02" <> lit "3:04".
Proof.
  split; [|split].
  - eexists. split; vm_compute; reflexivity.
  - exists (lit "Total time: 1:02" ++ [10%N]). split.
    + apply token_at_iff_match. eexists _, _. split; vm_compute; reflexivity.
    + intros pre' tok' H. apply token_at_iff_match in H as (suf & m & E & H).
      destruct (Nat.le_gt_cases (length pre') 17) as [L|L]; [exact L|].
      assert (Hsuf : suf = skipn (length pre') two_totals).
      { rewrite E. now rewrite skipn_app_exact. }
      rewrite Hsuf, two_totals_tail in H by lia. discriminate.
  - discriminate.
Qed.

(** ** The report *)

Lemma max_with_0_spec (xs : list Z) :
  0 <= max_with_0 xs /\
  (forall x, In x xs -> x <= max_with_0 xs) /\
  (max_with_0 xs = 0 \/ In (max_with_0 xs) xs).
Proof.
  unfold max_with_0. induction xs as [|x xs (H0 & Hle & Hin)]; cbn.
  - split; [lia|]. split; [intros x []|]. now left.
  - split; [lia|]. split.
    + intros y [<-|Hy]; [lia|]. specialize (Hle y Hy). lia.
    + destruct (Z.max_spec x (fold_right Z.max 0 xs)) as [[_ ->]|[_ ->]].
      * destruct Hin as [->|Hin]; [now left | right; now right].
      * right. now left.
Qed.

Lemma floor_80pct_bounds (m : Z) :
  5 * floor_80pct m <= 4 * m < 5 * floor_80pct m + 5.
Proof.
  unfold floor_80pct, Qfloor, Qmult, inject_Z. cbn [Qnum Qden].
  change (Z.pos (1 * 10)) with 10.
  pose proof (Z.div_mod (m * 8) 10 ltac:(lia)).
  pose proof (Z.mod_pos_bound (m * 8) 10 ltac:(lia)). lia.
Qed.

Lemma max_success_spec (results : list testResult) :
  (forall m, is_max_successful results m -> max_success results = Z.max m 0) /\
  ((forall r, In r results -> success r = false) -> max_success results = 0).
Proof.
  unfold max_success.
  destruct (max_with_0_spec (map participants (filter success results)))
    as (H0 & Hle & Hin).
  split.
  - intros m [(r & Hr & Hs & Hp) Hmax].
    assert (Hm : In m (map participants (filter success results))).
    { apply in_map_iff. exists r. split; [exact Hp|]. apply filter_In. now split. }
    specialize (Hle m Hm).
    destruct Hin as [E|Hin]; [lia|].
    apply in_map_iff in Hin as (r' & E & Hr'). apply filter_In in Hr' as [Hr' Hs'].
    specialize (Hmax r' Hr' Hs'). lia.
  - intros Hnone. destruct Hin as [E|Hin]; [exact E|].
    apply in_map_iff in Hin as (r' & _ & Hr'). apply filter_In in Hr' as [Hr' Hs'].
    rewrite (Hnone r' Hr') in Hs'. discriminate.
Qed.

Lemma toFixed1_positional_eq (toString_large : float -> jsstring) x s :
  toFixed1_positional x = Some s -> toFixed1 toString_large x = s.
Proof.
  unfold toFixed1_positional, toFixed1.
  destruct (Prim2SF x) as [[]|[]| |sign m e]; try congruence.
  destruct (at_least_1e21 (Z.pos m) e); congruence.
Qed.

Lemma str_eqb_eq (a b : jsstring) : str_eqb a b = true -> a = b.
Proof.
  revert b. induction a as [|x a IH]; intros [|y b]; cbn; try discriminate; auto.
  rewrite andb_true_iff, N.eqb_eq. intros [-> H]. now rewrite (IH b H).
Qed.

Lemma rate_candidate_sound toString_large s t n :
  rate_candidate s t n = true ->
  toFixed1 toString_large (rate s t) = with_one_decimal n /\
  nearest_tenth_of_percent s t n.
Proof.
  unfold rate_candidate, nearest_b, nearest_tenth_of_percent.
  destruct (toFixed1_positional (rate s t)) as [str|] eqn:E; [|discriminate].
  rewrite !andb_true_iff, !Z.leb_le. intros (Hs & ((H1 & H2) & H3) & H4).
  apply str_eqb_eq in Hs. subst str.
  split; [now apply toFixed1_positional_eq | lia].
Qed.

Lemma rates_checked :
  forallb (fun t => forallb (fun s => rate_checked s t) (seq 0 (S t)))
          (seq 1 100) = true.
Proof. vm_compute. reflexivity. Qed.

Lemma success_rate_nearest toString_large (results : list testResult) :
  results <> [] -> (length results <= 100)%nat ->
  exists n,
    success_rate toString_large results = with_one_decimal n /\
    nearest_tenth_of_percent (length (filter success results))
                             (length results) n.
Proof.
  intros Hne Hlen.
  set (t := length results). set (s := length (filter success results)).
  assert (Ht : (1 <= t)%nat) by (destruct results; [contradiction | cbn; lia]).
  assert (Hs : (s <= t)%nat) by apply filter_length_le.
  pose proof rates_checked as Hall. rewrite forallb_forall in Hall.
  specialize (Hall t). rewrite forallb_forall in Hall.
  assert (Hc : rate_checked s t = true).
  { apply Hall; apply in_seq; fold t in Hlen; lia. }
  unfold rate_checked in Hc. apply orb_true_iff in Hc as [Hc|Hc];
    apply (rate_candidate_sound toString_large) in Hc; eexists; exact Hc.
Qed.

(** ** The campaign *)

Lemma grows_refl st : grows st st [] [] [].
Proof. unfold grows. now rewrite !app_nil_r. Qed.

Lemma grows_trans st1 st2 st3 a1 n1 t1 a2 n2 t2 :
  grows st1 st2 a1 n1 t1 -> grows st2 st3 a2 n2 t2 ->
  grows st1 st3 (a1 ++ a2) (n1 ++ n2) (t1 ++ t2).
Proof.
  unfold grows. intros (A1 & B1 & C1 & D1) (A2 & B2 & C2 & D2).
  rewrite A2, A1, B2, B1, C2, C1, D2, D1, !app_assoc. auto.
Qed.

Lemma grows_log_call c st :
  grows st (log_call c st) [] [] [(c, length (nodes st))].
Proof. unfold grows. cbn. now rewrite !app_nil_r. Qed.

Lemma executor_raises_fun w t e e' :
  executor_raises w t e -> executor_raises w t e' -> e = e'.
Proof.
  unfold executor_raises. destruct (ssh w t) as [m|[o se]]; [congruence|].
  intros (_ & _ & ->) (_ & _ & ->). reflexivity.
Qed.

Lemma executor_returns_not_raises w t output e :
  executor_returns w t output -> executor_raises w t e -> False.
Proof.
  unfold executor_raises. intros (stderr & -> & Hw) (Hne & Hi & _).
  destruct Hw; congruence.
Qed.

Lemma fatal_calls_nil {A} w st (r : result A) : fatal_calls w st r [].
Proof. intros [|j] c n e E; discriminate. Qed.

(** The calls made after a part that did not fail. *)
Lemma fatal_calls_app {A B} w st1 st2 (a : A) (r : result B) t1 t2 :
  trace st2 = trace st1 ++ t1 ->
  fatal_calls w st1 (Ok a) t1 -> fatal_calls w st2 r t2 ->
  fatal_calls w st1 r (t1 ++ t2).
Proof.
  intros Ht H1 H2 j c n e E Hc Hf.
  destruct (Nat.lt_ge_cases j (length t1)) as [L|L].
  - rewrite nth_error_app1 in E by exact L.
    discriminate (H1 j c n e E Hc Hf).
  - rewrite nth_error_app2 in E by exact L.
    apply (H2 _ c n e E Hc). rewrite Ht, length_app.
    replace (length (trace st1) + length t1 + (j - length t1))%nat
      with (length (trace st1) + j)%nat by lia.
    exact Hf.
Qed.

Lemma fatal_calls_ok {A B} w st (a : A) (b : B) (r : result B) tr :
  fatal_calls w st (Ok a) tr -> fatal_calls w st r tr.
Proof. intros H j c n e E Hc Hf. discriminate (H j c n e E Hc Hf). Qed.

(** The calls made after a part, when none of them can fail short of
    being a test run. *)
Lemma fatal_calls_seq {A B} w st1 st2 (r1 : result A) (r : result B) t1 t2 :
  trace st2 = trace st1 ++ t1 ->
  fatal_calls w st1 r1 t1 -> (forall e, r1 = Throw e -> r = Throw e) ->
  fatal_calls w st2 r t2 ->
  fatal_calls w st1 r (t1 ++ t2).
Proof.
  intros Ht H1 Hr H2 j c n e E Hc Hf.
  destruct (Nat.lt_ge_cases j (length t1)) as [L|L].
  - rewrite nth_error_app1 in E by exact L.
    apply Hr. exact (H1 j c n e E Hc Hf).
  - rewrite nth_error_app2 in E by exact L.
    apply (H2 _ c n e E Hc). rewrite Ht, length_app.
    replace (length (trace st1) + length t1 + (j - length t1))%nat
      with (length (trace st1) + j)%nat by lia.
    exact Hf.
Qed.

Lemma fatal_calls_app_quiet {A} w st (r : result A) t1 t2 :
  fatal_calls w st r t1 ->
  (forall j c n t e, nth_error t2 j = Some (c, n) -> not_test c ->
                     ~ call_failed w t c e) ->
  fatal_calls w st r (t1 ++ t2).
Proof.
  intros H1 H2 j c n e E Hc Hf.
  destruct (Nat.lt_ge_cases j (length t1)) as [L|L].
  - rewrite nth_error_app1 in E by exact L. exact (H1 j c n e E Hc Hf).
  - rewrite nth_error_app2 in E by exact L. destruct (H2 _ _ _ _ _ E Hc Hf).
Qed.

(** A call that cannot fail, or the test run. *)
Lemma fatal_calls_one {A} w st (r : result A) c n :
  (forall t e, not_test c -> ~ call_failed w t c e) ->
  fatal_calls w st r [(c, n)].
Proof.
  intros Hc [|[|j]] c' n' e E Hn Hf; try discriminate.
  injection E as <- <-. now destruct (Hc _ _ Hn Hf).
Qed.

Section CampaignFacts.
Variable toString_large : float -> jsstring.
Variable cfg : config.
Variable w : world.

Lemma executeRemoteScript_cases ip s st :
  let t := length (trace st) in
  (exists output,
      executor_returns w t output /\
      executeRemoteScript w ip s st = (Ok output, log_call (RemoteScript ip s) st)) \/
  (exists e,
      executor_raises w t e /\
      executeRemoteScript w ip s st = (Throw e, log_call (RemoteScript ip s) st)).
Proof.
  unfold executeRemoteScript, executor_returns, executor_raises, bind, emit.
  cbv beta iota zeta.
  destruct (ssh w (length (trace st))) as [m|[stdout stderr]] eqn:E.
  - right. now exists m.
  - destruct stderr as [|c stderr].
    + left. exists stdout. split; [|reflexivity]. exists []. auto.
    + cbn [str_eqb negb andb].
      destruct (includes (c :: stderr) (lit "Warning")) eqn:I; cbn [negb].
      * left. exists stdout. split; [|reflexivity]. exists (c :: stderr). auto.
      * right. eexists. split; [|reflexivity]. split; [discriminate|]. auto.
Qed.

Lemma createDroplet_cases name size st :
  let t := length (trace st) in
  (exists d, doctl_create w t = inr d /\
             createDroplet w name size st = (Ok d, log_call (CreateDroplet name size) st)) \/
  (exists e, doctl_create w t = inl e /\
             createDroplet w name size st = (Throw e, log_call (CreateDroplet name size) st)).
Proof.
  unfold createDroplet, bind, emit. cbv beta iota zeta.
  destruct (doctl_create w (length (trace st))) as [e|d].
  - right. now exists e.
  - left. now exists d.
Qed.

Lemma thrown_by_scaling_shift st1 st2 a n t1 tr e :
  grows st1 st2 a n t1 -> thrown_by_scaling w st2 tr e ->
  thrown_by_scaling w st1 (t1 ++ tr) e.
Proof.
  intros (_ & _ & Ht & _) (tr' & c & k & -> & Hc & Hf).
  exists (t1 ++ tr'), c, k. split; [now rewrite app_assoc|]. split; [exact Hc|].
  rewrite Ht, length_app in Hf. now rewrite length_app, Nat.add_assoc.
Qed.

Lemma grows_push_node n st : grows st (push_node n st) [n] [] [].
Proof. unfold grows. cbn. now rewrite !app_nil_r. Qed.

(** Bringing one node up, as far as the node's setup script. *)
Lemma node_brought_up i d st :
  let st1 :=
    log_call (Sleep 45000)
      (push_node (new_node cfg i d)
         (log_call (CreateDroplet (node_name_of i) nodeSize) st)) in
  let c := RemoteScript (Some (node_ip (new_node cfg i d)))
                        (NodeSetup (node_name (new_node cfg i d))) in
  grows st (log_call c st1) [new_node cfg i d] []
        [(CreateDroplet (node_name_of i) nodeSize, length (nodes st));
         (Sleep 45000, S (length (nodes st)));
         (c, S (length (nodes st)))] /\
  length (trace st1) = (length (trace st) + 2)%nat.
Proof.
  unfold grows.
  cbn [log_call push_node nodes testResults trace hubIp].
  rewrite !length_app, <- !app_assoc, app_nil_r. cbn [length app].
  rewrite Nat.add_1_r. repeat split; reflexivity || lia.
Qed.

Lemma add_nodes_from_spec (count : nat) :
  forall (i : Z) (st : state) r st',
    add_nodes_from cfg w count i st = (r, st') ->
    exists added tr,
      grows st st' added [] tr /\
      Forall (fun ev => scaling_call (fst ev)) tr /\
      (r = Ok tt -> length added = count) /\
      (forall e, r = Throw e -> thrown_by_scaling w st tr e) /\
      fatal_calls w st r tr.
Proof.
  induction count as [|count IH]; intros i st r st'; cbn [add_nodes_from].
  - intros H. injection H as <- <-. exists [], []. split; [apply grows_refl|].
    split; [constructor|]. split; [reflexivity|].
    split; [discriminate | apply fatal_calls_nil].
  - unfold bind at 1.
    destruct (createDroplet_cases (node_name_of i) nodeSize st)
      as [(d & Hd & ->)|(e & He & ->)].
    + unfold bind at 1, modify at 1. unfold bind at 1, sleep at 1, bind at 1, emit at 1.
      unfold ret at 1. unfold bind at 1, setupNode at 1, bind at 1.
      destruct (node_brought_up i d st) as [G0 Hlen].
      assert (Hfirst : forall A (r0 : result A) j c n e,
                 nth_error
                   [(CreateDroplet (node_name_of i) nodeSize, length (nodes st));
                    (Sleep 45000, S (length (nodes st)));
                    (RemoteScript (Some (node_ip (new_node cfg i d)))
                                  (NodeSetup (node_name (new_node cfg i d))),
                     S (length (nodes st)))] j = Some (c, n) ->
                 call_failed w (length (trace st) + j) c e ->
                 j = 2%nat /\ executor_raises w (length (trace st) + 2) e).
      { intros A r0 [|[|[|j]]] c n e E Hf; cbn [nth_error] in E;
          [| | |destruct j; discriminate];
          injection E as <- <-; cbn [call_failed] in Hf.
        - rewrite Nat.add_0_r in Hf. congruence.
        - contradiction.
        - auto. }
      match goal with |- context [executeRemoteScript w ?ip ?s ?st0] =>
        destruct (executeRemoteScript_cases ip s st0) as [(out & Ho & ->)|(e & He & ->)]
      end.
      * unfold ret at 1. intros H.
        apply IH in H as (added & tr & G & Hsc & Hok & Hthrow & Hfatal).
        eexists _, _. split; [exact (grows_trans _ _ _ _ _ _ _ _ _ G0 G)|].
        split; [|split; [|split]].
        -- cbn [app]. repeat (constructor; [exact I|]). exact Hsc.
        -- intros E. cbn [app length]. now rewrite (Hok E).
        -- intros e E. apply (thrown_by_scaling_shift _ _ _ _ _ _ _ G0).
           now apply Hthrow.
        -- apply (fatal_calls_app w st _ tt r _ tr (proj1 (proj2 (proj2 G0))));
             [|exact Hfatal].
           intros j c n e E _ Hf.
           destruct (Hfirst unit (Ok tt) j c n e E Hf) as [_ Hr].
           rewrite Hlen in Ho.
           destruct (executor_returns_not_raises _ _ _ _ Ho Hr).
      * intros H. injection H as <- <-.
        eexists _, _. split; [exact G0|].
        split; [|split; [|split]].
        -- repeat (constructor; [exact I|]). constructor.
        -- discriminate.
        -- intros e' E. injection E as <-.
           eexists [_; _], _, _. split; [reflexivity|]. split; [exact I|].
           cbn [call_failed length]. now rewrite <- Hlen.
        -- intros j c n e' E _ Hf.
           destruct (Hfirst unit (Ok tt) j c n e' E Hf) as [_ Hr].
           rewrite Hlen in He.
           now rewrite (executor_raises_fun _ _ _ _ He Hr).
    + intros H. injection H as <- <-.
      eexists [], [_]. split; [apply grows_log_call|].
      split; [repeat constructor|]. split; [discriminate|]. split.
      * intros e' E. injection E as <-.
        eexists [], _, _. split; [reflexivity|]. split; [exact I|].
        cbn [call_failed length]. now rewrite Nat.add_0_r.
      * intros [|[|j]] c n e' E _ Hf; try discriminate.
        injection E as <- <-. cbn [call_failed] in Hf.
        rewrite Nat.add_0_r in Hf. congruence.
Qed.

Lemma test_loop_unfold fuel p cur :
  test_loop cfg w (S fuel) p cur =
  if p <=? maxParticipants cfg then
    (cur' <- scale cfg w p cur ;;
     result <- runSingleTest w p ;;
     modify (push_result result) ;;;
     if negb (success result) then ret Broke
     else sleep 30000 ;;;
          test_loop cfg w fuel (p + incrementStep cfg) cur')
  else ret Finished.
Proof. reflexivity. Qed.

(** Scaling registers exactly the missing nodes, or ends by an exception
    raised by one of its calls. *)
Lemma scale_spec p cur st r st' :
  scale cfg w p cur st = (r, st') ->
  cur = Z.of_nat (length (nodes st)) ->
  exists added tr,
    grows st st' added [] tr /\
    Forall (fun ev => scaling_call (fst ev)) tr /\
    (forall e, r = Throw e -> thrown_by_scaling w st tr e) /\
    (forall cur', r = Ok cur' ->
                  cur' = Z.max cur (ceil_div p (participantsPerNode cfg)) /\
                  Z.of_nat (length added) =
                  Z.max 0 (ceil_div p (participantsPerNode cfg) - cur) /\
                  cur' = Z.of_nat (length (nodes st'))) /\
    fatal_calls w st r tr.
Proof.
  unfold scale. cbv zeta.
  set (required := ceil_div p (participantsPerNode cfg)).
  intros H Hcur.
  destruct (required >? cur) eqn:Hgt.
  - unfold bind, addNodes, bind, get in H. cbv beta iota in H.
    destruct (add_nodes_from cfg w (Z.to_nat (required - cur))
                (Z.of_nat (length (nodes st)) + 1) st) as [r0 st0] eqn:E.
    apply add_nodes_from_spec in E as (added & tr & G & Hsc & Hok & Hthrow & Hfatal).
    exists added, tr. split; [|split; [|split; [|split]]].
    + destruct r0; injection H as <- <-; exact G.
    + exact Hsc.
    + intros e ->. destruct r0; [discriminate|]. injection H as <- <-.
      now apply Hthrow.
    + intros cur' ->. destruct r0 as [[]|]; [|discriminate].
      unfold ret in H. injection H as <- <-.
      specialize (Hok eq_refl). destruct G as (Hn & _).
      rewrite Hn, length_app, Hok. lia.
    + intros j c n e E Hc Hf. specialize (Hfatal j c n e E Hc Hf). subst r0.
      now injection H as <- <-.
  - unfold ret in H. injection H as <- <-. exists [], [].
    split; [apply grows_refl|]. split; [constructor|]. split; [discriminate|].
    split; [|apply fatal_calls_nil].
    intros cur' E. injection E as <-. cbn [length]. lia.
Qed.

(** A test step never raises: an executor error is caught and written
    into the result. *)
Lemma runSingleTest_spec p st :
  exists x st',
    runSingleTest w p st = (Ok x, st') /\
    grows st st' [] [] (test_calls (hubIp st) p (length (nodes st))) /\
    participants x = p /\
    (forall e, executor_raises w (length (trace st) + 2) e ->
               success x = false /\ errors x = [e]) /\
    (forall output, executor_returns w (length (trace st) + 2) output ->
                    success x = classify output).
Proof.
  unfold runSingleTest, bind at 1, now at 1, bind at 1, emit at 1, ret at 1.
  cbv beta iota.
  unfold bind at 1, now at 1, bind at 1, emit at 1, ret at 1.
  cbv beta iota.
  set (st2 := log_call Now (log_call Now st)).
  assert (G2 : grows st st2 [] [] [(Now, length (nodes st)); (Now, length (nodes st))]).
  { exact (grows_trans _ _ _ _ _ _ _ _ _
             (grows_log_call Now st) (grows_log_call Now _)). }
  assert (L2 : length (trace st2) = (length (trace st) + 2)%nat).
  { destruct G2 as (_ & _ & -> & _). rewrite length_app. reflexivity. }
  unfold bind at 1, try_test at 1. cbv beta iota. cbn [participants].
  destruct (executeRemoteScript_cases (hubIp st2) (TestRun p) st2)
    as [(out & Ho & ->)|(e & He & ->)].
  - destruct (parseTestMetrics_total out) as [pj ->].
    unfold bind at 1, now at 1, bind at 1, emit at 1, ret. cbv beta iota.
    eexists _, _. split; [reflexivity|]. split; [|split; [|split]].
    + exact (grows_trans _ _ _ _ _ _ _ _ _ G2
               (grows_trans _ _ _ _ _ _ _ _ _
                  (grows_log_call _ st2) (grows_log_call Now _))).
    + destruct (classify out); reflexivity.
    + intros e He. rewrite L2 in Ho. destruct Ho as (stderr & Hs & Hw).
      unfold executor_raises in He. rewrite Hs in He.
      destruct He as (Hne & Hi & _). destruct Hw; congruence.
    + intros output Hout. rewrite L2 in Ho.
      destruct Ho as (stderr & Hs & _). destruct Hout as (stderr' & Hs' & _).
      rewrite Hs in Hs'. injection Hs' as -> _.
      destruct (classify output); reflexivity.
  - unfold bind at 1, now at 1, bind at 1, emit at 1, ret. cbv beta iota.
    eexists _, _. split; [reflexivity|]. split; [|split; [|split]].
    + exact (grows_trans _ _ _ _ _ _ _ _ _ G2
               (grows_trans _ _ _ _ _ _ _ _ _
                  (grows_log_call _ st2) (grows_log_call Now _))).
    + reflexivity.
    + intros e' He'. rewrite L2 in He. split; [reflexivity|].
      cbn [set_duration set_success set_errors errors app]. f_equal.
      unfold executor_raises in He, He'.
      destruct (ssh w (length (trace st) + 2)) as [m|[o se]]; [congruence|].
      destruct He as (_ & _ & ->). destruct He' as (_ & _ & ->). reflexivity.
    + intros output Hout. rewrite L2 in He.
      destruct Hout as (stderr & Hs & Hw). unfold executor_raises in He.
      rewrite Hs in He. destruct He as (Hne & Hi & _). destruct Hw; congruence.
Qed.

Lemma grows_push_result x st : grows st (push_result x st) [] [x] [].
Proof. unfold grows. cbn. now rewrite !app_nil_r. Qed.

(** One iteration of the test loop: either scaling raised, or the test
    ran with enough nodes registered and its result was appended; then
    the loop is left on a failure and goes on otherwise. *)
Lemma iteration fuel p cur st r st' :
  test_loop cfg w (S fuel) p cur st = (r, st') ->
  p <= maxParticipants cfg ->
  cur = Z.of_nat (length (nodes st)) ->
  (exists e added trA,
      r = Throw e /\ grows st st' added [] trA /\
      Forall (fun ev => scaling_call (fst ev)) trA /\
      thrown_by_scaling w st trA e /\ fatal_calls w st r trA) \/
  (exists added trA x st1,
      let cur' := Z.max cur (ceil_div p (participantsPerNode cfg)) in
      fatal_calls w st (Ok tt) trA /\
      cur' = Z.of_nat (length (nodes st1)) /\
      Z.of_nat (length added) =
      Z.max 0 (ceil_div p (participantsPerNode cfg) - cur) /\
      grows st st1 added [x]
            (trA ++ test_calls (hubIp st) p (Z.to_nat cur')) /\
      Forall (fun ev => scaling_call (fst ev)) trA /\
      participants x = p /\
      (forall e, executor_raises w (length (trace st) + length trA + 2) e ->
                 success x = false /\ errors x = [e]) /\
      (forall output,
          executor_returns w (length (trace st) + length trA + 2) output ->
          success x = classify output) /\
      ((success x = false /\ r = Ok Broke /\ st' = st1) \/
       (success x = true /\
        test_loop cfg w fuel (p + incrementStep cfg) cur'
                  (log_call (Sleep 30000) st1) = (r, st')))).
Proof.
  rewrite test_loop_unfold. intros H Hp Hcur.
  apply Z.leb_le in Hp. rewrite Hp in H. unfold bind at 1 in H.
  destruct (scale cfg w p cur st) as [rA stA] eqn:EA.
  apply scale_spec in EA as (added & trA & GA & HscA & HthrowA & HokA & HfatA);
    [|exact Hcur].
  destruct rA as [cur'|e].
  - right. destruct (HokA cur' eq_refl) as (Hcur' & Hadded & HcurA).
    unfold bind at 1 in H.
    destruct (runSingleTest_spec p stA) as (x & stB & EB & GB & Hx & Hraise & Hret).
    rewrite EB in H. unfold bind at 1, modify at 1 in H.
    exists added, trA, x, (push_result x stB). cbv zeta.
    pose proof GA as (HnA & _ & HtA & HhA).
    assert (HnB : nodes (push_result x stB) = nodes stA)
      by (cbn [push_result nodes]; destruct GB as (-> & _); apply app_nil_r).
    split; [exact (fatal_calls_ok w st cur' tt (Ok tt) trA HfatA)|].
    split; [now rewrite HnB, <- HcurA|].
    split; [exact Hadded|].
    split.
    { replace (Z.to_nat (Z.max cur (ceil_div p (participantsPerNode cfg))))
        with (length (nodes stA)) by lia.
      rewrite <- HhA.
      pose proof (grows_trans _ _ _ _ _ _ _ _ _ GA
                    (grows_trans _ _ _ _ _ _ _ _ _ GB (grows_push_result x stB))) as G.
      cbn [app] in G. rewrite !app_nil_r in G. exact G. }
    split; [exact HscA|]. split; [exact Hx|].
    assert (Ht : (length (trace stA) + 2 = length (trace st) + length trA + 2)%nat)
      by (rewrite HtA, length_app; reflexivity).
    rewrite Ht in Hraise, Hret.
    split; [exact Hraise|]. split; [exact Hret|].
    destruct (success x) eqn:Hs; cbn [negb] in H.
    + right. split; [reflexivity|].
      unfold bind at 1, sleep at 1, bind at 1, emit at 1, ret at 1 in H.
      rewrite <- Hcur'. exact H.
    + left. unfold ret in H. injection H as <- <-. auto.
  - left. injection H as <- <-. exists e, added, trA.
    split; [reflexivity|]. split; [exact GA|]. split; [exact HscA|].
    split; [now apply HthrowA|].
    intros j c n e' E Hc Hf. now injection (HfatA j c n e' E Hc Hf) as <-.
Qed.

Lemma scaling_enough (tr : list (call * nat)) :
  Forall (fun ev => scaling_call (fst ev)) tr -> Forall (enough_nodes cfg) tr.
Proof.
  apply Forall_impl. intros [c n]. unfold enough_nodes. cbn.
  destruct c as [| |ip []| | |]; cbn; intros H; try exact I. contradiction.
Qed.

Lemma scaling_not_test (tr : list (call * nat)) j ip L n :
  Forall (fun ev => scaling_call (fst ev)) tr ->
  nth_error tr j <> Some (RemoteScript ip (TestRun L), n).
Proof.
  intros HF H. apply nth_error_In in H.
  rewrite Forall_forall in HF. exact (HF _ H).
Qed.

Lemma test_events_app tr1 tr2 :
  test_events (tr1 ++ tr2) = test_events tr1 ++ test_events tr2.
Proof. apply flat_map_app. Qed.

Lemma scaling_no_test (tr : list (call * nat)) :
  Forall (fun ev => scaling_call (fst ev)) tr -> test_events tr = [].
Proof.
  induction 1 as [|[c n] tr Hc _ IH]; [reflexivity|].
  cbn [test_events flat_map]. fold (test_events tr). rewrite IH.
  destruct c as [| |ip []| | |]; try reflexivity. contradiction.
Qed.

Lemma test_calls_cannot_fail ip p k j c n t e :
  nth_error (test_calls ip p k) j = Some (c, n) -> not_test c ->
  ~ call_failed w t c e.
Proof.
  unfold test_calls.
  destruct j as [|[|[|[|j]]]]; cbn [nth_error]; intros E Hc;
    [| | | |destruct j; discriminate]; injection E as <- <-;
    cbn in *; auto.
Qed.

Lemma sleep_cannot_fail ms (k : nat) j c n t e :
  nth_error [(Sleep ms, k)] j = Some (c, n) -> not_test c ->
  ~ call_failed w t c e.
Proof.
  destruct j as [|j]; cbn [nth_error]; intros E Hc;
    [|destruct j; discriminate]; injection E as <- <-; cbn; auto.
Qed.

Lemma nth_error_test_calls ip p k j ip' L n :
  nth_error (test_calls ip p k) j = Some (RemoteScript ip' (TestRun L), n) ->
  j = 2%nat /\ L = p.
Proof.
  unfold test_calls.
  destruct j as [|[|[|[|j]]]]; cbn; intros H; try discriminate.
  - injection H as _ <- _. auto.
  - destruct j; discriminate.
Qed.

Lemma test_loop_spec (fuel : nat) :
  forall p cur st r st',
    test_loop cfg w fuel p cur st = (r, st') ->
    cur = Z.of_nat (length (nodes st)) ->
    exists added new tr, loop_facts cfg w p cur st r st' added new tr.
Proof.
  induction fuel as [|fuel IH]; intros p cur st r st' H Hcur.
  - cbn [test_loop] in H.
    assert (Hr : r <> Ok Broke /\ (forall e, r <> Throw e) /\ st' = st).
    { destruct (p <=? maxParticipants cfg); unfold ret in H;
        injection H as <- <-; repeat split; discriminate. }
    destruct Hr as (Hb & Ht & ->).
    exists [], [], []. split.
    + apply grows_refl.
    + reflexivity.
    + constructor.
    + exact I.
    + constructor.
    + reflexivity.
    + intros e E. now destruct (Ht e).
    + apply fatal_calls_nil.
    + intros E. contradiction.
    + intros _. constructor.
    + intros x [].
    + intros j ? ? ? ? E. destruct j; discriminate.
    + intros j ? ? ? ? E. destruct j; discriminate.
  - destruct (Z.leb_spec p (maxParticipants cfg)) as [Hp|Hp].
    2:{ rewrite test_loop_unfold in H. apply Z.leb_gt in Hp. rewrite Hp in H.
        unfold ret in H. injection H as <- <-.
        exists [], [], []. split.
        + apply grows_refl.
        + reflexivity.
        + constructor.
        + exact I.
        + constructor.
        + reflexivity.
        + discriminate.
        + apply fatal_calls_nil.
        + discriminate.
        + intros _. constructor.
        + intros x [].
        + intros j ? ? ? ? E. destruct j; discriminate.
        + intros j ? ? ? ? E. destruct j; discriminate. }
    destruct (iteration _ _ _ _ _ _ H Hp Hcur)
      as [(e & added & trA & -> & GA & HscA & Hthr & HfatA)
         |(added & trA & x & st1 & HfatA & Hcur1 & _ & G1 & HscA & Hx & Hraise & Hret & Hnext)].
    + exists added, [], trA. split.
      * exact GA.
      * reflexivity.
      * constructor.
      * exact I.
      * now apply scaling_enough.
      * now apply scaling_no_test.
      * intros e' E. now injection E as <-.
      * exact HfatA.
      * discriminate.
      * discriminate.
      * intros x [].
      * intros j ip L n e' E. now apply scaling_not_test in E.
      * intros j ip L n e' E. now apply scaling_not_test in E.
    + cbv zeta in *.
      set (cur' := Z.max cur (ceil_div p (participantsPerNode cfg))) in *.
      set (calls := test_calls (hubIp st) p (Z.to_nat cur')) in *.
      assert (Hcalls : Forall (enough_nodes cfg) calls).
      { unfold calls, test_calls. repeat constructor.
        unfold enough_nodes. cbn [fst snd]. lia. }
      assert (Hhere :
                forall j ip L n,
                  nth_error (trA ++ calls) j = Some (RemoteScript ip (TestRun L), n) ->
                  j = (length trA + 2)%nat /\ L = p).
      { intros j ip L n E.
        destruct (Nat.lt_ge_cases j (length trA)) as [Hj|Hj].
        - rewrite nth_error_app1 in E by exact Hj. now apply scaling_not_test in E.
        - rewrite nth_error_app2 in E by exact Hj.
          apply nth_error_test_calls in E as [E ->]. split; [lia | reflexivity]. }
      destruct Hnext as [(Hs & -> & ->)|(Hs & Hrec)].
      * exists added, [x], (trA ++ calls). split.
        -- exact G1.
        -- cbn. now rewrite Hx.
        -- repeat constructor. lia.
        -- cbn. auto.
        -- apply Forall_app. split; [now apply scaling_enough | exact Hcalls].
        -- rewrite test_events_app, (scaling_no_test _ HscA). cbn. now rewrite Hx.
        -- discriminate.
        -- apply fatal_calls_app_quiet;
             [exact (fatal_calls_ok w st tt Broke (Ok Broke) trA HfatA)|].
           intros j c n t e. apply test_calls_cannot_fail.
        -- intros _. exists [], x. auto.
        -- discriminate.
        -- reflexivity.
        -- intros j ip L n e E He. apply Hhere in E as [-> ->].
           rewrite Nat.add_assoc in He. destruct (Hraise e He) as [_ Herr].
           split; [reflexivity|].
           split; [rewrite length_app; cbn [calls test_calls length]; lia|].
           exists [], x. auto.
        -- intros j ip L n output E Ho. apply Hhere in E as [-> ->].
           rewrite Nat.add_assoc in Ho. exists x. split; [now left|]. auto.
      * set (st2 := log_call (Sleep 30000) st1) in *.
        assert (G2 : grows st st2 added [x] ((trA ++ calls) ++ [(Sleep 30000, length (nodes st1))])).
        { pose proof (grows_trans _ _ _ _ _ _ _ _ _ G1 (grows_log_call (Sleep 30000) st1)) as G.
          now rewrite !app_nil_r in G. }
        apply IH in Hrec as (added' & new' & tr' & F); [|exact Hcur1].
        destruct F as [G' Hloads Hbound Hstops Henough Hsizes Hthrow Hfatal Hbroke Hfin Hfailed Hrai Hrtn].
        pose proof G2 as (_ & _ & Ht2 & _).
        exists (added ++ added'), ([x] ++ new'),
          (((trA ++ calls) ++ [(Sleep 30000, length (nodes st1))]) ++ tr').
        split.
        -- exact (grows_trans _ _ _ _ _ _ _ _ _ G2 G').
        -- cbn. now rewrite Hx, Hloads.
        -- cbn. constructor; [lia | exact Hbound].
        -- cbn. split; [congruence | exact Hstops].
        -- apply Forall_app. split; [|exact Henough].
           apply Forall_app. split; [|repeat constructor].
           apply Forall_app. split; [now apply scaling_enough | exact Hcalls].
        -- rewrite !test_events_app, (scaling_no_test _ HscA), Hsizes.
           cbn. now rewrite Hx.
        -- intros e E. apply (thrown_by_scaling_shift _ _ _ _ _ _ _ G2). now apply Hthrow.
        -- apply (fatal_calls_app w st st2 tt r _ tr' Ht2); [|exact Hfatal].
           apply fatal_calls_app_quiet;
             [|intros j c n t e; apply sleep_cannot_fail].
           apply fatal_calls_app_quiet; [exact HfatA|].
           intros j c n t e. apply test_calls_cannot_fail.
        -- intros E. destruct (Hbroke E) as (l & y & -> & Hy).
           exists (x :: l), y. auto.
        -- intros E. cbn. constructor; [exact Hs | now apply Hfin].
        -- intros y [<-|Hin] Hy; [congruence | now apply (Hfailed y)].
        -- intros j ip L n e E He.
           destruct (Nat.lt_ge_cases j (length ((trA ++ calls) ++ [(Sleep 30000, length (nodes st1))]))) as [Hj|Hj].
           ++ rewrite nth_error_app1 in E by exact Hj.
              destruct (Nat.lt_ge_cases j (length (trA ++ calls))) as [Hj'|Hj'].
              ** rewrite nth_error_app1 in E by exact Hj'.
                 apply Hhere in E as [-> ->]. rewrite Nat.add_assoc in He.
                 destruct (Hraise e He) as [Hf _]. congruence.
              ** rewrite nth_error_app2 in E by exact Hj'.
                 destruct (j - length (trA ++ calls))%nat as [|[|?]]; discriminate.
           ++ rewrite nth_error_app2 in E by exact Hj.
              assert (Hidx : (length (trace st2) + (j - length ((trA ++ calls) ++ [(Sleep 30000, length (nodes st1))])) = length (trace st) + j)%nat).
              { rewrite Ht2, length_app. lia. }
              rewrite <- Hidx in He.
              destruct (Hrai _ _ _ _ _ E He) as (-> & Hlen & l & y & -> & Hy).
              split; [reflexivity|].
              split; [rewrite length_app, Hlen; lia|]. exists (x :: l), y. auto.
        -- intros j ip L n output E Ho.
           destruct (Nat.lt_ge_cases j (length ((trA ++ calls) ++ [(Sleep 30000, length (nodes st1))]))) as [Hj|Hj].
           ++ rewrite nth_error_app1 in E by exact Hj.
              destruct (Nat.lt_ge_cases j (length (trA ++ calls))) as [Hj'|Hj'].
              ** rewrite nth_error_app1 in E by exact Hj'.
                 apply Hhere in E as [-> ->]. rewrite Nat.add_assoc in Ho.
                 exists x. split; [now left|]. auto.
              ** rewrite nth_error_app2 in E by exact Hj'.
                 destruct (j - length (trA ++ calls))%nat as [|[|?]]; discriminate.
           ++ rewrite nth_error_app2 in E by exact Hj.
              assert (Hidx : (length (trace st2) + (j - length ((trA ++ calls) ++ [(Sleep 30000, length (nodes st1))])) = length (trace st) + j)%nat).
              { rewrite Ht2, length_app. lia. }
              rewrite <- Hidx in Ho.
              destruct (Hrtn _ _ _ _ _ E Ho) as (y & Hin & Hy).
              exists y. split; [now right | exact Hy].
Qed.

(** *** The phases around the test loop *)

Lemma bind_inv {A B} (c : M A) (f : A -> M B) st r st' :
  bind c f st = (r, st') ->
  (exists e, c st = (Throw e, st') /\ r = Throw e) \/
  (exists a st1, c st = (Ok a, st1) /\ f a st1 = (r, st')).
Proof.
  unfold bind. destruct (c st) as [[a|e] st1].
  - intros H. right. now exists a, st1.
  - intros H. injection H as <- <-. left. now exists e.
Qed.

Lemma quiet_ret {A} (a : A) : quiet w (ret a).
Proof.
  intros st r st' H. injection H as <- <-. exists [].
  split; [reflexivity|]. split; [now rewrite app_nil_r|].
  split; [constructor|]. split; [discriminate | apply fatal_calls_nil].
Qed.

Lemma quiet_bind {A B} (c : M A) (f : A -> M B) :
  quiet w c -> (forall a, quiet w (f a)) -> quiet w (bind c f).
Proof.
  intros Hc Hf st r st' H.
  apply bind_inv in H as [(e & H & ->)|(a & st1 & H & H')].
  - apply Hc in H as (tr & Hr & Ht & Hn & Hthrow & Hfatal). exists tr.
    split; [exact Hr|]. split; [exact Ht|]. split; [exact Hn|]. split.
    + intros e' E. injection E as <-. now apply Hthrow.
    + intros j c0 n e' E Hc0 Hf0.
      now injection (Hfatal j c0 n e' E Hc0 Hf0) as <-.
  - apply Hc in H as (tr & Hr & Ht & Hn & _ & Hfatal).
    apply Hf in H' as (tr' & Hr' & Ht' & Hn' & Hthrow & Hfatal').
    exists (tr ++ tr').
    split; [congruence|]. split; [now rewrite Ht', Ht, app_assoc|].
    split; [apply Forall_app; now split|]. split.
    + intros e E. destruct (Hthrow e E) as (tr0 & c0 & n & -> & Hc0 & Hfail).
      exists (tr ++ tr0), c0, n. split; [now rewrite app_assoc|].
      split; [exact Hc0|].
      rewrite Ht, length_app in Hfail. now rewrite length_app, Nat.add_assoc.
    + exact (fatal_calls_app w st st1 a r tr tr' Ht Hfatal Hfatal').
Qed.

Lemma quiet_emit c :
  not_test c -> (forall t e, ~ call_failed w t c e) -> quiet w (emit c).
Proof.
  intros Hc Hnf st r st' H. injection H as <- <-.
  exists [(c, length (nodes st))].
  split; [reflexivity|]. split; [reflexivity|].
  split; [now repeat constructor|]. split; [discriminate|].
  apply fatal_calls_one. intros t e _. apply Hnf.
Qed.

Lemma quiet_modify (f : state -> state) :
  (forall st, testResults (f st) = testResults st /\ trace (f st) = trace st) ->
  quiet w (modify f).
Proof.
  intros Hf st r st' H. injection H as <- <-. destruct (Hf st) as [Hr Ht].
  exists []. split; [exact Hr|]. split; [now rewrite app_nil_r|].
  split; [constructor|]. split; [discriminate | apply fatal_calls_nil].
Qed.

Lemma quiet_get : quiet w get.
Proof.
  intros st r st' H. injection H as <- <-. exists [].
  split; [reflexivity|]. split; [now rewrite app_nil_r|].
  split; [constructor|]. split; [discriminate | apply fatal_calls_nil].
Qed.

Lemma quiet_sleep ms : quiet w (sleep ms).
Proof.
  apply quiet_bind; [|intros; apply quiet_ret].
  apply quiet_emit; [exact I | intros t e []].
Qed.

Lemma quiet_now : quiet w (now w).
Proof.
  apply quiet_bind; [|intros; apply quiet_ret].
  apply quiet_emit; [exact I | intros t e []].
Qed.

(** One call, which failed with [e0] or did not fail. *)
Lemma quiet_run_one {A} st (r : result A) c :
  not_test c ->
  (forall e, r = Throw e -> call_failed w (length (trace st)) c e) ->
  (forall e, call_failed w (length (trace st)) c e -> r = Throw e) ->
  quiet_run w st r (log_call c st) [(c, length (nodes st))].
Proof.
  intros Hc Hthrow Hfail.
  split; [reflexivity|]. split; [reflexivity|].
  split; [now repeat constructor|]. split.
  - intros e E. exists [], c, (length (nodes st)).
    split; [reflexivity|]. split; [exact Hc|].
    cbn [length]. rewrite Nat.add_0_r. now apply Hthrow.
  - intros [|[|j]] c' n e E _ Hf; try discriminate.
    injection E as <- <-. rewrite Nat.add_0_r in Hf. now apply Hfail.
Qed.

Lemma quiet_createDroplet name size : quiet w (createDroplet w name size).
Proof.
  intros st r st' H.
  exists [(CreateDroplet name size, length (nodes st))].
  destruct (createDroplet_cases name size st) as [(d & Hd & E)|(e & He & E)];
    rewrite E in H; injection H as <- <-;
    (apply quiet_run_one; [exact I| |]); cbn [call_failed]; intros e'.
  - discriminate.
  - congruence.
  - intros E'. now injection E' as <-.
  - congruence.
Qed.

Lemma quiet_executeRemoteScript ip s :
  not_test (RemoteScript ip s) -> quiet w (executeRemoteScript w ip s).
Proof.
  intros Hs st r st' H.
  exists [(RemoteScript ip s, length (nodes st))].
  destruct (executeRemoteScript_cases ip s st) as [(d & Hd & E)|(e & He & E)];
    rewrite E in H; injection H as <- <-;
    (apply quiet_run_one; [exact Hs| |]); cbn [call_failed]; intros e'.
  - discriminate.
  - intros Hr. destruct (executor_returns_not_raises _ _ _ _ Hd Hr).
  - intros E'. now injection E' as <-.
  - intros Hr. now rewrite (executor_raises_fun _ _ _ _ He Hr).
Qed.

Lemma quiet_calculateInfrastructure : quiet w (calculateInfrastructure cfg).
Proof. apply quiet_modify. intros st. split; reflexivity. Qed.

Lemma quiet_create_initial_nodes count :
  forall i, quiet w (create_initial_nodes cfg w count i).
Proof.
  induction count as [|count IH]; intros i; cbn [create_initial_nodes].
  - apply quiet_ret.
  - apply quiet_bind; [apply quiet_createDroplet|]. intros d.
    apply quiet_bind; [|intros; apply IH].
    apply quiet_modify. intros st. split; reflexivity.
Qed.

Lemma quiet_provisionInfrastructure : quiet w (provisionInfrastructure cfg w).
Proof.
  unfold provisionInfrastructure.
  apply quiet_bind; [apply quiet_createDroplet|]. intros d.
  apply quiet_bind; [apply quiet_modify; intros st; split; reflexivity|]. intros _.
  apply quiet_bind; [apply quiet_get|]. intros st.
  apply quiet_bind; [apply quiet_create_initial_nodes|]. intros _.
  apply quiet_sleep.
Qed.

Lemma quiet_setupNode n : quiet w (setupNode w n).
Proof.
  apply quiet_bind; [now apply quiet_executeRemoteScript | intros; apply quiet_ret].
Qed.

Lemma quiet_setup_nodes ns : quiet w (setup_nodes w ns).
Proof.
  induction ns as [|n ns IH]; cbn [setup_nodes]; [apply quiet_ret|].
  apply quiet_bind; [apply quiet_setupNode | intros; exact IH].
Qed.

Lemma quiet_setupInfrastructure : quiet w (setupInfrastructure w).
Proof.
  unfold setupInfrastructure, setupHub, setupTorture.
  apply quiet_bind.
  { apply quiet_bind; [apply quiet_get|]. intros st.
    apply quiet_bind; [now apply quiet_executeRemoteScript | intros; apply quiet_ret]. }
  intros _. apply quiet_bind; [apply quiet_get|]. intros st.
  apply quiet_bind; [apply quiet_setup_nodes|]. intros _.
  apply quiet_bind; [apply quiet_get|]. intros st'.
  apply quiet_bind; [now apply quiet_executeRemoteScript | intros; apply quiet_ret].
Qed.

Lemma quiet_delete_droplets names : quiet w (delete_droplets names).
Proof.
  induction names as [|n names IH]; cbn [delete_droplets]; [apply quiet_ret|].
  apply quiet_bind; [|intros; exact IH].
  apply quiet_emit; [exact I | intros t e []].
Qed.

Lemma quiet_cleanup : quiet w cleanup.
Proof.
  apply quiet_bind; [apply quiet_get | intros; apply quiet_delete_droplets].
Qed.

Lemma delete_droplets_ok names st :
  exists st', delete_droplets names st = (Ok tt, st').
Proof.
  revert st. induction names as [|n names IH]; intros st; cbn [delete_droplets].
  - now exists st.
  - unfold bind, emit. apply IH.
Qed.

Lemma cleanup_ok st : exists st', cleanup st = (Ok tt, st').
Proof. unfold cleanup, bind, get. apply delete_droplets_ok. Qed.

Lemma quiet_maybe_cleanup : quiet w (maybe_cleanup cfg).
Proof.
  unfold maybe_cleanup. destruct (autoCleanup cfg);
    [apply quiet_cleanup | apply quiet_ret].
Qed.

Lemma maybe_cleanup_ok st : exists st', maybe_cleanup cfg st = (Ok tt, st').
Proof.
  unfold maybe_cleanup. destruct (autoCleanup cfg);
    [apply cleanup_ok | now exists st].
Qed.

(** Writing the report: the clock is read, the report is built from the
    state and handed to the file system. *)
Lemma generateFinalReport_spec st :
  let st1 := log_call (WriteReport (build_report toString_large cfg st))
                      (log_call Now st) in
  match write_file w (length (trace st) + 1) with
  | Some e =>
      generateFinalReport toString_large cfg w st = (Throw e, st1)
  | None =>
      generateFinalReport toString_large cfg w st =
      (Ok (build_report toString_large cfg st), st1)
  end.
Proof.
  unfold generateFinalReport, bind, get, now, bind, emit, ret.
  cbv beta iota zeta. cbn [log_call trace]. rewrite length_app, Nat.add_1_r.
  cbn [length]. rewrite Nat.add_1_r.
  destruct (write_file w (S (length (trace st)))); reflexivity.
Qed.

Lemma quiet_generateFinalReport :
  quiet w (generateFinalReport toString_large cfg w).
Proof.
  intros st r st' H. pose proof (generateFinalReport_spec st) as E.
  cbv zeta in E.
  exists [(Now, length (nodes st));
          (WriteReport (build_report toString_large cfg st), length (nodes st))].
  destruct (write_file w (length (trace st) + 1)) as [e|] eqn:Ew;
    rewrite E in H; injection H as <- <-.
  - split; [reflexivity|]. split; [cbn; now rewrite <- app_assoc|].
    split; [now repeat constructor|]. split.
    + intros e' E'. injection E' as <-. eexists [_], _, _.
      split; [reflexivity|]. split; [exact I | exact Ew].
    + intros [|[|[|j]]] c n e' E' _ Hf; try discriminate;
        injection E' as <- <-; cbn [call_failed] in Hf; [destruct Hf|].
      congruence.
  - split; [reflexivity|]. split; [cbn; now rewrite <- app_assoc|].
    split; [now repeat constructor|]. split; [discriminate|].
    intros [|[|[|j]]] c n e' E' _ Hf; try discriminate;
      injection E' as <- <-; cbn [call_failed] in Hf; [destruct Hf|].
    congruence.
Qed.

(** *** The whole campaign *)

Lemma campaign_steps_unfold fuel st :
  campaign_steps toString_large cfg w fuel st =
  bind (prelude cfg w) (fun _ => loop_then_report toString_large cfg w fuel) st.
Proof.
  unfold campaign_steps, prelude, bind.
  destruct (calculateInfrastructure cfg st) as [[[]|e] st1]; [|reflexivity].
  destruct (provisionInfrastructure cfg w st1) as [[[]|e] st2]; [|reflexivity].
  destruct (setupInfrastructure w st2) as [[[]|e] st3]; reflexivity.
Qed.

Lemma quiet_prelude : quiet w (prelude cfg w).
Proof.
  unfold prelude.
  apply quiet_bind; [apply quiet_calculateInfrastructure|]. intros _.
  apply quiet_bind; [apply quiet_provisionInfrastructure|]. intros _.
  apply quiet_setupInfrastructure.
Qed.

Lemma quiet_report_and_cleanup : quiet w (report_and_cleanup toString_large cfg w).
Proof.
  unfold report_and_cleanup.
  apply quiet_bind; [apply quiet_generateFinalReport|]. intros rep.
  apply quiet_bind; [exact quiet_maybe_cleanup|]. intros _. apply quiet_ret.
Qed.

Lemma report_and_cleanup_spec st1 r st' :
  report_and_cleanup toString_large cfg w st1 = (r, st') ->
  let rep := build_report toString_large cfg st1 in
  exists post,
    testResults st' = testResults st1 /\
    trace st' =
    trace st1 ++ [(Now, length (nodes st1)); (WriteReport rep, length (nodes st1))]
              ++ post /\
    Forall (fun ev => not_test (fst ev)) post /\
    match write_file w (length (trace st1) + 1) with
    | Some e => r = Throw e
    | None => r = Ok (Some rep)
    end.
Proof.
  unfold report_and_cleanup. intros H. cbv zeta.
  pose proof (generateFinalReport_spec st1) as E. cbv zeta in E.
  unfold bind at 1 in H.
  destruct (write_file w (length (trace st1) + 1)) as [e|]; rewrite E in H.
  - injection H as <- <-. exists [].
    split; [reflexivity|]. split; [cbn; now rewrite <- app_assoc|].
    split; [constructor | reflexivity].
  - unfold bind at 1 in H.
    match type of H with context [maybe_cleanup cfg ?s] =>
      destruct (maybe_cleanup_ok s) as [st3 Ec];
      pose proof (quiet_maybe_cleanup _ _ _ Ec) as (post & Hr & Ht & Hn & _)
    end.
    rewrite Ec in H. unfold ret in H. injection H as <- <-.
    exists post. split; [exact Hr|].
    split; [rewrite Ht; cbn; now rewrite <- !app_assoc|].
    split; [exact Hn | reflexivity].
Qed.

Lemma not_test_enough (tr : list (call * nat)) :
  Forall (fun ev => not_test (fst ev)) tr -> Forall (enough_nodes cfg) tr.
Proof.
  apply Forall_impl. intros [c n]. unfold enough_nodes. cbn.
  destruct c as [| |ip []| | |]; cbn; intros H; try exact I. contradiction.
Qed.

Lemma not_test_nth (tr : list (call * nat)) j ip L n :
  Forall (fun ev => not_test (fst ev)) tr ->
  nth_error tr j <> Some (RemoteScript ip (TestRun L), n).
Proof.
  intros HF H. apply nth_error_In in H.
  rewrite Forall_forall in HF. exact (HF _ H).
Qed.

Lemma scaling_is_not_test c : scaling_call c -> not_test c.
Proof. destruct c as [| |ip []| | |]; cbn; auto. Qed.

Lemma failed_call_nth st tr e st' :
  trace st' = trace st ++ tr -> failed_call w st tr e ->
  exists j c n, nth_error (trace st') j = Some (c, n) /\
                not_test c /\ call_failed w j c e.
Proof.
  intros Ht (tr' & c & n & -> & Hc & Hf).
  exists (length (trace st) + length tr')%nat, c, n.
  split; [|now split].
  rewrite Ht, app_assoc, nth_error_app2 by (rewrite length_app; lia).
  rewrite length_app, Nat.sub_diag. reflexivity.
Qed.

(** A run that does not reach the test loop. *)
Lemma campaign_facts_quiet {A} (r0 : result A) r st' tr :
  quiet_run w constructor r0 st' tr ->
  (forall e, r = Throw e -> r0 = Throw e) ->
  (forall e, r0 = Throw e -> r = Throw e) ->
  campaign_facts cfg w r st'.
Proof.
  intros (Hr & Ht & Hn & Hthrow & Hfatal) Hrr Hrr'. cbn in Hr, Ht. split.
  - now rewrite Hr.
  - rewrite Hr. constructor.
  - now rewrite Hr.
  - rewrite Ht. now apply not_test_enough.
  - intros e E. apply (failed_call_nth constructor tr); [exact Ht|].
    apply Hthrow. now apply Hrr.
  - intros j c n e E Hc Hf. rewrite Ht in E. apply Hrr'.
    exact (Hfatal j c n e E Hc Hf).
  - rewrite Hr. intros x [].
  - intros j ip L n e E. rewrite Ht in E. now apply not_test_nth in E.
  - intros j ip L n e E. rewrite Ht in E. now apply not_test_nth in E.
Qed.

Lemma nth_error_middle {A} (pre mid post : list A) j x :
  nth_error (pre ++ mid ++ post) j = Some x ->
  (j < length pre /\ nth_error pre j = Some x)%nat \/
  (exists j0, j = length pre + j0 /\ nth_error mid j0 = Some x)%nat \/
  (exists j1, j = length pre + length mid + j1 /\ nth_error post j1 = Some x)%nat.
Proof.
  intros H. destruct (Nat.lt_ge_cases j (length pre)) as [L|L].
  - left. rewrite nth_error_app1 in H by exact L. auto.
  - rewrite nth_error_app2 in H by exact L. right.
    destruct (Nat.lt_ge_cases (j - length pre) (length mid)) as [L'|L'].
    + left. rewrite nth_error_app1 in H by exact L'.
      exists (j - length pre)%nat. split; [lia | exact H].
    + right. rewrite nth_error_app2 in H by exact L'.
      exists (j - length pre - length mid)%nat. split; [lia | exact H].
Qed.

(** From the facts of the test loop to those of the campaign: [pre] is
    the trace of the phases before the loop, [post] the trace of those
    after it. *)
Lemma campaign_facts_loop st0 r1 st1 added new tr pre post r st' :
  testResults st0 = [] ->
  trace st0 = pre ->
  Forall (fun ev => not_test (fst ev)) pre ->
  loop_facts cfg w (incrementStep cfg) (Z.of_nat (length (nodes st0)))
             st0 r1 st1 added new tr ->
  testResults st' = testResults st1 ->
  trace st' = trace st1 ++ post ->
  Forall (fun ev => not_test (fst ev)) post ->
  (forall e, r = Throw e ->
             r1 = Throw e \/
             exists k c n, nth_error post k = Some (c, n) /\ not_test c /\
                           call_failed w (length (trace st1) + k) c e) ->
  (r1 = Ok Broke ->
   exists rep k,
     nth_error post 1 = Some (WriteReport rep, k) /\
     detailedResults rep = testResults st1 /\
     match write_file w (length (trace st1) + 1) with
     | Some e' => r = Throw e'
     | None => r = Ok (Some rep)
     end) ->
  fatal_calls w constructor (Ok tt) pre ->
  (forall e, r1 = Throw e -> r = Throw e) ->
  fatal_calls w st1 r post ->
  campaign_facts cfg w r st'.
Proof.
  intros Hr0 Ht0 Hpre F Hr' Ht' Hpost Hthrow Hbroke Hfpre Hr1r Hfpost.
  destruct F as [G Hloads Hbound Hstops Henough _ Hlthrow Hlfatal _ _ Hfailed
                   Hrai Hrtn].
  destruct G as (_ & Hr1 & Ht1 & _). rewrite Hr0 in Hr1. cbn [app] in Hr1.
  rewrite Ht0 in Ht1.
  assert (Htrace : trace st' = pre ++ tr ++ post)
    by (now rewrite Ht', Ht1, app_assoc).
  assert (Htest : forall j ip L n,
             nth_error (trace st') j = Some (RemoteScript ip (TestRun L), n) ->
             exists j0, (j = length pre + j0)%nat /\
                        nth_error tr j0 = Some (RemoteScript ip (TestRun L), n)).
  { intros j ip L n E. rewrite Htrace in E.
    apply nth_error_middle in E as [[_ E]|[E|(j1 & _ & E)]].
    - now apply not_test_nth in E.
    - exact E.
    - now apply not_test_nth in E. }
  split.
  - now rewrite Hr', Hr1.
  - now rewrite Hr', Hr1.
  - now rewrite Hr', Hr1.
  - rewrite Htrace. apply Forall_app. split; [now apply not_test_enough|].
    apply Forall_app. split; [exact Henough | now apply not_test_enough].
  - intros e E. destruct (Hthrow e E) as [E1|(k & c & n & Hk & Hc & Hf)].
    + destruct (Hlthrow e E1) as (tr' & c & n & -> & Hc & Hf).
      exists (length pre + length tr')%nat, c, n.
      split; [|split; [now apply scaling_is_not_test | now rewrite <- Ht0]].
      rewrite Htrace, nth_error_app2 by lia.
      replace (length pre + length tr' - length pre)%nat with (length tr') by lia.
      rewrite <- !app_assoc, nth_error_app2 by lia.
      now rewrite Nat.sub_diag.
    + exists (length (trace st1) + k)%nat, c, n.
      split; [|now split].
      rewrite Ht', nth_error_app2 by lia.
      replace (length (trace st1) + k - length (trace st1))%nat with k by lia.
      exact Hk.
  - intros j c n e E Hc Hf. rewrite Htrace in E.
    refine (fatal_calls_seq w constructor st0 (Ok tt) r pre (tr ++ post)
              Ht0 Hfpre _ _ j c n e E Hc Hf); [discriminate|].
    refine (fatal_calls_seq w st0 st1 r1 r tr post _ Hlfatal Hr1r Hfpost).
    now rewrite Ht0.
  - rewrite Hr', Hr1. intros x Hin Hx E.
    destruct (Hbroke (Hfailed x Hin Hx)) as (rep & k & _ & _ & Hw).
    destruct (write_file w (length (trace st1) + 1)); congruence.
  - intros j ip L n e E He.
    apply Htest in E as (j0 & -> & E). rewrite <- Ht0 in He.
    destruct (Hrai _ _ _ _ _ E He) as (Hb & Hlen & l & x & Hnew & Hx).
    split; [exists l, x; now rewrite Hr', Hr1, Hnew|].
    destruct (Hbroke Hb) as (rep & k & Hk & Hrep & Hw).
    assert (Hpos : (length (trace st1) + 1 = length pre + j0 + 3)%nat)
      by (rewrite Ht1, length_app, Hlen; lia).
    exists rep, k. split; [|split].
    + rewrite Ht', <- Hpos, nth_error_app2 by lia.
      replace (length (trace st1) + 1 - length (trace st1))%nat with 1%nat by lia.
      exact Hk.
    + now rewrite Hr'.
    + now rewrite <- Hpos.
  - intros j ip L n output E Ho.
    apply Htest in E as (j0 & -> & E). rewrite <- Ht0 in Ho.
    destruct (Hrtn _ _ _ _ _ E Ho) as (x & Hin & Hx).
    exists x. split; [now rewrite Hr', Hr1 | exact Hx].
Qed.

Lemma runIncrementalTests_spec fuel st r st' :
  runIncrementalTests cfg w fuel st = (r, st') ->
  exists added new tr,
    loop_facts cfg w (incrementStep cfg) (Z.of_nat (length (nodes st)))
               st r st' added new tr.
Proof.
  unfold runIncrementalTests, bind, get. intros H.
  now apply test_loop_spec in H.
Qed.

Lemma campaign_steps_facts fuel r st' :
  campaign_steps toString_large cfg w fuel constructor = (r, st') ->
  campaign_facts cfg w r st'.
Proof.
  rewrite campaign_steps_unfold. intros H.
  apply bind_inv in H as [(e & H & ->)|([] & st0 & H & H')].
  { apply quiet_prelude in H as (tr & Hq).
    apply (campaign_facts_quiet _ _ _ _ Hq);
      intros e' E; now injection E as <-. }
  apply quiet_prelude in H as (pre & Hr0 & Ht0 & Hpre & _ & Hfpre).
  cbn in Hr0, Ht0.
  apply bind_inv in H' as [(e & H & ->)|(exit & st1 & H & H')];
    apply runIncrementalTests_spec in H as (added & new & tr & F).
  { apply (campaign_facts_loop _ _ _ _ _ _ pre [] _ _ Hr0 Ht0 Hpre F);
      try reflexivity.
    - now rewrite app_nil_r.
    - constructor.
    - intros e' E. injection E as <-. now left.
    - discriminate.
    - exact Hfpre.
    - intros e' E. now injection E as <-.
    - apply fatal_calls_nil. }
  assert (Hfpost : forall r st' post,
             report_and_cleanup toString_large cfg w st1 = (r, st') ->
             trace st' = trace st1 ++ post -> fatal_calls w st1 r post).
  { intros r0 st2 post Hrc Ht2.
    apply quiet_report_and_cleanup in Hrc as (tr2 & _ & Ht3 & _ & _ & Hf2).
    rewrite Ht3 in Ht2. apply app_inv_head in Ht2. now subst tr2. }
  destruct exit.
  - pose proof (fun post => Hfpost _ _ post H') as Hfp.
    apply report_and_cleanup_spec in H' as (post & Hr' & Ht' & Hpost & Hw).
    eapply (campaign_facts_loop _ _ _ _ _ _ pre _ _ _ Hr0 Ht0 Hpre F Hr' Ht').
    + now repeat constructor.
    + intros e E. right. exists 1%nat. eexists _, _.
      split; [reflexivity|]. split; [exact I|]. cbn [call_failed].
      destruct (write_file w (length (trace st1) + 1)); congruence.
    + discriminate.
    + exact Hfpre.
    + discriminate.
    + exact (Hfp _ Ht').
  - pose proof (fun post => Hfpost _ _ post H') as Hfp.
    apply report_and_cleanup_spec in H' as (post & Hr' & Ht' & Hpost & Hw).
    eapply (campaign_facts_loop _ _ _ _ _ _ pre _ _ _ Hr0 Ht0 Hpre F Hr' Ht').
    + now repeat constructor.
    + intros e E. right. exists 1%nat. eexists _, _.
      split; [reflexivity|]. split; [exact I|]. cbn [call_failed].
      destruct (write_file w (length (trace st1) + 1)); congruence.
    + intros _. eexists _, _. split; [reflexivity|]. split; [reflexivity | exact Hw].
    + exact Hfpre.
    + discriminate.
    + exact (Hfp _ Ht').
  - unfold ret in H'. injection H' as <- <-.
    apply (campaign_facts_loop _ _ _ _ _ _ pre [] _ _ Hr0 Ht0 Hpre F);
      try reflexivity.
    + now rewrite app_nil_r.
    + constructor.
    + discriminate.
    + discriminate.
    + exact Hfpre.
    + discriminate.
    + apply fatal_calls_nil.
Qed.

(** Cleaning up after an exception changes none of these facts. *)
Lemma campaign_facts_extend r st1 st2 post :
  campaign_facts cfg w r st1 ->
  testResults st2 = testResults st1 ->
  trace st2 = trace st1 ++ post ->
  Forall (fun ev => not_test (fst ev)) post ->
  fatal_calls w st1 (Ok tt) post ->
  campaign_facts cfg w r st2.
Proof.
  intros [Hl Hb Hs He Hth Hfat Hf Hrai Hrtn] Hr Ht Hpost Hfpost.
  assert (Htest : forall j ip L n,
             nth_error (trace st2) j = Some (RemoteScript ip (TestRun L), n) ->
             nth_error (trace st1) j = Some (RemoteScript ip (TestRun L), n)).
  { intros j ip L n E. rewrite Ht in E.
    destruct (Nat.lt_ge_cases j (length (trace st1))) as [Lt|Ge].
    - now rewrite nth_error_app1 in E.
    - rewrite nth_error_app2 in E by exact Ge. now apply not_test_nth in E. }
  assert (Hkeep : forall j ev, nth_error (trace st1) j = Some ev ->
                               nth_error (trace st2) j = Some ev).
  { intros j ev E. rewrite Ht, nth_error_app1; [exact E|].
    apply nth_error_Some. congruence. }
  split; rewrite ?Hr; auto.
  - rewrite Ht. apply Forall_app. split; [exact He | now apply not_test_enough].
  - intros e E. destruct (Hth e E) as (j & c & n & Hj & Hc).
    exists j, c, n. split; [now apply Hkeep | exact Hc].
  - intros j c n e E Hc Hx. rewrite Ht in E.
    destruct (Nat.lt_ge_cases j (length (trace st1))) as [Lt|Ge].
    + rewrite nth_error_app1 in E by exact Lt. exact (Hfat _ _ _ _ E Hc Hx).
    + rewrite nth_error_app2 in E by exact Ge.
      replace j with (length (trace st1) + (j - length (trace st1)))%nat in Hx
        by lia.
      discriminate (Hfpost _ _ _ _ E Hc Hx).
  - intros j ip L n e E Hx. apply Htest in E.
    destruct (Hrai _ _ _ _ _ E Hx) as (H1 & rep & k & Hk & H2).
    split; [exact H1|]. exists rep, k. split; [now apply Hkeep | exact H2].
  - intros j ip L n o E Hx. apply Htest in E. exact (Hrtn _ _ _ _ _ E Hx).
Qed.

Lemma runCompleteTest_facts fuel r st' :
  runCompleteTest toString_large cfg w fuel constructor = (r, st') ->
  campaign_facts cfg w r st'.
Proof.
  unfold runCompleteTest.
  destruct (campaign_steps toString_large cfg w fuel constructor)
    as [[a|e] st1] eqn:E; apply campaign_steps_facts in E.
  - intros H. now injection H as <- <-.
  - fold (maybe_cleanup cfg). destruct (maybe_cleanup_ok st1) as [st2 Ec].
    rewrite Ec. intros H. injection H as <- <-.
    apply quiet_maybe_cleanup in Ec as (post & Hr & Ht & Hn & _ & Hfat).
    exact (campaign_facts_extend _ _ _ _ E Hr Ht Hn Hfat).
Qed.

(** *** Termination *)

Lemma test_loop_terminates (fuel : nat) :
  0 < incrementStep cfg ->
  forall p cur st,
    (Z.to_nat (maxParticipants cfg - p + 1) <= fuel)%nat ->
    fst (test_loop cfg w fuel p cur st) <> Ok Running.
Proof.
  intros Hinc. induction fuel as [|fuel IH]; intros p cur st Hfuel.
  - cbn [test_loop]. destruct (Z.leb_spec p (maxParticipants cfg)); [lia|].
    discriminate.
  - rewrite test_loop_unfold.
    destruct (Z.leb_spec p (maxParticipants cfg)); [|discriminate].
    unfold bind at 1. destruct (scale cfg w p cur st) as [[cur'|e] st1]; [|discriminate].
    unfold bind at 1.
    destruct (runSingleTest_spec p st1) as (x & st2 & -> & _).
    unfold bind at 1, modify at 1.
    destruct (success x); cbn [negb]; [|discriminate].
    unfold bind at 1, sleep at 1, bind at 1, emit at 1, ret at 1.
    apply IH. lia.
Qed.

Lemma runCompleteTest_terminates fuel :
  0 < incrementStep cfg ->
  (Z.to_nat (maxParticipants cfg - incrementStep cfg + 1) <= fuel)%nat ->
  forall st, fst (runCompleteTest toString_large cfg w fuel st) <> Ok None.
Proof.
  intros Hinc Hfuel st. unfold runCompleteTest.
  destruct (campaign_steps toString_large cfg w fuel st) as [[a|e] st1] eqn:E.
  2:{ destruct (if autoCleanup cfg then cleanup else ret tt) as [? ?].
      cbn. discriminate. }
  cbn [fst]. intros Ha. injection Ha as ->.
  rewrite campaign_steps_unfold in E.
  apply bind_inv in E as [(e & _ & E)|([] & st0 & _ & E)]; [discriminate|].
  apply bind_inv in E as [(e & _ & E)|(exit & st2 & Hloop & E)]; [discriminate|].
  destruct exit.
  - apply report_and_cleanup_spec in E as (post & _ & _ & _ & Hw).
    destruct (write_file w (length (trace st2) + 1)); discriminate.
  - apply report_and_cleanup_spec in E as (post & _ & _ & _ & Hw).
    destruct (write_file w (length (trace st2) + 1)); discriminate.
  - unfold runIncrementalTests, bind, get in Hloop.
    pose proof (test_loop_terminates fuel Hinc (incrementStep cfg)
                  (Z.of_nat (length (nodes st0))) st0 Hfuel) as Ht.
    rewrite Hloop in Ht. now apply Ht.
Qed.

(** *** The first call of a campaign *)

Lemma quiet_extends {A} (c : M A) : quiet w c -> trace_extends c.
Proof.
  intros Hq st r st' H. apply Hq in H as (tr & _ & Ht & _). now exists tr.
Qed.

Lemma extends_bind {A B} (c : M A) (f : A -> M B) :
  trace_extends c -> (forall a, trace_extends (f a)) -> trace_extends (bind c f).
Proof.
  intros Hc Hf st r st' H.
  apply bind_inv in H as [(e & H & _)|(a & st1 & H & H')].
  - exact (Hc _ _ _ H).
  - apply Hc in H as (tr & Ht). apply Hf in H' as (tr' & Ht').
    exists (tr ++ tr'). now rewrite Ht', Ht, app_assoc.
Qed.

Lemma extends_loop_then_report fuel : trace_extends (loop_then_report toString_large cfg w fuel).
Proof.
  apply extends_bind.
  - intros st r st' H.
    apply runIncrementalTests_spec in H as (added & new & tr & [G]).
    destruct G as (_ & _ & Ht & _). now exists tr.
  - intros []; try apply quiet_extends, quiet_ret;
      (apply extends_bind; [apply quiet_extends, quiet_generateFinalReport|];
       intros rep; apply extends_bind;
       [apply quiet_extends, quiet_maybe_cleanup
       | intros; apply quiet_extends, quiet_ret]).
Qed.

(** Whatever the configuration, a campaign begins by asking for the hub
    droplet. *)
Lemma runCompleteTest_first_call fuel :
  exists tl,
    trace (snd (runCompleteTest toString_large cfg w fuel constructor)) =
    hub_call :: tl.
Proof.
  assert (Hsteps : exists tl,
             trace (snd (campaign_steps toString_large cfg w fuel constructor)) =
             hub_call :: tl).
  { destruct (campaign_steps toString_large cfg w fuel constructor)
      as [r st'] eqn:E. cbn [snd].
    unfold campaign_steps, bind at 1, calculateInfrastructure, modify in E.
    unfold bind at 1, provisionInfrastructure, bind at 1 in E.
    match type of E with context [createDroplet w ?n ?s ?st0] =>
      destruct (createDroplet_cases n s st0) as [(d & _ & Ed)|(e & _ & Ed)];
      rewrite Ed in E
    end.
    - match type of E with
        (match ?c ?s with _ => _ end) = _ =>
          assert (Hx : trace_extends (bind c (fun _ =>
                        bind (setupInfrastructure w)
                             (fun _ => loop_then_report toString_large cfg w fuel))))
      end.
      { apply extends_bind.
        - apply quiet_extends.
          apply quiet_bind; [apply quiet_modify; intros; split; reflexivity|].
          intros _. apply quiet_bind; [apply quiet_get|]. intros st.
          apply quiet_bind; [apply quiet_create_initial_nodes|]. intros _.
          apply quiet_sleep.
        - intros _. apply extends_bind;
            [apply quiet_extends, quiet_setupInfrastructure|].
          intros _. apply extends_loop_then_report. }
      apply Hx in E as (tr & ->). now exists tr.
    - injection E as _ <-. now exists []. }
  unfold runCompleteTest.
  destruct (campaign_steps toString_large cfg w fuel constructor)
    as [[a|e] st1]; cbn [snd] in *; [exact Hsteps|].
  fold (maybe_cleanup cfg). destruct (maybe_cleanup cfg st1) as [r2 st2] eqn:Ec.
  apply quiet_maybe_cleanup in Ec as (post & _ & Ht & _).
  destruct Hsteps as [tl Hs]. cbn [snd]. rewrite Ht, Hs. now exists (tl ++ post).
Qed.

End CampaignFacts.

(** ** The claims about campaigns, steps and reports *)

Lemma loads_from_nth (rs : list testResult) :
  forall p inc i x,
    map participants rs = loads_from p inc (length rs) ->
    nth_error rs i = Some x ->
    participants x = p + inc * Z.of_nat i.
Proof.
  induction rs as [|r rs IH]; intros p inc i x H E.
  - destruct i; discriminate.
  - cbn in H. injection H as Hr H. destruct i as [|i].
    + cbn in E. injection E as <-. lia.
    + cbn [nth_error] in E. rewrite (IH _ _ _ _ H E). lia.
Qed.

Lemma stops_at_first_failure_app (rs : list testResult) :
  stops_at_first_failure rs ->
  forall l x l', rs = l ++ x :: l' -> success x = false -> l' = [].
Proof.
  intros H l. revert rs H. induction l as [|y l IH]; intros rs H x l' -> Hx.
  - cbn in H. now apply H.
  - cbn in H. destruct H as [_ H]. exact (IH _ H x l' eq_refl Hx).
Qed.



(** C2: in every campaign, and at every point of it, a failed result is
    the last of the result log: nothing is appended after it, and the test
    loop has been left. *)
Theorem C2_no_result_after_failure :
  forall toString_large e w fuel l x l',
    testResults (snd (campaign toString_large e w fuel)) = l ++ x :: l' ->
    success x = false ->
    l' = [] /\ fst (campaign toString_large e w fuel) <> Ok None.
Proof.
  intros toStr e w fuel l x l'. unfold campaign.
  destruct (runCompleteTest toStr (main_config e) w fuel constructor)
    as [r st'] eqn:E.
  apply runCompleteTest_facts in E as [_ _ Hs _ _ _ Hf _ _]. cbn [fst snd].
  intros Hres Hx. split.
  - exact (stops_at_first_failure_app _ Hs l x l' Hres Hx).
  - apply (Hf x); [|exact Hx]. rewrite Hres. apply in_elt.
Qed.

Lemma C2_no_result_after_failure_witness :
  exists l x,
    testResults
      (snd (campaign no_exponent (example_env 200 50 80)
                     (example_world 22 (inl (lit "boom"))) 10)) = l ++ [x] /\
    success x = false /\
    ([] = @nil testResult /\
     fst (campaign no_exponent (example_env 200 50 80)
                   (example_world 22 (inl (lit "boom"))) 10) <> Ok None).
Proof.
  eexists [_; _], _. split; [vm_compute; reflexivity|].
  split; [reflexivity|].
  eapply (C2_no_result_after_failure no_exponent (example_env 200 50 80)
            (example_world 22 (inl (lit "boom"))) 10 [_; _] _ []);
    vm_compute; reflexivity.
Defined.



(** C8, amended: a test run never raises: when the executor call that
    runs the test raises, the step returns a result with
    [success = false] and the message as its only diagnostic.  In a
    campaign that result is appended to the log, the report is built
    from the log and handed to the file system, and the campaign ends
    normally if the file is written.  The test loop itself raises only
    when a call of the scaling step (creating a droplet, setting a node
    up) failed, and a campaign ends by an exception exactly when a call
    that is not a test run failed, with the message of that call. *)
Theorem C8_executor_error_is_recorded :
  forall toString_large e w fuel,
    let run := campaign toString_large e w fuel in
    (forall p st,
        exists x st',
          runSingleTest w p st = (Ok x, st') /\
          participants x = p /\ testResults st' = testResults st /\
          forall message,
            executor_raises w (length (trace st) + 2) message ->
            success x = false /\ errors x = [message]) /\
    (forall j ip L n message,
        nth_error (trace (snd run)) j = Some (RemoteScript ip (TestRun L), n) ->
        executor_raises w j message ->
        (exists l x,
            testResults (snd run) = l ++ [x] /\ participants x = L /\
            success x = false /\ errors x = [message]) /\
        (exists rep k,
            nth_error (trace (snd run)) (j + 3) = Some (WriteReport rep, k) /\
            detailedResults rep = testResults (snd run) /\
            match write_file w (j + 3) with
            | Some e' => fst run = Throw e'
            | None => fst run = Ok (Some rep)
            end)) /\
    (forall st message st',
        runIncrementalTests (main_config e) w fuel st = (Throw message, st') ->
        exists tr' c n,
          trace st' = trace st ++ tr' ++ [(c, n)] /\ scaling_call c /\
          call_failed w (length (trace st) + length tr') c message) /\
    (forall message,
        fst run = Throw message <->
        exists j c n,
          nth_error (trace (snd run)) j = Some (c, n) /\ not_test c /\
          call_failed w j c message).
Proof.
  intros toStr e w fuel run. split; [|split; [|split]].
  - intros p st.
    destruct (runSingleTest_spec w p st) as (x & st' & E & G & Hp & Hraise & _).
    exists x, st'. destruct G as (_ & Hr & _).
    split; [exact E|]. split; [exact Hp|].
    split; [now rewrite Hr, app_nil_r | exact Hraise].
  - unfold run, campaign.
    destruct (runCompleteTest toStr (main_config e) w fuel constructor)
      as [r st'] eqn:E.
    apply runCompleteTest_facts in E as [_ _ _ _ _ _ _ Hrai _]. exact Hrai.
  - intros st message st' H.
    apply runIncrementalTests_spec in H as (added & new & tr & F).
    destruct F as [(_ & _ & Ht & _) _ _ _ _ _ Hthrow _ _ _ _ _ _].
    destruct (Hthrow message eq_refl) as (tr' & c & n & -> & Hc & Hf).
    now exists tr', c, n.
  - unfold run, campaign.
    destruct (runCompleteTest toStr (main_config e) w fuel constructor)
      as [r st'] eqn:E.
    apply runCompleteTest_facts in E as [_ _ _ _ Hthrow Hfatal _ _ _].
    cbn [fst snd]. intros message. split; [apply Hthrow|].
    intros (j & c & n & Hj & Hc & Hf). exact (Hfatal j c n message Hj Hc Hf).
Qed.

Lemma C8_executor_error_witness :
  let w := example_world 22 (inl (lit "boom")) in
  let run := campaign no_exponent (example_env 200 50 80) w 10 in
  (exists l x,
      testResults (snd run) = l ++ [x] /\ participants x = 150 /\
      success x = false /\ errors x = [lit "boom"]) /\
  (exists rep k,
      nth_error (trace (snd run)) (22 + 3) = Some (WriteReport rep, k) /\
      detailedResults rep = testResults (snd run) /\
      match write_file w (22 + 3) with
      | Some e' => fst run = Throw e'
      | None => fst run = Ok (Some rep)
      end).
Proof.
  cbv zeta.
  pose proof (C8_executor_error_is_recorded no_exponent (example_env 200 50 80)
                (example_world 22 (inl (lit "boom"))) 10) as (_ & H & _ & _).
  apply (H 22%nat (Some (lit "10.0.0.1")) 150 3%nat (lit "boom"));
    vm_compute; reflexivity.
Defined.

(** C8 as claimed fails: the executor call that sets up the fourth node,
    made by the step at 250 while it scales, raises; the campaign ends
    with that message, the step at 250 is not recorded and no report is
    written. *)
Lemma C8_setup_error_in_a_step_is_fatal :
  let w := example_world 32 (inl (lit "no route")) in
  let run := campaign no_exponent (example_env 400 50 80) w 10 in
  nth_error (trace (snd run)) 32 =
  Some (RemoteScript (Some (lit "10.0.0.1")) (NodeSetup (lit "jitsi-node-4")),
        4%nat) /\
  executor_raises w 32 (lit "no route") /\
  fst run = Throw (lit "no route") /\
  map participants (testResults (snd run)) = [50; 100; 150; 200] /\
  forallb (fun ev => match fst ev with WriteReport _ => false | _ => true end)
          (trace (snd run)) = true.
Proof. cbv zeta. repeat split; vm_compute; reflexivity. Qed.

(** C10: when the executor returns an output, the step succeeds exactly
    when the output contains [BUILD SUCCESS] or does not contain
    [FAILURES]; an output with neither, such as the empty one, is a
    success. *)
Theorem C10_success_flag :
  forall w p st output,
    executor_returns w (length (trace st) + 2) output ->
    exists x st',
      runSingleTest w p st = (Ok x, st') /\
      (success x = true <->
       occurs_in (lit "BUILD SUCCESS") output \/
       ~ occurs_in (lit "FAILURES") output) /\
      (~ occurs_in (lit "BUILD SUCCESS") output ->
       ~ occurs_in (lit "FAILURES") output -> success x = true) /\
      (output = [] -> success x = true).
Proof.
  intros w p st output Hout.
  destruct (runSingleTest_spec w p st) as (x & st' & E & _ & _ & _ & Hret).
  exists x, st'. split; [exact E|].
  rewrite (Hret output Hout), classify_iff.
  split; [reflexivity|]. split; [tauto|].
  intros ->. right. intros (pre & post & H).
  destruct pre; discriminate.
Qed.

Lemma C10_success_flag_witness :
  exists x st',
    runSingleTest (example_world 2 (inr ([], []))) 50 constructor = (Ok x, st') /\
    (success x = true <->
     occurs_in (lit "BUILD SUCCESS") [] \/ ~ occurs_in (lit "FAILURES") []) /\
    (~ occurs_in (lit "BUILD SUCCESS") [] ->
     ~ occurs_in (lit "FAILURES") [] -> success x = true) /\
    (@nil N = [] -> success x = true).
Proof.
  apply (C10_success_flag (example_world 2 (inr ([], []))) 50 constructor []).
  exists []. split; [vm_compute; reflexivity | left; reflexivity].
Defined.










(** ** Two campaigns, evaluated *)

(** Steps of 50 up to 200 with 80 participants per node; the test at 150
    cannot run.  Three results are recorded, the breaking point is 150,
    the largest successful load 100 and the recommended capacity 80. *)
Example campaign_with_breaking_point :
  let run := campaign no_exponent (example_env 200 50 80)
                      (example_world 22 (inl (lit "boom"))) 10 in
  map (fun x => (participants x, success x)) (testResults (snd run)) =
  [(50, true); (100, true); (150, false)] /\
  exists rep,
    fst run = Ok (Some rep) /\
    breakingPoint (report_summary rep) = Some 150 /\
    maxSuccessfulParticipants (report_summary rep) = 100 /\
    recommendedCapacity (report_summary rep) = 80 /\
    totalTests (report_summary rep) = 3%nat /\
    successRate (report_summary rep) = lit "66.7".
Proof.
  cbv zeta. split; [vm_compute; reflexivity|].
  eexists. split; [vm_compute; reflexivity|].
  repeat split; vm_compute; reflexivity.
Qed.

(** The same campaign when every test passes: four results, no breaking
    point, and 200 as the largest successful load. *)
Example campaign_without_failure :
  let run := campaign no_exponent (example_env 200 50 80)
                      (example_world 0 (inl [])) 10 in
  map (fun x => (participants x, success x)) (testResults (snd run)) =
  [(50, true); (100, true); (150, true); (200, true)] /\
  exists rep,
    fst run = Ok (Some rep) /\
    breakingPoint (report_summary rep) = None /\
    maxSuccessfulParticipants (report_summary rep) = 200 /\
    successRate (report_summary rep) = lit "100.0".
Proof.
  cbv zeta. split; [vm_compute; reflexivity|].
  eexists. split; [vm_compute; reflexivity|].
  repeat split; vm_compute; reflexivity.
Qed.

(** * Properties of the rest of the script *)

(** ** Numbers and text *)

Lemma digit_of_value (d : Z) : 0 <= d < 10 -> Z.of_N (digit_of d) - 48 = d.
Proof. intros H. unfold digit_of. rewrite Z2N.id; lia. Qed.

Lemma digit_of_is_digit (d : Z) : 0 <= d < 10 -> is_digit (digit_of d) = true.
Proof.
  intros H. unfold is_digit, digit_of.
  apply andb_true_iff. split; apply N.leb_le; lia.
Qed.

Lemma parse_digits_app (s : jsstring) (c : N) :
  parse_digits (s ++ [c]) = 10 * parse_digits s + (Z.of_N c - 48).
Proof. unfold parse_digits. now rewrite fold_left_app. Qed.

Lemma digits_fuel_acc (fuel : nat) :
  forall n acc, digits_fuel fuel n acc = digits_fuel fuel n [] ++ acc.
Proof.
  induction fuel as [|fuel IH]; intros n acc; cbn [digits_fuel].
  - reflexivity.
  - destruct (n <? 10); [reflexivity|].
    rewrite (IH _ (_ :: acc)), (IH _ [_]), <- app_assoc. reflexivity.
Qed.

Lemma digits_fuel_S (fuel : nat) (n : Z) (acc : jsstring) :
  digits_fuel (S fuel) n acc =
  if n <? 10 then digit_of n :: acc
  else digits_fuel fuel (n / 10) (digit_of (n mod 10) :: acc).
Proof. reflexivity. Qed.

Lemma digits_fuel_spec (fuel : nat) :
  forall n, 0 <= n < 10 ^ Z.of_nat (S fuel) ->
            let s := digits_fuel (S fuel) n [] in
            parse_digits s = n /\ forallb is_digit s = true /\ s <> [].
Proof.
  induction fuel as [|fuel IH]; intros n Hn;
    rewrite digits_fuel_S; destruct (Z.ltb_spec n 10) as [L|L]; cbv zeta.
  1,3: split; [|split; [|discriminate]];
    [unfold parse_digits; cbn [fold_left]; rewrite digit_of_value; lia
    |cbn; rewrite digit_of_is_digit; [reflexivity | lia]].
  - cbn in Hn. lia.
  - rewrite digits_fuel_acc.
    assert (Hq : 0 <= n / 10 < 10 ^ Z.of_nat (S fuel)).
    { split; [apply Z.div_pos; lia|].
      apply Z.div_lt_upper_bound; [lia|].
      rewrite (Nat2Z.inj_succ (S fuel)), Z.pow_succ_r in Hn; lia. }
    destruct (IH _ Hq) as (Hp & Hd & Hne).
    pose proof (Z.mod_pos_bound n 10 ltac:(lia)) as Hm.
    split; [|split].
    + rewrite parse_digits_app, Hp, digit_of_value by exact Hm.
      pose proof (Z.div_mod n 10 ltac:(lia)). lia.
    + rewrite forallb_app, Hd. cbn.
      rewrite digit_of_is_digit; [reflexivity | exact Hm].
    + intros E. apply app_eq_nil in E as [_ E]. discriminate.
Qed.

(** The decimal digits of a number read back as that number. *)
Lemma digits_spec (n : Z) :
  0 <= n ->
  parse_digits (digits n) = n /\ forallb is_digit (digits n) = true /\
  digits n <> [].
Proof.
  intros Hn. unfold digits. apply digits_fuel_spec. split; [exact Hn|].
  destruct (Z.eq_dec n 0) as [->|Hz]; [cbn; lia|].
  rewrite Nat2Z.inj_succ, Z2Nat.id by apply Z.log2_nonneg.
  pose proof (Z.log2_spec n ltac:(lia)) as [_ Hl].
  apply Z.lt_le_trans with (1 := Hl).
  apply Z.pow_le_mono_l. pose proof (Z.log2_nonneg n). lia.
Qed.

Lemma string_of_Z_inj (n m : Z) : string_of_Z n = string_of_Z m -> n = m.
Proof.
  unfold string_of_Z.
  destruct (Z.ltb_spec n 0) as [Ln|Ln], (Z.ltb_spec m 0) as [Lm|Lm]; intros E.
  - injection E as E. apply (f_equal parse_digits) in E.
    destruct (digits_spec (- n) ltac:(lia)) as [Hn _].
    destruct (digits_spec (- m) ltac:(lia)) as [Hm _]. lia.
  - destruct (digits_spec m Lm) as (_ & Hd & _). rewrite <- E in Hd.
    cbn in Hd. discriminate.
  - destruct (digits_spec n Ln) as (_ & Hd & _). rewrite E in Hd.
    cbn in Hd. discriminate.
  - apply (f_equal parse_digits) in E.
    destruct (digits_spec n Ln) as [Hn _].
    destruct (digits_spec m Lm) as [Hm _]. lia.
Qed.

(** *** [parseInt] *)

Lemma radix_prefix_decimal (s rest : jsstring) :
  forallb is_digit s = true -> ends_number rest ->
  forall acc,
    radix_prefix dec_value 10 (s ++ rest) acc =
    match s with
    | [] => acc
    | _ :: _ =>
        Some (fold_left (fun a c => 10 * a + (Z.of_N c - 48)) s
                        match acc with Some a => a | None => 0 end)
    end.
Proof.
  intros Hs Hrest. induction s as [|c s IH]; intros acc.
  - destruct rest as [|c rest]; [reflexivity|].
    cbn in *. unfold dec_value. now rewrite Hrest.
  - cbn in Hs. apply andb_true_iff in Hs as [Hc Hs].
    cbn [app radix_prefix]. unfold dec_value at 1. rewrite Hc, (IH Hs).
    destruct s; reflexivity.
Qed.

Lemma digit_not_space (c : N) : is_digit c = true -> is_space c = false.
Proof.
  unfold is_digit, is_space. intros H. apply andb_true_iff in H as [H1 H2].
  apply N.leb_le in H1, H2.
  repeat (apply orb_false_iff; split);
    try (apply andb_false_iff; (left; apply N.leb_gt; lia) || (right; apply N.leb_gt; lia));
    apply N.eqb_neq; lia.
Qed.

Lemma digit_not_sign (c : N) :
  is_digit c = true -> (c =? 45)%N = false /\ (c =? 43)%N = false.
Proof.
  unfold is_digit. intros H. apply andb_true_iff in H as [H1 H2].
  apply N.leb_le in H1, H2. split; apply N.eqb_neq; lia.
Qed.

Lemma digit_not_x (c : N) :
  is_digit c = true -> (c =? 120)%N || (c =? 88)%N = false.
Proof.
  unfold is_digit. intros H. apply andb_true_iff in H as [H1 H2].
  apply N.leb_le in H1, H2.
  apply orb_false_iff. split; apply N.eqb_neq; lia.
Qed.

(** The decimal number after the sign. *)
Lemma unsigned_decimal (s rest : jsstring) :
  s <> [] -> forallb is_digit s = true -> ends_number rest ->
  ~ hex_marker s rest ->
  (let '(R, s1) :=
     match s ++ rest with
     | z :: x :: s' =>
         if (z =? 48)%N && ((x =? 120)%N || (x =? 88)%N) then (16, s')
         else (10, s ++ rest)
     | _ => (10, s ++ rest)
     end in
   radix_prefix (if R =? 16 then hex_value else dec_value) R s1 None) =
  Some (parse_digits s).
Proof.
  intros Hne Hs Hrest Hhex.
  assert (Hdec : radix_prefix dec_value 10 (s ++ rest) None =
                 Some (parse_digits s)).
  { rewrite (radix_prefix_decimal s rest Hs Hrest).
    destruct s; [contradiction | reflexivity]. }
  destruct s as [|z s]; [contradiction|]. cbn [app] in *.
  destruct (s ++ rest) as [|x s'] eqn:E; [exact Hdec|].
  destruct ((z =? 48)%N && ((x =? 120)%N || (x =? 88)%N)) eqn:Em;
    [|exact Hdec].
  exfalso. apply andb_true_iff in Em as [Ez Ex]. apply N.eqb_eq in Ez.
  destruct s as [|y s].
  - apply Hhex. split; [now subst z|]. cbn in E. exists x, s'.
    split; [exact E|].
    apply orb_true_iff in Ex as [Ex|Ex]; apply N.eqb_eq in Ex; auto.
  - cbn in E. injection E as -> _. cbn in Hs.
    apply andb_true_iff in Hs as [_ Hs]. apply andb_true_iff in Hs as [Hx _].
    rewrite (digit_not_x _ Hx) in Ex. discriminate.
Qed.

Lemma parseInt_decimal (ws s rest : jsstring) :
  forallb is_space ws = true ->
  s <> [] -> forallb is_digit s = true -> ends_number rest ->
  ~ hex_marker s rest ->
  parseInt (ws ++ s ++ rest) = Some (parse_digits s) /\
  parseInt (ws ++ 45%N :: s ++ rest) = Some (- parse_digits s) /\
  parseInt (ws ++ 43%N :: s ++ rest) = Some (parse_digits s).
Proof.
  intros Hws Hne Hs Hrest Hhex.
  pose proof (unsigned_decimal s rest Hne Hs Hrest Hhex) as Hu.
  destruct s as [|c s]; [contradiction|].
  cbn in Hs. apply andb_true_iff in Hs as [Hc Hs].
  destruct (digit_not_sign c Hc) as [Hm Hp].
  unfold parseInt. repeat split.
  - destruct (dropWhile_app is_space ws ((c :: s) ++ rest) Hws) as [-> _];
      [cbn; now apply digit_not_space|].
    cbn [app]. rewrite Hm, Hp. cbn [app] in Hu.
    destruct (match s ++ rest with _ :: _ => _ | _ => _ end) as [R s1].
    rewrite Hu. f_equal; lia.
  - destruct (dropWhile_app is_space ws (45%N :: (c :: s) ++ rest) Hws)
      as [-> _]; [reflexivity|].
    cbn [N.eqb Pos.eqb app]. cbn [app] in Hu.
    destruct (match s ++ rest with _ :: _ => _ | _ => _ end) as [R s1].
    rewrite Hu. f_equal; lia.
  - destruct (dropWhile_app is_space ws (43%N :: (c :: s) ++ rest) Hws)
      as [-> _]; [reflexivity|].
    cbn [N.eqb Pos.eqb app]. cbn [app] in Hu.
    destruct (match s ++ rest with _ :: _ => _ | _ => _ end) as [R s1].
    rewrite Hu. f_equal; lia.
Qed.

Lemma parseInt_string_of_Z (n : Z) (rest : jsstring) :
  ends_decimal rest -> parseInt (string_of_Z n ++ rest) = Some n.
Proof.
  intros Hrest.
  assert (He : ends_number rest)
    by (destruct rest; [exact I | exact (proj1 Hrest)]).
  assert (Hh : forall s, ~ hex_marker s rest).
  { intros s (_ & c & rest' & -> & Hc). destruct Hrest as (_ & H1 & H2).
    destruct Hc; contradiction. }
  unfold string_of_Z. destruct (Z.ltb_spec n 0) as [L|L].
  - destruct (digits_spec (- n) ltac:(lia)) as (Hp & Hd & Hne).
    destruct (parseInt_decimal [] _ rest eq_refl Hne Hd He (Hh _))
      as (_ & H & _).
    cbn [app] in *. rewrite H, Hp. f_equal. lia.
  - destruct (digits_spec n L) as (Hp & Hd & Hne).
    destruct (parseInt_decimal [] _ rest eq_refl Hne Hd He (Hh _))
      as (H & _).
    cbn [app] in *. now rewrite H, Hp.
Qed.

Lemma parseInt_not_a_number (s : jsstring) :
  not_a_number s -> parseInt s = None.
Proof.
  unfold not_a_number, parseInt. destruct (dropWhile is_space s) as [|c s1].
  - reflexivity.
  - intros (Hd & Hm & Hp).
    apply N.eqb_neq in Hm, Hp. rewrite Hm, Hp.
    assert (Hz : (c =? 48)%N = false).
    { apply N.eqb_neq. intros ->. discriminate. }
    assert (Hv : radix_prefix dec_value 10 (c :: s1) None = None)
      by (cbn; unfold dec_value; now rewrite Hd).
    destruct s1 as [|x s2]; rewrite ?Hz; cbn [andb];
      cbv beta iota zeta delta [Z.eqb Pos.eqb]; now rewrite Hv.
Qed.

(** *** Splitting at white space *)

Lemma split_spaces_not_nil (s : jsstring) (g : bool) : split_spaces s g <> [].
Proof.
  revert g. induction s as [|c s IH]; intros g; cbn; [discriminate|].
  destruct (is_space c); [destruct g; [apply IH | discriminate]|].
  destruct (split_spaces s false); discriminate.
Qed.

Lemma split_spaces_word (t s : jsstring) :
  forallb (fun c => negb (is_space c)) t = true ->
  split_spaces (t ++ s) false =
  match split_spaces s false with
  | piece :: pieces => (t ++ piece) :: pieces
  | [] => [t]
  end.
Proof.
  intros Ht. induction t as [|c t IH].
  - cbn [app]. destruct (split_spaces s false) eqn:E; [|reflexivity].
    now apply split_spaces_not_nil in E.
  - cbn in Ht. apply andb_true_iff in Ht as [Hc Ht].
    apply negb_true_iff in Hc. cbn [app split_spaces]. rewrite Hc, (IH Ht).
    destruct (split_spaces s false); reflexivity.
Qed.

Lemma split_spaces_gap (gap s : jsstring) :
  blank gap -> split_spaces (gap ++ s) true = split_spaces s true.
Proof.
  unfold blank. induction gap as [|c gap IH]; intros Hg; [reflexivity|].
  cbn in Hg. apply andb_true_iff in Hg as [Hc Hg].
  cbn [app split_spaces]. rewrite Hc. now apply IH.
Qed.

Lemma split_spaces_after_gap (c : N) (s : jsstring) :
  is_space c = false ->
  split_spaces (c :: s) true = split_spaces (c :: s) false.
Proof. intros Hc. cbn. now rewrite Hc. Qed.

Lemma word_head (t : jsstring) :
  word t -> exists c t', t = c :: t' /\ is_space c = false.
Proof.
  intros [Hne Ht]. destruct t as [|c t']; [contradiction|].
  cbn in Ht. apply andb_true_iff in Ht as [Hc _].
  apply negb_true_iff in Hc. now exists c, t'.
Qed.

Lemma word_last (t : jsstring) :
  word t -> exists t' c, t = t' ++ [c] /\ is_space c = false.
Proof.
  intros [Hne Ht]. destruct (exists_last Hne) as (t' & c & ->).
  rewrite forallb_app in Ht. apply andb_true_iff in Ht as [_ Hc].
  cbn in Hc. rewrite andb_true_r in Hc. apply negb_true_iff in Hc.
  now exists t', c.
Qed.

Lemma split_spaces_columns (more : list (jsstring * jsstring)) :
  forall first,
    word first -> Forall gap_and_word more ->
    split_spaces (columns_text first more) false = first :: map snd more.
Proof.
  unfold columns_text.
  induction more as [|[gap col] more IH]; intros first Hf Hm.
  - cbn. rewrite app_nil_r.
    rewrite <- (app_nil_r first) at 1.
    rewrite split_spaces_word by exact (proj2 Hf). cbn. now rewrite app_nil_r.
  - apply Forall_cons_iff in Hm as [(Hne & Hg & Hw) Hm]. cbn [fst snd] in *.
    cbn [map concat fst snd]. rewrite split_spaces_word by exact (proj2 Hf).
    destruct gap as [|g gap]; [contradiction|].
    unfold blank in Hg. cbn in Hg. apply andb_true_iff in Hg as [Hg1 Hg2].
    rewrite <- !app_assoc. cbn [app split_spaces]. rewrite Hg1.
    rewrite split_spaces_gap by exact Hg2.
    destruct (word_head col Hw) as (c & col' & -> & Hc).
    cbn [app]. rewrite split_spaces_after_gap by exact Hc.
    change (c :: col' ++ concat (map (fun gc => fst gc ++ snd gc) more))
      with ((c :: col') ++ concat (map (fun gc => fst gc ++ snd gc) more)).
    rewrite (IH (c :: col') Hw Hm). cbn [map snd]. now rewrite app_nil_r.
Qed.

Lemma columns_text_ends (more : list (jsstring * jsstring)) :
  forall first,
    word first -> Forall gap_and_word more ->
    exists body c, columns_text first more = body ++ [c] /\ is_space c = false.
Proof.
  unfold columns_text.
  induction more as [|[gap col] more IH]; intros first Hf Hm.
  - cbn. rewrite app_nil_r. now apply word_last.
  - apply Forall_cons_iff in Hm as [(_ & _ & Hw) Hm]. cbn [fst snd] in *.
    destruct (IH col Hw Hm) as (body & c & E & Hc).
    exists (first ++ gap ++ body), c. split; [|exact Hc].
    cbn [map concat fst snd]. rewrite <- !app_assoc. now rewrite E.
Qed.

Lemma forallb_rev_true {A} (p : A -> bool) (l : list A) :
  forallb p l = true -> forallb p (rev l) = true.
Proof.
  rewrite !forallb_forall. intros H x Hx. apply H. now apply in_rev.
Qed.

Lemma trim_columns lead first more trail :
  blank lead -> blank trail -> word first -> Forall gap_and_word more ->
  trim (lead ++ columns_text first more ++ trail) = columns_text first more.
Proof.
  intros Hl Ht Hf Hm. unfold trim.
  destruct (word_head first Hf) as (c & first' & -> & Hc).
  destruct (dropWhile_app is_space lead
              (columns_text (c :: first') more ++ trail) Hl) as [-> _];
    [exact Hc|].
  destruct (columns_text_ends more _ Hf Hm) as (body & d & -> & Hd).
  rewrite !rev_app_distr. cbn [rev app].
  destruct (dropWhile_app is_space (rev trail) (d :: rev body)) as [E _].
  - now apply forallb_rev_true.
  - exact Hd.
  - rewrite E. cbn [rev]. now rewrite rev_involutive.
Qed.

Lemma trim_blank (s : jsstring) : blank s -> trim s = [].
Proof.
  intros H. unfold trim.
  destruct (dropWhile_app is_space s [] H I) as [E _].
  rewrite app_nil_r in E. now rewrite E.
Qed.

(** ** The settings, the reply of [doctl] and the test command *)

Lemma or_default_not_zero (v : option Z) (d : Z) :
  d <> 0 -> or_default v d <> 0.
Proof.
  intros Hd. unfold or_default. destruct v as [z|]; [|exact Hd].
  destruct (Z.eqb_spec z 0); assumption.
Qed.



Lemma word_string_of_Z (n : Z) : word (string_of_Z n).
Proof.
  assert (H : forall m, 0 <= m ->
                        forallb (fun c => negb (is_space c)) (digits m) = true).
  { intros m Hm. destruct (digits_spec m Hm) as (_ & Hd & _).
    rewrite forallb_forall in *. intros c Hc.
    now rewrite (digit_not_space c (Hd c Hc)). }
  unfold string_of_Z. destruct (Z.ltb_spec n 0) as [L|L].
  - split; [discriminate|]. cbn. apply H. lia.
  - split; [|now apply H]. now destruct (digits_spec n L) as (_ & _ & Hne).
Qed.

Lemma createDroplet_data_columns lead first more trail :
  blank lead -> blank trail -> word first -> Forall gap_and_word more ->
  createDroplet_data (lead ++ columns_text first more ++ trail) =
  {| data_id := parseInt first;
     data_ip := option_map snd (nth_error more 1) |}.
Proof.
  intros Hl Ht Hf Hm. unfold createDroplet_data.
  rewrite trim_columns, split_spaces_columns by assumption.
  f_equal. now destruct more as [|gc [|gc' more]].
Qed.



(** *** The test command *)

Lemma remote_flag_inj (i j : Z) : remote_flag i = remote_flag j -> i = j.
Proof.
  unfold remote_flag. intros E. apply app_inv_head in E.
  apply app_inv_tail in E. now apply string_of_Z_inj.
Qed.

Lemma remote_flags_from_spec (count : nat) :
  forall i,
    length (remote_flags_from count i) = count /\
    (forall k, (k < count)%nat ->
               nth_error (remote_flags_from count i) k =
               Some (remote_flag (i + Z.of_nat k))) /\
    (forall f, In f (remote_flags_from count i) ->
               exists k, i <= k < i + Z.of_nat count /\ f = remote_flag k).
Proof.
  induction count as [|count IH]; intros i; cbn [remote_flags_from length].
  - split; [reflexivity|]. split; [lia | intros f []].
  - destruct (IH (i + 1)) as (Hl & Hn & Hi). split; [now rewrite Hl|]. split.
    + intros [|k] Hk; cbn [nth_error].
      * now rewrite Z.add_0_r.
      * rewrite Hn by lia. do 2 f_equal. lia.
    + intros f [<-|Hf].
      * exists i. split; [lia | reflexivity].
      * destruct (Hi f Hf) as (k & Hk & ->). exists k. split; [lia | reflexivity].
Qed.

Lemma remote_flags_from_NoDup (count : nat) :
  forall i, NoDup (remote_flags_from count i).
Proof.
  induction count as [|count IH]; intros i; cbn [remote_flags_from];
    constructor; [|apply IH].
  intros Hin. destruct (remote_flags_from_spec count (i + 1)) as (_ & _ & Hi).
  destruct (Hi _ Hin) as (k & Hk & E). apply remote_flag_inj in E. lia.
Qed.

Lemma word_app_l (a b : jsstring) :
  word a -> forallb (fun c => negb (is_space c)) b = true -> word (a ++ b).
Proof.
  intros [Hne Ha] Hb. split.
  - intros E. apply app_eq_nil in E as [E _]. contradiction.
  - now rewrite forallb_app, Ha, Hb.
Qed.

Lemma word_remote_flag (i : Z) : word (remote_flag i).
Proof.
  unfold remote_flag. apply word_app_l; [split; [discriminate | reflexivity]|].
  rewrite forallb_app. destruct (word_string_of_Z i) as [_ ->]. reflexivity.
Qed.

Lemma join_columns (first : jsstring) (rest : list jsstring) :
  join (lit " ") (first :: rest) =
  columns_text first (map (fun w => (lit " ", w)) rest).
Proof.
  unfold columns_text. revert first.
  induction rest as [|w rest IH]; intros first.
  - cbn. now rewrite app_nil_r.
  - change (join (lit " ") (first :: w :: rest))
      with (first ++ lit " " ++ join (lit " ") (w :: rest)).
    rewrite IH. cbn [map concat fst snd]. now rewrite <- !app_assoc.
Qed.

(** Words joined by single spaces are read back by cutting at white
    space. *)
Lemma split_spaces_join (first : jsstring) (rest : list jsstring) :
  word first -> Forall word rest ->
  split_spaces (join (lit " ") (first :: rest)) false = first :: rest.
Proof.
  intros Hf Hr. rewrite join_columns, split_spaces_columns.
  - now rewrite map_map, map_id.
  - exact Hf.
  - apply Forall_map. revert Hr. apply Forall_impl. intros w Hw.
    split; [discriminate|]. split; [reflexivity | exact Hw].
Qed.

(** X3: the test command.  It names every participant from 1 to the
    requested number once, as a remote one, in order, and nobody else;
    for a number that is not positive it names none.  When the conference
    address, the list of tests and the address of the hub hold no white
    space, the command is the eight fixed words and these flags, one
    space apart: cutting it at white space gives them back. *)
Theorem testCommand_names_each_participant :
  forall jitsiUrl testsToRun hubIp participants,
    length (remoteFlags participants) = Z.to_nat participants /\
    (forall i, 1 <= i <= participants ->
               nth_error (remoteFlags participants) (Z.to_nat (i - 1)) =
               Some (remote_flag i)) /\
    (forall f, In f (remoteFlags participants) ->
               exists i, 1 <= i <= participants /\ f = remote_flag i) /\
    NoDup (remoteFlags participants) /\
    (forallb (fun c => negb (is_space c)) jitsiUrl = true ->
     forallb (fun c => negb (is_space c)) testsToRun = true ->
     forallb (fun c => negb (is_space c)) (template_of hubIp) = true ->
     split_spaces (testCommand jitsiUrl testsToRun hubIp participants) false =
     test_words jitsiUrl testsToRun hubIp participants /\
     length (test_words jitsiUrl testsToRun hubIp participants) =
     (8 + Z.to_nat participants)%nat).
Proof.
  intros url tests hub p. unfold remoteFlags.
  destruct (remote_flags_from_spec (Z.to_nat p) 1) as (Hl & Hn & Hi).
  split; [exact Hl|]. split; [|split; [|split]].
  - intros i Hi'. rewrite Hn by lia. do 2 f_equal. lia.
  - intros f Hf. destruct (Hi f Hf) as (k & Hk & ->). exists k.
    split; [lia | reflexivity].
  - apply remote_flags_from_NoDup.
  - intros Hu Ht Hh. split.
    + unfold testCommand, test_words. cbn [app].
      apply split_spaces_join; [split; [discriminate | reflexivity]|].
      repeat (apply Forall_cons;
              [first [ split; [discriminate | reflexivity]
                     | apply word_app_l;
                       [split; [discriminate | reflexivity] | ] ]|]).
      * exact Hu.
      * exact Ht.
      * rewrite forallb_app, Hh. reflexivity.
      * apply Forall_forall. intros f Hf.
        destruct (Hi f Hf) as (k & _ & ->). apply word_remote_flag.
    + unfold test_words, remoteFlags. rewrite length_app, Hl. reflexivity.
Qed.

Lemma testCommand_witness :
  remoteFlags 3 =
  [remote_flag 1; remote_flag 2; remote_flag 3] /\
  split_spaces
    (testCommand (lit "https://meet.jit.si") (lit "UDPTest")
                 (Some (lit "10.0.0.1")) 3) false =
  test_words (lit "https://meet.jit.si") (lit "UDPTest")
             (Some (lit "10.0.0.1")) 3.
Proof.
  destruct (testCommand_names_each_participant
              (lit "https://meet.jit.si") (lit "UDPTest")
              (Some (lit "10.0.0.1")) 3) as (_ & _ & _ & _ & H).
  split; [reflexivity|]. apply H; reflexivity.
Defined.

(** ** The lines picked from the output *)

Lemma rx_Lit_end {R} (l : jsstring) (s : jsstring) (caps : list jsstring)
      (k : jsstring -> list jsstring -> option R) :
  rx (Lit_with chr_eq l) s caps k =
  if startsWith l s then k (skipn (length l) s) caps else None.
Proof.
  revert s. induction l as [|c l IH]; intros s; [reflexivity|].
  cbn [Lit_with rx]. destruct s as [|d s]; [reflexivity|].
  cbn [startsWith length skipn].
  unfold chr_eq at 1. destruct (N.eqb c d); [apply IH | reflexivity].
Qed.

Lemma startsWith_app (a b s : jsstring) :
  startsWith (a ++ b) s = startsWith a s && startsWith b (skipn (length a) s).
Proof.
  revert s. induction a as [|c a IH]; intros s; [reflexivity|].
  destruct s as [|d s]; [reflexivity|]. cbn [app startsWith length skipn].
  rewrite IH. now rewrite andb_assoc.
Qed.

Lemma startsWith_skipn (a s : jsstring) :
  startsWith a s = true -> s = a ++ skipn (length a) s.
Proof.
  intros H. apply startsWith_iff in H as [post ->].
  now rewrite skipn_app_exact.
Qed.

(** A greedy run to the end of what the class allows, after a tag. *)
Lemma tagged_star (p : N -> bool) (tag s : jsstring) :
  startsWith tag s = true ->
  star p (skipn (length tag) s)
       (fun s1 => Some (firstn (length s - length s1) s, @nil jsstring)) =
  Some (tag ++ takeWhile p (skipn (length tag) s), []).
Proof.
  intros Ht. rewrite star_greedy by discriminate. do 2 f_equal.
  apply firstn_consumed. rewrite <- app_assoc, <- take_drop_while.
  now apply startsWith_skipn.
Qed.

Lemma match_at_FAILURE_REASON (s : jsstring) :
  match_at FAILURE_REASON s =
  if startsWith (lit "ERROR:") s
  then Some (lit "ERROR:" ++ takeWhile not_newline (skipn 6 s), [])
  else if startsWith (lit "FAILED:") s
       then Some (lit "FAILED:" ++ takeWhile not_newline (skipn 7 s), [])
       else None.
Proof.
  unfold match_at, FAILURE_REASON, Lit. cbn [rx].
  rewrite !rx_Lit_end.
  change (lit "ERROR:") with (lit "ERROR" ++ lit ":").
  change (lit "FAILED:") with (lit "FAILED" ++ lit ":").
  rewrite !startsWith_app.
  assert (Hx : startsWith (lit "ERROR") s = true ->
               startsWith (lit "FAILED") s = false).
  { intros H. apply startsWith_iff in H as [post ->]. reflexivity. }
  destruct (startsWith (lit "ERROR") s) eqn:E1.
  - rewrite (Hx eq_refl). cbn [andb].
    change (length (lit "ERROR")) with 5%nat.
    destruct (startsWith (lit ":") (skipn 5 s)) eqn:E2; [|reflexivity].
    assert (Ht : startsWith (lit "ERROR" ++ lit ":") s = true)
      by (now rewrite startsWith_app, E1).
    pose proof (tagged_star not_newline _ s Ht) as H.
    change (length (lit "ERROR" ++ lit ":")) with 6%nat in H.
    rewrite skipn_skipn. change (length (lit ":") + 5)%nat with 6%nat.
    now rewrite H.
  - cbn [andb]. destruct (startsWith (lit "FAILED") s) eqn:E3; [|reflexivity].
    cbn [andb]. change (length (lit "FAILED")) with 6%nat.
    destruct (startsWith (lit ":") (skipn 6 s)) eqn:E2; [|reflexivity].
    assert (Ht : startsWith (lit "FAILED" ++ lit ":") s = true)
      by (now rewrite startsWith_app, E3).
    pose proof (tagged_star not_newline _ s Ht) as H.
    change (length (lit "FAILED" ++ lit ":")) with 7%nat in H.
    rewrite skipn_skipn. change (length (lit ":") + 6)%nat with 7%nat.
    now rewrite H.
Qed.

Lemma match_at_ERROR_LINE (s : jsstring) :
  match_at ERROR_LINE s =
  if startsWith (lit "ERROR") s
  then Some (lit "ERROR" ++ takeWhile is_dot (skipn 5 s), [])
  else if startsWith (lit "FAILED") s
       then Some (lit "FAILED" ++ takeWhile is_dot (skipn 6 s), [])
       else None.
Proof.
  unfold match_at, ERROR_LINE, Lit. cbn [rx]. rewrite !rx_Lit_end.
  destruct (startsWith (lit "ERROR") s) eqn:E1.
  - now rewrite (tagged_star is_dot (lit "ERROR") s E1).
  - destruct (startsWith (lit "FAILED") s) eqn:E2; [|reflexivity].
    now rewrite (tagged_star is_dot (lit "FAILED") s E2).
Qed.

(** Every match of a global search is a match at some place of the
    input. *)
Lemma match_all_from_occurs (r : regex) (s : jsstring) :
  forall (skip : nat) (m : jsstring),
    In m (match_all_from r s skip) ->
    exists pre s' caps, s = pre ++ s' /\ match_at r s' = Some (m, caps).
Proof.
  induction s as [|c s IH]; intros skip m; cbn [match_all_from].
  - destruct skip; [|intros []].
    destruct (match_at r []) as [[m' caps]|] eqn:E; [|intros []].
    intros [<-|[]]. now exists [], [], caps.
  - assert (Hs : forall n, In m (match_all_from r s n) ->
                           exists pre s' caps,
                             c :: s = pre ++ s' /\
                             match_at r s' = Some (m, caps)).
    { intros n H. apply IH in H as (pre & s' & caps & -> & H).
      now exists (c :: pre), s', caps. }
    destruct skip as [|n]; [|apply Hs].
    destruct (match_at r (c :: s)) as [[m' caps]|] eqn:E; [|apply Hs].
    intros [<-|H]; [now exists [], (c :: s), caps | now apply Hs in H].
Qed.

(** A global search finds nothing exactly when there is no match
    anywhere. *)
Lemma match_all_nil (r : regex) (s : jsstring) :
  match_all r s = [] <->
  forall pre s', s = pre ++ s' -> match_at r s' = None.
Proof.
  unfold match_all. split.
  - induction s as [|c s IH]; cbn [match_all_from]; intros H pre s' E.
    + apply eq_sym, app_eq_nil in E as [_ ->].
      destruct (match_at r []) as [[m caps]|]; [discriminate | reflexivity].
    + destruct (match_at r (c :: s)) as [[m caps]|] eqn:Em; [discriminate|].
      destruct pre as [|d pre]; cbn [app] in E.
      * now subst s'.
      * injection E as _ E. exact (IH H pre s' E).
  - intros H. induction s as [|c s IH]; cbn [match_all_from].
    + now rewrite (H [] [] eq_refl).
    + rewrite (H [] (c :: s) eq_refl). apply IH.
      intros pre s' E. apply (H (c :: pre) s'). cbn. now rewrite E.
Qed.

Section TaggedRuns.
Variable r : regex.
Variable tags : list jsstring.
Variable p : N -> bool.
Hypothesis match_at_tagged :
  forall s m caps,
    match_at r s = Some (m, caps) ->
    exists tag, In tag tags /\ startsWith tag s = true /\
                m = tag ++ takeWhile p (skipn (length tag) s).
Hypothesis no_match_no_tag :
  forall s, match_at r s = None <->
            forall tag, In tag tags -> startsWith tag s = false.

Lemma match_all_tagged (output m : jsstring) :
  In m (match_all r output) -> tagged_run tags p output m.
Proof.
  intros H. apply match_all_from_occurs in H as (pre & s' & caps & -> & H).
  apply match_at_tagged in H as (tag & Hin & Ht & ->).
  exists pre, tag, (takeWhile p (skipn (length tag) s')),
         (dropWhile p (skipn (length tag) s')).
  split; [|split; [exact Hin|split; [reflexivity|split]]].
  - now rewrite <- take_drop_while, <- startsWith_skipn.
  - apply takeWhile_all.
  - apply dropWhile_stops.
Qed.

Lemma match_all_no_tag (output : jsstring) :
  match_all r output = [] <->
  forall tag, In tag tags -> ~ occurs_in tag output.
Proof.
  rewrite match_all_nil. split.
  - intros H tag Hin (pre & post & ->).
    pose proof (H pre (tag ++ post) eq_refl) as Hn.
    apply no_match_no_tag with (tag := tag) in Hn; [|exact Hin].
    assert (Ht : startsWith tag (tag ++ post) = true)
      by (apply startsWith_iff; now exists post).
    congruence.
  - intros H pre s' ->. apply no_match_no_tag. intros tag Hin.
    destruct (startsWith tag s') eqn:E; [|reflexivity].
    apply startsWith_iff in E as [post ->].
    destruct (H tag Hin). now exists pre, post.
Qed.
End TaggedRuns.

Lemma failure_reasons_tagged (output m : jsstring) :
  In m (match_all FAILURE_REASON output) -> failure_reason_in output m.
Proof.
  apply match_all_tagged. intros s m' caps. rewrite match_at_FAILURE_REASON.
  destruct (startsWith (lit "ERROR:") s) eqn:E1.
  - intros H. injection H as <- _. exists (lit "ERROR:"). cbn [In]. auto.
  - destruct (startsWith (lit "FAILED:") s) eqn:E2; [|discriminate].
    intros H. injection H as <- _. exists (lit "FAILED:"). cbn [In]. auto.
Qed.

Lemma failure_reasons_none (output : jsstring) :
  match_all FAILURE_REASON output = [] <->
  ~ occurs_in (lit "ERROR:") output /\ ~ occurs_in (lit "FAILED:") output.
Proof.
  rewrite (match_all_no_tag FAILURE_REASON [lit "ERROR:"; lit "FAILED:"]).
  - split.
    + intros H. split; apply H; cbn [In]; auto.
    + intros [H1 H2] tag [<-|[<-|[]]]; assumption.
  - intros s. rewrite match_at_FAILURE_REASON.
    destruct (startsWith (lit "ERROR:") s) eqn:E1.
    + split; [discriminate|]. intros H.
      rewrite (H (lit "ERROR:")) in E1; [discriminate | cbn [In]; auto].
    + destruct (startsWith (lit "FAILED:") s) eqn:E2.
      * split; [discriminate|]. intros H.
        rewrite (H (lit "FAILED:")) in E2; [discriminate | cbn [In]; auto].
      * split; [|reflexivity]. intros _ tag [<-|[<-|[]]]; assumption.
Qed.

Lemma error_lines_tagged (output m : jsstring) :
  In m (match_all ERROR_LINE output) -> error_line_in output m.
Proof.
  apply match_all_tagged. intros s m' caps. rewrite match_at_ERROR_LINE.
  destruct (startsWith (lit "ERROR") s) eqn:E1.
  - intros H. injection H as <- _. exists (lit "ERROR"). cbn [In]. auto.
  - destruct (startsWith (lit "FAILED") s) eqn:E2; [|discriminate].
    intros H. injection H as <- _. exists (lit "FAILED"). cbn [In]. auto.
Qed.

Lemma error_lines_none (output : jsstring) :
  match_all ERROR_LINE output = [] <->
  ~ occurs_in (lit "ERROR") output /\ ~ occurs_in (lit "FAILED") output.
Proof.
  rewrite (match_all_no_tag ERROR_LINE [lit "ERROR"; lit "FAILED"]).
  - split.
    + intros H. split; apply H; cbn [In]; auto.
    + intros [H1 H2] tag [<-|[<-|[]]]; assumption.
  - intros s. rewrite match_at_ERROR_LINE.
    destruct (startsWith (lit "ERROR") s) eqn:E1.
    + split; [discriminate|]. intros H.
      rewrite (H (lit "ERROR")) in E1; [discriminate | cbn [In]; auto].
    + destruct (startsWith (lit "FAILED") s) eqn:E2.
      * split; [discriminate|]. intros H.
        rewrite (H (lit "FAILED")) in E2; [discriminate | cbn [In]; auto].
      * split; [|reflexivity]. intros _ tag [<-|[<-|[]]]; assumption.
Qed.

Lemma firstn_incl {A} (n : nat) (l : list A) (x : A) :
  In x (firstn n l) -> In x l.
Proof.
  rewrite <- (firstn_skipn n l) at 2. intros H. apply in_or_app. now left.
Qed.

(** X5: the failure reasons of the metrics.  The field is always there,
    with at most three entries: the first three pieces of the output,
    from left to right, made of [ERROR:] or [FAILED:] and the rest of
    that line.  It is empty exactly when the output holds neither
    [ERROR:] nor [FAILED:]. *)
Theorem failureReasons_are_tagged_lines :
  forall output,
  exists m reasons,
    parseTestMetrics output = Ok m /\
    failureReasons m = Some reasons /\
    (length reasons <= 3)%nat /\
    Forall (failure_reason_in output) reasons /\
    (reasons = [] <->
     ~ occurs_in (lit "ERROR:") output /\ ~ occurs_in (lit "FAILED:") output).
Proof.
  intros output. destruct (parseTestMetrics_total output) as [pj E].
  eexists _, _. split; [exact E|]. cbn [failureReasons].
  split; [reflexivity|]. split; [|split].
  - rewrite length_firstn. lia.
  - apply Forall_forall. intros r Hr. apply failure_reasons_tagged.
    revert Hr. apply firstn_incl.
  - rewrite <- failure_reasons_none.
    destruct (match_all FAILURE_REASON output) as [|a l]; cbn; [tauto|].
    split; discriminate.
Qed.

Lemma failureReasons_witness :
  let output :=
    lit "Tests run: 3" ++ [10%N] ++ lit "FAILED: join" ++ [10%N] ++
    lit "ERROR: no media" ++ [10%N] in
  exists m,
    parseTestMetrics output = Ok m /\
    failureReasons m = Some [lit "FAILED: join"; lit "ERROR: no media"] /\
    Forall (failure_reason_in output)
           [lit "FAILED: join"; lit "ERROR: no media"].
Proof.
  cbv zeta.
  destruct (failureReasons_are_tagged_lines
              (lit "Tests run: 3" ++ [10%N] ++ lit "FAILED: join" ++ [10%N] ++
               lit "ERROR: no media" ++ [10%N]))
    as (m & reasons & E & Hr & _ & Hall & _).
  exists m. split; [exact E|].
  assert (Hm : failureReasons m =
               Some [lit "FAILED: join"; lit "ERROR: no media"]).
  { vm_compute in E. injection E as <-. reflexivity. }
  split; [exact Hm|]. rewrite Hm in Hr. injection Hr as <-. exact Hall.
Defined.

(** ** The count of participants that joined *)

Lemma rx_LitI_end {R} (l : jsstring) (s : jsstring) (caps : list jsstring)
      (k : jsstring -> list jsstring -> option R) :
  rx (Lit_with chr_eq_i l) s caps k =
  if startsWith_i l s then k (skipn (length l) s) caps else None.
Proof.
  revert s. induction l as [|c l IH]; intros s; [reflexivity|].
  cbn [Lit_with rx]. destruct s as [|d s]; [reflexivity|].
  cbn [startsWith_i length skipn].
  destruct (chr_eq_i c d); [apply IH | reflexivity].
Qed.

Lemma space_not_letter (p c : N) :
  (97 <=? p)%N && (p <=? 122)%N = true -> is_space c = true ->
  chr_eq_i p c = false.
Proof.
  intros Hp Hc. unfold chr_eq_i, upcase. rewrite Hp.
  apply andb_true_iff in Hp as [H1 H2]. apply N.leb_le in H1, H2.
  destruct ((97 <=? c)%N && (c <=? 122)%N) eqn:E.
  - apply andb_true_iff in E as [E1 E2]. apply N.leb_le in E1, E2.
    exfalso. revert Hc. unfold is_space.
    repeat (rewrite orb_true_iff || rewrite andb_true_iff
            || rewrite N.leb_le || rewrite N.eqb_eq). lia.
  - apply N.eqb_neq. intros <-. revert Hc. unfold is_space.
    repeat (rewrite orb_true_iff || rewrite andb_true_iff
            || rewrite N.leb_le || rewrite N.eqb_eq). lia.
Qed.

Lemma letter_s_not_space (c : N) : chr_eq_i 115 c = true -> is_space c = false.
Proof.
  intros H. destruct (is_space c) eqn:E; [|reflexivity].
  now rewrite (space_not_letter 115 c eq_refl E) in H.
Qed.

Lemma match_at_JOINED (s : jsstring) : match_at JOINED s = joined_closed s.
Proof.
  unfold match_at, JOINED, joined_closed, LitI.
  match goal with |- context [Seq (Plus is_space) ?t] => set (tail := t) end.
  cbn [rx Plus].
  destruct s as [|c s0]; [reflexivity|].
  destruct (is_digit c); [|reflexivity].
  rewrite star_commit.
  2:{ intros c' s' Hc'. now rewrite (digit_not_space _ Hc'). }
  destruct (dropWhile is_digit s0) as [|c2 s2] eqn:E0; [reflexivity|].
  destruct (is_space c2); [|reflexivity].
  unfold tail. cbn [rx].
  rewrite star_commit.
  2:{ intros c' s' Hc'. cbn [Lit_with rx lit list_ascii_of_string map].
      change (N_of_ascii "p") with 112%N.
      now rewrite (space_not_letter 112 c' eq_refl Hc'). }
  rewrite rx_LitI_end. cbv zeta.
  destruct (startsWith_i (lit "participant") (dropWhile is_space s2));
    [|reflexivity].
  change (length (lit "participant")) with 11%nat.
  set (s4 := skipn 11 (dropWhile is_space s2)).
  set (k0 := fun (s1 : jsstring) (caps : list jsstring) =>
               Some (firstn (length (c :: s0) - length s1) (c :: s0), caps)).
  set (caps1 := [] ++ [firstn (length (c :: s0) - length (c2 :: s2)) (c :: s0)]).
  set (K3 := fun (s1 : jsstring) (caps : list jsstring) =>
               match s1 with
               | c5 :: s5 =>
                   if is_space c5
                   then star is_space s5
                          (fun s6 => rx (Lit_with chr_eq_i (lit "joined")) s6 caps k0)
                   else None
               | [] => None
               end).
  change (match
             match s4 with
             | c5 :: s5 => if chr_eq_i 115 c5 then K3 s5 caps1 else None
             | [] => None
             end
           with
           | Some x => Some x
           | None => K3 s4 caps1
           end =
          match after_s s4 with
          | c5 :: s5 =>
              if is_space c5 then
                if startsWith_i (lit "joined") (dropWhile is_space s5)
                then Some (firstn (length (c :: s0) -
                                   length (skipn 6 (dropWhile is_space s5)))
                                  (c :: s0), caps1)
                else None
              else None
          | [] => None
          end).
  assert (HK : forall s1,
             K3 s1 caps1 =
             match s1 with
             | c5 :: s5 =>
                 if is_space c5 then
                   if startsWith_i (lit "joined") (dropWhile is_space s5)
                   then Some (firstn (length (c :: s0) -
                                      length (skipn 6 (dropWhile is_space s5)))
                                     (c :: s0), caps1)
                   else None
                 else None
             | [] => None
             end).
  { intros [|c5 s5]; [reflexivity|]. unfold K3.
    destruct (is_space c5); [|reflexivity].
    rewrite star_commit.
    2:{ intros c' s' Hc'. cbn [lit list_ascii_of_string map Lit_with rx].
        change (N_of_ascii "j") with 106%N.
        now rewrite (space_not_letter 106 c' eq_refl Hc'). }
    now rewrite rx_LitI_end. }
  unfold after_s. destruct s4 as [|c4 s5].
  - now rewrite HK.
  - destruct (chr_eq_i 115 c4) eqn:E4.
    + rewrite !HK. rewrite (letter_s_not_space c4 E4).
      now destruct (match s5 with _ :: _ => _ | [] => None end).
    + now rewrite HK.
Qed.

Lemma startsWith_i_iff (pat s : jsstring) :
  startsWith_i pat s = true <->
  exists P, same_letters pat P /\ s = P ++ skipn (length pat) s.
Proof.
  unfold same_letters. revert s.
  induction pat as [|p pat IH]; intros s; cbn [startsWith_i length skipn].
  - split; [intros _; exists []; split; [constructor | reflexivity] | reflexivity].
  - destruct s as [|c s].
    + split; [discriminate|]. intros (P & HP & E). inversion HP; subst.
      discriminate.
    + rewrite andb_true_iff, IH. split.
      * intros (Hc & P & HP & E). exists (c :: P).
        split; [now constructor | cbn; now rewrite <- E].
      * intros (P & HP & E). inversion HP as [|p' c' pat' P' Hc HP']; subst.
        cbn [app] in E. injection E as -> E.
        split; [exact Hc|]. now exists P'.
Qed.

Lemma same_letters_length (pat P : jsstring) :
  same_letters pat P -> length P = length pat.
Proof. intros H. symmetry. exact (Forall2_length H). Qed.

Lemma startsWith_i_app (pat P post : jsstring) :
  same_letters pat P ->
  startsWith_i pat (P ++ post) = true /\ skipn (length pat) (P ++ post) = post.
Proof.
  intros H. split.
  - apply startsWith_i_iff. exists P. split; [exact H|].
    rewrite <- (same_letters_length _ _ H). now rewrite skipn_app_exact.
  - rewrite <- (same_letters_length _ _ H). apply skipn_app_exact.
Qed.

Lemma joined_phrase_number (tok : jsstring) (n : Z) :
  joined_phrase tok n -> parse_digits (takeWhile is_digit tok) = n.
Proof.
  intros (d & ws1 & P & S & ws2 & J & -> & _ & Hd & -> & Hne & Hws & _).
  destruct ws1 as [|c ws1]; [contradiction|].
  unfold blank in Hws. cbn in Hws. apply andb_true_iff in Hws as [Hc _].
  destruct (dropWhile_app is_digit d ((c :: ws1) ++ P ++ S ++ ws2 ++ J) Hd)
    as [_ ->]; [|reflexivity].
  cbn. destruct (is_digit c) eqn:E; [|reflexivity].
  apply digit_not_space in E. congruence.
Qed.

(** What the matcher finds is a phrase. *)
Lemma joined_closed_sound (s m : jsstring) (caps : list jsstring) :
  joined_closed s = Some (m, caps) ->
  exists post n, s = m ++ post /\ joined_phrase m n.
Proof.
  unfold joined_closed. destruct s as [|c s0]; [discriminate|].
  destruct (is_digit c) eqn:Hc; [|discriminate].
  pose proof (take_drop_while is_digit s0) as E0.
  pose proof (takeWhile_all is_digit s0) as Hd.
  destruct (dropWhile is_digit s0) as [|c2 s2]; [discriminate|].
  destruct (is_space c2) eqn:Hc2; [|discriminate]. cbv zeta.
  pose proof (take_drop_while is_space s2) as E2.
  pose proof (takeWhile_all is_space s2) as Hw1.
  destruct (startsWith_i (lit "participant") (dropWhile is_space s2)) eqn:Hp;
    [|discriminate].
  apply startsWith_i_iff in Hp as (P & HP & E3).
  change (length (lit "participant")) with 11%nat in E3.
  set (s4 := skipn 11 (dropWhile is_space s2)) in *.
  assert (HS : exists S, s4 = S ++ after_s s4 /\
                         (S = [] \/ same_letters (lit "s") S)).
  { unfold after_s. destruct s4 as [|c4 s5]; [exists []; auto|].
    destruct (chr_eq_i 115 c4) eqn:E4.
    - exists [c4]. split; [reflexivity|]. right. repeat constructor. exact E4.
    - exists []. auto. }
  destruct HS as (S & E4 & HS).
  destruct (after_s s4) as [|c5 s5]; [discriminate|].
  destruct (is_space c5) eqn:Hc5; [|discriminate].
  pose proof (take_drop_while is_space s5) as E5.
  pose proof (takeWhile_all is_space s5) as Hw2.
  destruct (startsWith_i (lit "joined") (dropWhile is_space s5)) eqn:Hj;
    [|discriminate].
  apply startsWith_i_iff in Hj as (J & HJ & E6).
  change (length (lit "joined")) with 6%nat in E6.
  set (rest := skipn 6 (dropWhile is_space s5)) in *.
  set (d := c :: takeWhile is_digit s0).
  set (ws1 := c2 :: takeWhile is_space s2).
  set (ws2 := c5 :: takeWhile is_space s5).
  assert (Hs : c :: s0 = (d ++ ws1 ++ P ++ S ++ ws2 ++ J) ++ rest).
  { unfold d, ws1, ws2. cbn [app]. repeat (rewrite <- app_assoc; cbn [app]).
    rewrite <- E6, <- E5, <- E4, <- E3, <- E2, <- E0. reflexivity. }
  rewrite (firstn_consumed _ _ _ Hs).
  intros H. injection H as <- _.
  exists rest, (parse_digits d). split; [exact Hs|].
  exists d, ws1, P, S, ws2, J. unfold d, ws1, ws2, blank.
  repeat split; try discriminate; try assumption;
    cbn [forallb]; now rewrite ?Hc, ?Hc2, ?Hc5.
Qed.

(** A phrase at the head of the input is what the matcher finds. *)
Lemma joined_closed_complete (tok post : jsstring) (n : Z) :
  joined_phrase tok n -> exists caps, joined_closed (tok ++ post) = Some (tok, caps).
Proof.
  intros (d & ws1 & P & S & ws2 & J & -> & Hdne & Hd & _ & Hw1ne & Hw1 & HP
          & HS & Hw2ne & Hw2 & HJ).
  destruct d as [|c d]; [contradiction|].
  destruct ws1 as [|c2 ws1]; [contradiction|].
  destruct ws2 as [|c5 ws2]; [contradiction|].
  unfold blank in *. cbn [forallb] in Hd, Hw1, Hw2.
  apply andb_true_iff in Hd as [Hc Hd].
  apply andb_true_iff in Hw1 as [Hc2 Hw1].
  apply andb_true_iff in Hw2 as [Hc5 Hw2].
  assert (HPne : exists p P', P = p :: P' /\ chr_eq_i 112 p = true).
  { inversion HP as [|? p ? P' Hp _]; subst. now exists p, P'. }
  destruct HPne as (p & P' & -> & Hp).
  assert (HJne : exists j J', J = j :: J' /\ chr_eq_i 106 j = true).
  { inversion HJ as [|? j ? J' Hj _]; subst. now exists j, J'. }
  destruct HJne as (j & J' & -> & Hj).
  unfold joined_closed.
  repeat rewrite <- app_assoc. cbn [app]. rewrite Hc.
  destruct (dropWhile_app is_digit d
              (c2 :: ws1 ++ p :: P' ++ S ++ c5 :: ws2 ++ j :: J' ++ post) Hd)
    as [-> _].
  { cbn. destruct (is_digit c2) eqn:E; [|reflexivity].
    apply digit_not_space in E. congruence. }
  rewrite Hc2. cbv zeta.
  destruct (dropWhile_app is_space ws1
              (p :: P' ++ S ++ c5 :: ws2 ++ j :: J' ++ post) Hw1) as [-> _].
  { cbn. destruct (is_space p) eqn:E; [|reflexivity].
    now rewrite (space_not_letter 112 p eq_refl E) in Hp. }
  destruct (startsWith_i_app (lit "participant") (p :: P')
              (S ++ c5 :: ws2 ++ j :: J' ++ post) HP) as [Hst Hsk].
  cbn [app] in Hst, Hsk. rewrite Hst.
  change (length (lit "participant")) with 11%nat in Hsk. rewrite Hsk.
  assert (Hafter : after_s (S ++ c5 :: ws2 ++ j :: J' ++ post) =
                   c5 :: ws2 ++ j :: J' ++ post).
  { destruct HS as [->|HS].
    - cbn [app after_s]. destruct (chr_eq_i 115 c5) eqn:E; [|reflexivity].
      apply letter_s_not_space in E. congruence.
    - inversion HS as [|? c4 ? S' H4 HS']; subst. inversion HS'; subst.
      cbn [app after_s]. now rewrite H4. }
  rewrite Hafter, Hc5.
  destruct (dropWhile_app is_space ws2 (j :: J' ++ post) Hw2) as [-> _].
  { cbn. destruct (is_space j) eqn:E; [|reflexivity].
    now rewrite (space_not_letter 106 j eq_refl E) in Hj. }
  destruct (startsWith_i_app (lit "joined") (j :: J') post HJ) as [Hst' Hsk'].
  cbn [app] in Hst', Hsk'. rewrite Hst'.
  change (length (lit "joined")) with 6%nat in Hsk'. rewrite Hsk'.
  eexists. do 2 f_equal.
  apply firstn_consumed. cbn [app].
  repeat (rewrite <- app_assoc; cbn [app]). reflexivity.
Qed.

(** A global search that finds nothing from some place on: there is no
    match from there on. *)
Lemma match_all_from_nil (r : regex) (s : jsstring) :
  forall skip,
    match_all_from r s skip = [] ->
    forall pre s', s = pre ++ s' -> (skip <= length pre)%nat ->
                   match_at r s' = None.
Proof.
  induction s as [|c s IH]; intros skip H pre s' E Hskip;
    cbn [match_all_from] in H.
  - apply eq_sym, app_eq_nil in E as [-> ->]. cbn in Hskip.
    destruct skip; [|lia].
    destruct (match_at r []) as [[m caps]|]; [discriminate | reflexivity].
  - destruct skip as [|n].
    + destruct (match_at r (c :: s)) as [[m caps]|] eqn:Em; [discriminate|].
      destruct pre as [|d pre]; cbn [app] in E; [now subst s'|].
      injection E as _ E. apply (IH 0%nat H pre s' E). lia.
    + destruct pre as [|d pre]; [cbn in Hskip; lia|].
      cbn [app length] in *. injection E as _ E.
      apply (IH n H pre s' E). lia.
Qed.

Lemma cons_is_snoc {A} (x m : A) (t l : list A) :
  x :: t = l ++ [m] ->
  (t = [] /\ l = [] /\ x = m) \/ (exists l', l = x :: l' /\ t = l' ++ [m]).
Proof.
  destruct l as [|y l]; cbn [app]; intros E; injection E as -> E.
  - left. auto.
  - right. now exists l.
Qed.

(** The last match of a global search: where it is, and that there is
    no match from its end on. *)
Lemma match_all_from_last (r : regex) (s : jsstring) :
  forall skip l m,
    match_all_from r s skip = l ++ [m] ->
    exists pre post caps,
      s = pre ++ m ++ post /\ match_at r (m ++ post) = Some (m, caps) /\
      forall pre' s',
        s = pre' ++ s' ->
        (length pre + Nat.max 1 (length m) <= length pre')%nat ->
        match_at r s' = None.
Proof.
  induction s as [|c s IH]; intros skip l m H; cbn [match_all_from] in H.
  - destruct skip; [|now destruct l].
    destruct (match_at r []) as [[m' caps]|] eqn:Em; [|now destruct l].
    apply cons_is_snoc in H as [(_ & -> & ->)|(l' & _ & H)];
      [|now destruct l'].
    destruct (match_at_prefix _ _ _ _ Em) as [s1 E].
    apply eq_sym, app_eq_nil in E as [-> ->].
    exists [], [], caps. split; [reflexivity|]. split; [exact Em|].
    intros pre' s' E Hlen. apply eq_sym, app_eq_nil in E as [-> _].
    cbn in Hlen. lia.
  - assert (Hshift : forall n,
               match_all_from r s n = l ++ [m] ->
               exists pre post caps,
                 c :: s = pre ++ m ++ post /\
                 match_at r (m ++ post) = Some (m, caps) /\
                 forall pre' s',
                   c :: s = pre' ++ s' ->
                   (length pre + Nat.max 1 (length m) <= length pre')%nat ->
                   match_at r s' = None).
    { intros n Hn. destruct (IH n l m Hn) as (pre & post & caps & E & Hm & Hno).
      exists (c :: pre), post, caps. split; [cbn; now rewrite E|].
      split; [exact Hm|]. intros pre' s' E' Hlen.
      destruct pre' as [|d pre']; [cbn [length] in Hlen; lia|].
      cbn [app length] in *. injection E' as _ E'.
      apply (Hno pre' s' E'). lia. }
    destruct skip as [|n]; [|now apply Hshift in H].
    destruct (match_at r (c :: s)) as [[m0 caps]|] eqn:Em;
      [|now apply Hshift in H].
    apply cons_is_snoc in H as [(Hnil & -> & ->)|(l' & -> & H)].
    + destruct (match_at_prefix _ _ _ _ Em) as [post E].
      exists [], post, caps. split; [exact E|].
      split; [now rewrite <- E|]. intros pre' s' E' Hlen.
      destruct pre' as [|d pre']; [cbn [length] in Hlen; lia|].
      cbn [app length] in *. injection E' as _ E'.
      apply (match_all_from_nil r s _ Hnil pre' s' E'). lia.
    + destruct (IH _ l' m H) as (pre & post & caps' & E & Hm & Hno).
      exists (c :: pre), post, caps'. split; [cbn; now rewrite E|].
      split; [exact Hm|]. intros pre' s' E' Hlen.
      destruct pre' as [|d pre']; [cbn [length] in Hlen; lia|].
      cbn [app length] in *. injection E' as _ E'.
      apply (Hno pre' s' E'). lia.
Qed.

Lemma search_DIGITS_head (c : N) (s : jsstring) :
  is_digit c = true ->
  search DIGITS (c :: s) = Some (takeWhile is_digit (c :: s), []).
Proof.
  intros Hc. cbn [search]. unfold match_at, DIGITS. cbn [rx Plus].
  rewrite Hc, star_greedy by discriminate. do 2 f_equal.
  cbn [takeWhile]. rewrite Hc.
  apply (firstn_consumed (c :: takeWhile is_digit s)). cbn [app].
  now rewrite <- take_drop_while.
Qed.



(** ** The result of one step *)

Lemma executor_cases (w : world) (t : nat) :
  (exists output, executor_returns w t output) \/
  (exists e, executor_raises w t e).
Proof.
  unfold executor_returns, executor_raises.
  destruct (ssh w t) as [m|[out err]]; [right; now exists m|].
  destruct err as [|c err].
  - left. exists out, []. auto.
  - destruct (includes (c :: err) (lit "Warning")) eqn:E.
    + left. exists out, (c :: err). auto.
    + right. eexists. split; [discriminate|]. split; reflexivity.
Qed.

(** The result object of a step, field by field. *)
Lemma runSingleTest_result (w : world) (p : Z) (st : state) :
  let t := length (trace st) in
  exists x st',
    runSingleTest w p st = (Ok x, st') /\
    participants x = p /\
    timestamp x = clock w (t + 1) /\
    duration x = clock w (t + 3) - clock w t /\
    st' = log_call Now (log_call (RemoteScript (hubIp st) (TestRun p))
                                 (log_call Now (log_call Now st))) /\
    ((exists e,
         executor_raises w (t + 2) e /\
         success x = false /\ errors x = [e] /\ metrics x = no_metrics) \/
     (exists output m,
         executor_returns w (t + 2) output /\
         parseTestMetrics output = Ok m /\
         success x = classify output /\ metrics x = m /\
         errors x = if classify output then [] else error_lines output)).
Proof.
  cbv zeta.
  unfold runSingleTest, bind at 1, now at 1, bind at 1, emit at 1, ret at 1.
  cbv beta iota.
  unfold bind at 1, now at 1, bind at 1, emit at 1, ret at 1.
  cbv beta iota.
  set (st2 := log_call Now (log_call Now st)).
  assert (L2 : length (trace st2) = (length (trace st) + 2)%nat).
  { unfold st2. cbn [log_call trace]. rewrite !length_app. cbn. lia. }
  assert (L1 : length (trace (log_call Now st)) = (length (trace st) + 1)%nat).
  { cbn [log_call trace]. rewrite !length_app. cbn. lia. }
  unfold bind at 1, try_test at 1. cbv beta iota. cbn [participants].
  destruct (executeRemoteScript_cases w (hubIp st2) (TestRun p) st2)
    as [(out & Ho & ->)|(e & He & ->)]; rewrite L2 in *.
  - destruct (parseTestMetrics_total out) as [pj Em]. rewrite Em.
    unfold bind at 1, now at 1, bind at 1, emit at 1, ret. cbv beta iota.
    eexists _, _. split; [reflexivity|].
    assert (L3 : length (trace (log_call (RemoteScript (hubIp st2) (TestRun p)) st2))
                 = (length (trace st) + 3)%nat).
    { cbn [log_call trace]. rewrite length_app, L2. cbn. lia. }
    rewrite L3, L1.
    split; [destruct (classify out); reflexivity|].
    split; [destruct (classify out); reflexivity|].
    split; [destruct (classify out); reflexivity|].
    split; [reflexivity|].
    right. eexists out, _. split; [exact Ho|]. split; [exact Em|].
    destruct (classify out); repeat split; reflexivity.
  - unfold bind at 1, now at 1, bind at 1, emit at 1, ret. cbv beta iota.
    eexists _, _. split; [reflexivity|].
    assert (L3 : length (trace (log_call (RemoteScript (hubIp st2) (TestRun p)) st2))
                 = (length (trace st) + 3)%nat).
    { cbn [log_call trace]. rewrite length_app, L2. cbn. lia. }
    rewrite L3, L1.
    split; [reflexivity|]. split; [reflexivity|]. split; [reflexivity|].
    split; [reflexivity|].
    left. exists e. repeat split. exact He.
Qed.

Lemma error_lines_spec (output : jsstring) :
  (length (error_lines output) <= 5)%nat /\
  Forall (error_line_in output) (error_lines output) /\
  (error_lines output = [] <->
   ~ occurs_in (lit "ERROR") output /\ ~ occurs_in (lit "FAILED") output).
Proof.
  unfold error_lines. split; [rewrite length_firstn; lia|]. split.
  - apply Forall_forall. intros r Hr. apply error_lines_tagged.
    revert Hr. apply firstn_incl.
  - rewrite <- error_lines_none.
    destruct (match_all ERROR_LINE output) as [|a l]; cbn; [tauto|].
    split; discriminate.
Qed.

(** X6: the errors of a step.  A step returns a result, never an
    exception, with at most five errors, and a successful step has none.
    When the executor raises, the only error is its message.  When it
    returns an output that is classified as a failure, the errors are the
    first five pieces of the output made of [ERROR] or [FAILED] and the
    rest of that line, so a failed step has no error at all when its
    output holds neither word. *)
Theorem runSingleTest_errors :
  forall (w : world) (p : Z) (st : state),
  exists x st',
    runSingleTest w p st = (Ok x, st') /\
    (length (errors x) <= 5)%nat /\
    (success x = true -> errors x = []) /\
    (forall e, executor_raises w (length (trace st) + 2) e ->
               errors x = [e]) /\
    (forall output,
        executor_returns w (length (trace st) + 2) output ->
        success x = false ->
        errors x = error_lines output /\
        Forall (error_line_in output) (errors x) /\
        (errors x = [] <->
         ~ occurs_in (lit "ERROR") output /\
         ~ occurs_in (lit "FAILED") output)).
Proof.
  intros w p st.
  destruct (runSingleTest_result w p st)
    as (x & st' & E & _ & _ & _ & _ & [(e & He & Hs & Herr & _)
                                      |(out & m & Ho & _ & Hs & _ & Herr)]).
  - exists x, st'. split; [exact E|]. rewrite Herr, Hs.
    split; [cbn; lia|]. split; [discriminate|]. split.
    + intros e' He'. now rewrite (executor_raises_fun _ _ _ _ He He').
    + intros output Hout. destruct (executor_returns_not_raises _ _ _ _ Hout He).
  - exists x, st'. split; [exact E|].
    destruct (error_lines_spec out) as (Hlen & Hall & Hnil).
    rewrite Herr, Hs. split; [|split; [|split]].
    + destruct (classify out); [cbn; lia | exact Hlen].
    + now intros ->.
    + intros e He. destruct (executor_returns_not_raises _ _ _ _ Ho He).
    + intros output Hout Hc.
      assert (output = out) as ->.
      { destruct Ho as (se & H1 & _), Hout as (se' & H2 & _). congruence. }
      rewrite Hc. auto.
Qed.

Lemma runSingleTest_errors_witness :
  let w := example_world 2 (inr (lit "FAILURES" ++ [10%N] ++ lit "ERROR one",
                                 [])) in
  exists x st',
    runSingleTest w 50 constructor = (Ok x, st') /\
    success x = false /\ errors x = [lit "ERROR one"].
Proof.
  cbv zeta.
  destruct (runSingleTest_errors
              (example_world 2 (inr (lit "FAILURES" ++ [10%N] ++ lit "ERROR one",
                                     [])))
              50 constructor) as (x & st' & E & _ & _ & _ & H).
  exists x, st'. split; [exact E|].
  assert (Hs : success x = false).
  { vm_compute in E. injection E as <- _. reflexivity. }
  split; [exact Hs|].
  destruct (H (lit "FAILURES" ++ [10%N] ++ lit "ERROR one")) as (-> & _).
  - exists []. split; [reflexivity | now left].
  - exact Hs.
  - reflexivity.
Defined.

(** ** What a campaign keeps *)

Lemma logged_app (cs1 cs2 : list call) (st : state) :
  logged (cs1 ++ cs2) st = logged cs2 (logged cs1 st).
Proof. unfold logged. apply fold_left_app. Qed.

Lemma logged_fields (cs : list call) :
  forall st,
    nodes (logged cs st) = nodes st /\ hubIp (logged cs st) = hubIp st /\
    requiredNodes (logged cs st) = requiredNodes st /\
    testResults (logged cs st) = testResults st /\
    trace (logged cs st) =
    trace st ++ map (fun c => (c, length (nodes st))) cs.
Proof.
  induction cs as [|c cs IH]; intros st; cbn [logged fold_left map].
  - now rewrite app_nil_r.
  - destruct (IH (log_call c st)) as (H1 & H2 & H3 & H4 & H5).
    unfold logged in *. rewrite H1, H2, H3, H4, H5. cbn [log_call nodes hubIp
      requiredNodes testResults trace]. now rewrite <- app_assoc.
Qed.

Section CallStable.
Variable toString_large : float -> jsstring.
Variable cfg : config.
Variable w : world.
Variable I : state -> Prop.
Hypothesis calls : forall c st, plain_call c -> I st -> I (log_call c st).

Lemma keeps_ret {A} (a : A) : keeps I (ret a).
Proof. intros st r st' H. now injection H as _ <-. Qed.

Lemma keeps_get : keeps I get.
Proof. intros st r st' H. now injection H as _ <-. Qed.

Lemma keeps_bind {A B} (c : M A) (f : A -> M B) :
  keeps I c -> (forall a, keeps I (f a)) -> keeps I (bind c f).
Proof.
  intros Hc Hf st r st' H HI.
  apply bind_inv in H as [(e & H & _)|(a & st1 & H & H')].
  - exact (Hc _ _ _ H HI).
  - exact (Hf a _ _ _ H' (Hc _ _ _ H HI)).
Qed.

Lemma keeps_emit (c : call) : plain_call c -> keeps I (emit c).
Proof. intros Hc st r st' H. injection H as _ <-. now apply calls. Qed.

Lemma keeps_sleep ms : keeps I (sleep ms).
Proof.
  apply keeps_bind; [now apply keeps_emit | intros; apply keeps_ret].
Qed.

Lemma keeps_now : keeps I (now w).
Proof.
  apply keeps_bind; [now apply keeps_emit | intros; apply keeps_ret].
Qed.

Lemma keeps_executeRemoteScript ip s : keeps I (executeRemoteScript w ip s).
Proof.
  intros st r st' H HI.
  destruct (executeRemoteScript_cases w ip s st) as [(o & _ & E)|(e & _ & E)];
    rewrite E in H; injection H as _ <-; now apply calls.
Qed.

Lemma keeps_setupNode n : keeps I (setupNode w n).
Proof.
  apply keeps_bind; [apply keeps_executeRemoteScript | intros; apply keeps_ret].
Qed.

Lemma keeps_setup_nodes ns : keeps I (setup_nodes w ns).
Proof.
  induction ns as [|n ns IH]; cbn [setup_nodes]; [apply keeps_ret|].
  apply keeps_bind; [apply keeps_setupNode | intros; exact IH].
Qed.

Lemma keeps_setupInfrastructure : keeps I (setupInfrastructure w).
Proof.
  assert (Hhub : forall s, keeps I (st <- get ;;
                                    executeRemoteScript w (hubIp st) s ;;; ret tt)).
  { intros s. apply keeps_bind; [apply keeps_get|]. intros st.
    apply keeps_bind; [apply keeps_executeRemoteScript|].
    intros; apply keeps_ret. }
  unfold setupInfrastructure.
  apply keeps_bind; [apply Hhub|]. intros _.
  apply keeps_bind; [apply keeps_get|]. intros st.
  apply keeps_bind; [apply keeps_setup_nodes|]. intros _. apply Hhub.
Qed.

Lemma keeps_runSingleTest p : keeps I (runSingleTest w p).
Proof.
  intros st r st' H HI.
  destruct (runSingleTest_result w p st) as (x & st1 & E & _ & _ & _ & -> & _).
  rewrite E in H. injection H as _ <-.
  repeat apply calls; trivial; exact Logic.I.
Qed.

Lemma keeps_generateFinalReport :
  keeps I (generateFinalReport toString_large cfg w).
Proof.
  intros st r st' H HI.
  pose proof (generateFinalReport_spec toString_large cfg w st) as G.
  cbv zeta in G.
  destruct (write_file w (length (trace st) + 1)); rewrite G in H;
    injection H as _ <-; repeat apply calls; trivial; exact Logic.I.
Qed.
End CallStable.

Section SoundInvariants.
Variable toString_large : float -> jsstring.
Variable cfg : config.
Variable w : world.
Variable I : state -> Prop.
Hypothesis sound : sound_invariant cfg w I.

Lemma sound_calls : forall c st, plain_call c -> I st -> I (log_call c st).
Proof. exact (si_call _ _ _ sound). Qed.

(** A node is created and registered, or the creation fails. *)
Lemma keeps_new_node {A} (k : droplet -> M A) st r st' :
  let i := Z.of_nat (length (nodes st)) + 1 in
  (d <- createDroplet w (node_name_of i) nodeSize ;;
   modify (push_node (new_node cfg i d)) ;;; k d) st = (r, st') ->
  I st ->
  (exists e, r = Throw e /\ I st') \/
  (exists d st1, I st1 /\ nodes st1 = nodes st ++ [new_node cfg i d] /\
                 k d st1 = (r, st')).
Proof.
  cbv zeta. intros H HI.
  apply bind_inv in H as [(e & H & ->)|(d & st1 & H & H')];
    destruct (createDroplet_cases w (node_name_of (Z.of_nat (length (nodes st)) + 1))
                                  nodeSize st)
      as [(d' & Hd & E)|(e' & He & E)];
    rewrite E in H; try discriminate.
  - injection H as _ <-. left. exists e. split; [reflexivity|].
    now apply (si_create_failed _ _ _ sound) with (e := e').
  - injection H as <- <-. right.
    unfold bind at 1, modify at 1 in H'.
    eexists d', _. split; [|split; [|exact H']].
    + now apply (si_node _ _ _ sound).
    + reflexivity.
Qed.

Lemma create_initial_nodes_keeps (count : nat) :
  forall i st r st',
    create_initial_nodes cfg w count i st = (r, st') ->
    i = Z.of_nat (length (nodes st)) + 1 -> I st -> I st'.
Proof.
  induction count as [|count IH]; intros i st r st' H Hi HI;
    cbn [create_initial_nodes] in H.
  - now injection H as _ <-.
  - subst i.
    apply (keeps_new_node (fun _ => create_initial_nodes cfg w count _)) in H
      as [(e & _ & H)|(d & st1 & H1 & Hl & H)]; [exact H | | exact HI].
    apply (IH _ _ _ _ H); [rewrite Hl, length_app; cbn; lia | exact H1].
Qed.

Lemma provisionInfrastructure_keeps st r st' :
  provisionInfrastructure cfg w st = (r, st') ->
  nodes st = [] -> I st -> I st'.
Proof.
  unfold provisionInfrastructure. intros H Hn HI.
  apply bind_inv in H as [(e & H & _)|(d & st1 & H & H')];
    destruct (createDroplet_cases w (lit "jitsi-hub") hubSize st)
      as [(d' & Hd & E)|(e' & He & E)];
    rewrite E in H; try discriminate.
  - injection H as _ <-. now apply (si_create_failed _ _ _ sound) with (e := e').
  - injection H as <- <-.
    unfold bind at 1, modify at 1, bind at 1, get at 1 in H'.
    apply bind_inv in H' as [(e & H' & _)|([] & st2 & H' & H'')].
    + apply (create_initial_nodes_keeps _ _ _ _ _ H').
      * cbn. now rewrite Hn.
      * now apply (si_hub _ _ _ sound).
    + apply (keeps_sleep I sound_calls _ _ _ _ H'').
      apply (create_initial_nodes_keeps _ _ _ _ _ H').
      * cbn. now rewrite Hn.
      * now apply (si_hub _ _ _ sound).
Qed.

Lemma sleep_state ms st : sleep ms st = (Ok tt, log_call (Sleep ms) st).
Proof. reflexivity. Qed.

Lemma setupNode_nodes n st r st' :
  setupNode w n st = (r, st') -> nodes st' = nodes st.
Proof.
  unfold setupNode. intros H.
  destruct (executeRemoteScript_cases w (Some (node_ip n))
              (NodeSetup (node_name n)) st) as [(o & _ & E)|(e & _ & E)];
    unfold bind in H; rewrite E in H; now injection H as _ <-.
Qed.

Lemma add_nodes_from_keeps (count : nat) :
  forall i st r st',
    add_nodes_from cfg w count i st = (r, st') ->
    i = Z.of_nat (length (nodes st)) + 1 -> I st -> I st'.
Proof.
  induction count as [|count IH]; intros i st r st' H Hi HI;
    cbn [add_nodes_from] in H.
  - now injection H as _ <-.
  - subst i. cbv zeta in H.
    apply (keeps_new_node
             (fun d => sleep 45000 ;;; setupNode w (new_node cfg _ d) ;;;
                       add_nodes_from cfg w count _)) in H
      as [(e & _ & H)|(d & st1 & H1 & Hl & H)]; [exact H | | exact HI].
    unfold bind at 1 in H. rewrite sleep_state in H.
    assert (H2 : I (log_call (Sleep 45000) st1))
      by now apply sound_calls.
    apply bind_inv in H as [(e & H & _)|([] & st3 & H & H')].
    { exact (keeps_setupNode w I sound_calls _ _ _ _ H H2). }
    apply (IH _ _ _ _ H').
    + rewrite (setupNode_nodes _ _ _ _ H). cbn [log_call nodes].
      rewrite Hl, length_app. cbn. lia.
    + exact (keeps_setupNode w I sound_calls _ _ _ _ H H2).
Qed.

Lemma keeps_scale p cur : keeps I (scale cfg w p cur).
Proof.
  unfold scale. cbv zeta.
  destruct (ceil_div p (participantsPerNode cfg) >? cur); [|apply keeps_ret].
  apply keeps_bind; [|intros; apply keeps_ret].
  unfold addNodes. intros st r st' H HI. unfold bind at 1, get at 1 in H.
  now apply (add_nodes_from_keeps _ _ _ _ _ H).
Qed.

Lemma keeps_test_loop (fuel : nat) :
  forall p cur, keeps I (test_loop cfg w fuel p cur).
Proof.
  induction fuel as [|fuel IH]; intros p cur.
  - cbn [test_loop]. destruct (p <=? maxParticipants cfg); apply keeps_ret.
  - rewrite test_loop_unfold.
    destruct (p <=? maxParticipants cfg); [|apply keeps_ret].
    apply keeps_bind; [apply keeps_scale|]. intros cur'.
    intros st r st' H HI.
    apply bind_inv in H as [(e & H & _)|(x & st1 & H & H')].
    { exact (keeps_runSingleTest w I sound_calls _ _ _ _ H HI). }
    assert (H1 : I st1) by exact (keeps_runSingleTest w I sound_calls _ _ _ _ H HI).
    unfold bind at 1, modify at 1 in H'.
    assert (H2 : I (push_result x st1)).
    { apply (si_result _ _ _ sound); [|exact H1]. now exists p, st, st1. }
    destruct (negb (success x)); [now injection H' as _ <-|].
    revert H2. revert H'. apply keeps_bind; [apply keeps_sleep, sound_calls|].
    intros _. apply IH.
Qed.

Lemma keeps_runIncrementalTests fuel : keeps I (runIncrementalTests cfg w fuel).
Proof.
  unfold runIncrementalTests. apply keeps_bind; [apply keeps_get|].
  intros st. apply keeps_test_loop.
Qed.

Lemma keeps_prelude st r st' :
  prelude cfg w st = (r, st') -> nodes st = [] -> I st -> I st'.
Proof.
  unfold prelude, calculateInfrastructure. cbv zeta.
  unfold bind at 1, modify at 1. intros H Hn HI.
  apply bind_inv in H as [(e & H & _)|([] & st1 & H & H')].
  - apply (provisionInfrastructure_keeps _ _ _ H); [exact Hn|].
    now apply (si_required _ _ _ sound).
  - apply (keeps_setupInfrastructure w I sound_calls _ _ _ H').
    apply (provisionInfrastructure_keeps _ _ _ H); [exact Hn|].
    now apply (si_required _ _ _ sound).
Qed.

(** A campaign up to the deletion of the droplets: the state [st1]
    before it, which has the property, and the report, built from the
    state [st0] the test loop left. *)
Lemma campaign_before_cleanup fuel r st' :
  runCompleteTest toString_large cfg w fuel constructor = (r, st') ->
  I constructor ->
  exists st1,
    I st1 /\
    ((r = Ok None /\ st' = st1) \/
     (r <> Ok None /\ maybe_cleanup cfg st1 = (Ok tt, st'))) /\
    (forall rep,
        r = Ok (Some rep) ->
        exists st0,
          I st0 /\ rep = build_report toString_large cfg st0 /\
          st1 = logged [Now; WriteReport rep] st0).
Proof.
  intros H HI. unfold runCompleteTest in H.
  destruct (campaign_steps toString_large cfg w fuel constructor)
    as [r0 st1] eqn:E.
  rewrite campaign_steps_unfold in E.
  assert (Hthrow : forall e st1,
             I st1 -> r0 = Throw e ->
             (let (_, st2) := maybe_cleanup cfg st1 in (@Throw (option report) e, st2))
             = (r, st') ->
             exists st1,
               I st1 /\
               ((r = Ok None /\ st' = st1) \/
                (r <> Ok None /\ maybe_cleanup cfg st1 = (Ok tt, st'))) /\
               (forall rep,
                   r = Ok (Some rep) ->
                   exists st0,
                     I st0 /\ rep = build_report toString_large cfg st0 /\
                     st1 = logged [Now; WriteReport rep] st0)).
  { intros e st2 H2 _ Hc. destruct (maybe_cleanup_ok cfg st2) as [st3 Ec].
    rewrite Ec in Hc. injection Hc as <- <-. exists st2.
    split; [exact H2|]. split; [right; split; [discriminate | exact Ec]|].
    discriminate. }
  apply bind_inv in E as [(e & E & ->)|([] & st2 & E & E')].
  { apply (Hthrow e st1); [|reflexivity | exact H].
    now apply (keeps_prelude _ _ _ E). }
  assert (H2 : I st2) by now apply (keeps_prelude _ _ _ E).
  unfold loop_then_report in E'.
  apply bind_inv in E' as [(e & E' & ->)|(exit & st3 & E' & E'')].
  { apply (Hthrow e st1); [|reflexivity | exact H].
    exact (keeps_runIncrementalTests _ _ _ _ E' H2). }
  assert (H3 : I st3) by exact (keeps_runIncrementalTests _ _ _ _ E' H2).
  assert (Hrep : report_and_cleanup toString_large cfg w st3 = (r0, st1) ->
                 exists st1,
                   I st1 /\
                   ((r = Ok None /\ st' = st1) \/
                    (r <> Ok None /\ maybe_cleanup cfg st1 = (Ok tt, st'))) /\
                   (forall rep,
                       r = Ok (Some rep) ->
                       exists st0,
                         I st0 /\ rep = build_report toString_large cfg st0 /\
                         st1 = logged [Now; WriteReport rep] st0)).
  { clear E''. intros E''. unfold report_and_cleanup in E''.
    pose proof (generateFinalReport_spec toString_large cfg w st3) as G.
    cbv zeta in G.
    set (rep := build_report toString_large cfg st3) in *.
    assert (H4 : I (log_call (WriteReport rep) (log_call Now st3)))
      by (repeat apply sound_calls; trivial; exact Logic.I).
    unfold bind at 1 in E''.
    destruct (write_file w (length (trace st3) + 1)) as [e|]; rewrite G in E''.
    - injection E'' as <- <-.
      apply (Hthrow e _ H4 eq_refl H).
    - unfold bind at 1 in E''.
      destruct (maybe_cleanup_ok cfg (log_call (WriteReport rep) (log_call Now st3)))
        as [st4 Ec].
      fold (maybe_cleanup cfg) in E''. rewrite Ec in E''.
      unfold ret in E''. injection E'' as <- <-. injection H as <- <-.
      eexists. split; [exact H4|].
      split; [right; split; [discriminate | exact Ec]|].
      intros rep' Hr. injection Hr as <-. exists st3. now repeat split. }
  destruct exit; [now apply Hrep | now apply Hrep |].
  unfold ret in E''. injection E'' as <- <-. injection H as <- <-.
  exists st3. split; [exact H3|]. split; [now left | discriminate].
Qed.

End SoundInvariants.

(** ** The registry, the droplets and their deletion *)

Lemma created_from_app (w : world) (tr1 tr2 : list (call * nat)) :
  forall t,
    created_from w t (tr1 ++ tr2) =
    created_from w t tr1 ++ created_from w (t + length tr1) tr2.
Proof.
  induction tr1 as [|[c n] tr1 IH]; intros t; cbn [app created_from length].
  - now rewrite Nat.add_0_r.
  - rewrite IH, Nat.add_succ_r.
    destruct c; try reflexivity. now destruct (doctl_create w t).
Qed.

Lemma created_log_call (w : world) (c : call) (st : state) :
  created w (trace (log_call c st)) =
  created w (trace st) ++
  match c, doctl_create w (length (trace st)) with
  | CreateDroplet name _, inr _ => [name]
  | _, _ => []
  end.
Proof.
  unfold created. cbn [log_call trace]. rewrite created_from_app.
  cbn [created_from Nat.add].
  f_equal; destruct c; try reflexivity;
    now destruct (doctl_create w (length (trace st))).
Qed.

Lemma created_In_from (w : world) (tr : list (call * nat)) :
  forall t name,
    In name (created_from w t tr) <->
    exists j size n d,
      nth_error tr j = Some (CreateDroplet name size, n) /\
      doctl_create w (t + j) = inr d.
Proof.
  induction tr as [|[c n] tr IH]; intros t name; cbn [created_from].
  - split; [intros [] | intros ([|j] & ? & ? & ? & H & _); discriminate].
  - assert (Htl : In name (created_from w (S t) tr) <->
                  exists j size k d,
                    nth_error ((c, n) :: tr) (S j) =
                    Some (CreateDroplet name size, k) /\
                    doctl_create w (t + S j) = inr d).
    { rewrite IH. cbn [nth_error].
      split; intros (j & size & k & d & H1 & H2); exists j, size, k, d;
        (split; [exact H1|]); now rewrite ?Nat.add_succ_r in *. }
    assert (Hhd : forall size0 d0,
               c = CreateDroplet name size0 -> doctl_create w t = inr d0 ->
               exists j size k d,
                 nth_error ((c, n) :: tr) j =
                 Some (CreateDroplet name size, k) /\
                 doctl_create w (t + j) = inr d).
    { intros size0 d0 -> Hd. exists 0%nat, size0, n, d0.
      split; [reflexivity | now rewrite Nat.add_0_r]. }
    split.
    + intros H.
      assert (Hcase : (exists size0 d0, c = CreateDroplet name size0 /\
                                        doctl_create w t = inr d0) \/
                      In name (created_from w (S t) tr)).
      { destruct c; auto. destruct (doctl_create w t) as [e|d0] eqn:Ed; auto.
        destruct H as [<-|H]; [left; now exists size, d0 | now right]. }
      destruct Hcase as [(size0 & d0 & Hc & Hd)|Hin];
        [exact (Hhd _ _ Hc Hd)|].
      apply Htl in Hin as (j & size & k & d & H1 & H2).
      now exists (S j), size, k, d.
    + intros ([|j] & size & k & d & H1 & H2).
      * cbn in H1. injection H1 as -> _. rewrite Nat.add_0_r in H2.
        rewrite H2. now left.
      * assert (Hin : In name (created_from w (S t) tr))
          by (apply Htl; now exists j, size, k, d).
        destruct c; auto. destruct (doctl_create w t); auto. now right.
Qed.

Lemma created_In (w : world) (tr : list (call * nat)) (name : jsstring) :
  In name (created w tr) <->
  exists j size n d,
    nth_error tr j = Some (CreateDroplet name size, n) /\
    doctl_create w j = inr d.
Proof. unfold created. now rewrite created_In_from. Qed.

Lemma deleted_log_call (c : call) (st : state) :
  deleted (trace (log_call c st)) =
  deleted (trace st) ++
  match c with DeleteDroplet name => [name] | _ => [] end.
Proof.
  unfold deleted. cbn [log_call trace]. rewrite flat_map_app. cbn.
  now rewrite app_nil_r.
Qed.

Lemma nth_error_snoc {A} (l : list A) (x y : A) (j : nat) :
  nth_error l j = Some y -> nth_error (l ++ [x]) j = Some y.
Proof.
  intros H. rewrite nth_error_app1; [exact H|].
  apply nth_error_Some. congruence.
Qed.

Section RegistryInvariants.
Variable cfg : config.
Variable w : world.

Lemma sound_and (I J : state -> Prop) :
  sound_invariant cfg w I -> sound_invariant cfg w J ->
  sound_invariant cfg w (fun st => I st /\ J st).
Proof.
  intros [a1 b1 c1 d1 e1 f1] [a2 b2 c2 d2 e2 f2].
  split; intros; cbv zeta; split;
    first [ now apply a1 | now apply a2 | now apply b1 with (e := e)
          | now apply b2 with (e := e) | now apply c1 | now apply c2
          | now apply d1 | now apply d2 | now apply e1 | now apply e2
          | now apply f1 | now apply f2 ].
Qed.

Lemma sound_registry_numbered : sound_invariant cfg w (registry_numbered cfg).
Proof.
  split; try (intros; assumption).
  intros st d _ H. cbv zeta. intros k n.
  cbn [push_node log_call nodes]. intros E.
  destruct (Nat.lt_ge_cases k (length (nodes st))) as [L|L].
  - rewrite nth_error_app1 in E by exact L. now apply H.
  - rewrite nth_error_app2 in E by exact L.
    destruct (k - length (nodes st))%nat as [|m] eqn:Ek;
      [|destruct m; discriminate].
    injection E as <-. cbn [new_node node_name node_maxParticipants].
    split; [|reflexivity]. f_equal. lia.
Qed.

Lemma registry_created_call (c : call) (st : state) :
  (forall name size d, c = CreateDroplet name size ->
                       doctl_create w (length (trace st)) = inr d ->
                       name = lit "jitsi-hub") ->
  registry_created w st -> registry_created w (log_call c st).
Proof.
  intros Hc [H1 H2]. split.
  - intros n Hn. destruct (H1 n Hn) as (j & k & d & Hj & Hd).
    exists j, k, d. split; [|exact Hd]. cbn [log_call trace].
    now apply nth_error_snoc.
  - intros name. rewrite created_log_call, in_app_iff.
    intros [Hin|Hin]; [now apply H2|]. left.
    destruct c; try destruct Hin.
    destruct (doctl_create w (length (trace st))) as [e|d] eqn:Ed;
      [destruct Hin|].
    destruct Hin as [<-|[]]. exact (Hc _ _ d eq_refl eq_refl).
Qed.

Lemma sound_registry_created : sound_invariant cfg w (registry_created w).
Proof.
  split.
  - intros c st Hc H. apply registry_created_call; [|exact H].
    intros name size d ->. destruct Hc.
  - intros name size st e He H. apply registry_created_call; [|exact H].
    intros name' size' d _ Hd. congruence.
  - intros st d Hd H.
    apply (registry_created_call (CreateDroplet (lit "jitsi-hub") hubSize)) in H.
    + exact H.
    + intros name size d' E _. now injection E as <-.
  - intros st d Hd [H1 H2]. cbv zeta.
    set (i := Z.of_nat (length (nodes st)) + 1).
    set (c := CreateDroplet (node_name_of i) nodeSize). split.
    + intros n. cbn [push_node nodes]. rewrite in_app_iff.
      intros [Hn|[<-|[]]].
      * destruct (H1 n Hn) as (j & k & d' & Hj & Hd').
        exists j, k, d'. split; [|exact Hd'].
        cbn [push_node log_call trace]. now apply nth_error_snoc.
      * exists (length (trace st)), (length (nodes st)), d.
        cbn [push_node log_call trace new_node node_name node_id node_ip].
        rewrite nth_error_app2, Nat.sub_diag by lia.
        repeat split. exact Hd.
    + intros name. change (trace (push_node (new_node cfg i d) (log_call c st)))
        with (trace (log_call c st)).
      rewrite created_log_call, in_app_iff. unfold c. rewrite Hd.
      cbn [push_node nodes]. rewrite map_app, in_app_iff.
      intros [Hin|[<-|[]]].
      * destruct (H2 name Hin); auto.
      * right. right. now left.
  - intros n st H. exact H.
  - intros x st _ H. exact H.
Qed.

Lemma sound_nothing_deleted : sound_invariant cfg w nothing_deleted.
Proof.
  unfold nothing_deleted. split; try (intros; assumption).
  - intros c st Hc H. rewrite deleted_log_call, H. now destruct c.
  - intros name size st e _ H. now rewrite deleted_log_call, H.
  - intros st d _ H.
    change (trace (set_hubIp (droplet_ip d)
                     (log_call (CreateDroplet (lit "jitsi-hub") hubSize) st)))
      with (trace (log_call (CreateDroplet (lit "jitsi-hub") hubSize) st)).
    now rewrite deleted_log_call, H.
  - intros st d _ H. cbv zeta.
    match goal with |- deleted (trace (push_node _ (log_call ?c _))) = _ =>
      change (deleted (trace (log_call c st)) = [])
    end.
    now rewrite deleted_log_call, H.
Qed.

Lemma step_result_errors (x : testResult) :
  step_result w x ->
  (length (errors x) <= 5)%nat /\ (success x = true -> errors x = []).
Proof.
  intros (p & st & st' & E).
  destruct (runSingleTest_result w p st)
    as (x' & st1 & E' & _ & _ & _ & _ & [(e & _ & Hs & Herr & _)
                                        |(out & m & _ & _ & Hs & _ & Herr)]);
    rewrite E' in E; injection E as -> _; rewrite Herr, Hs.
  - split; [cbn; lia | discriminate].
  - destruct (error_lines_spec out) as (Hlen & _).
    destruct (classify out); split; cbn; try lia; try discriminate; auto.
Qed.

Lemma sound_errors_bounded : sound_invariant cfg w errors_bounded.
Proof.
  unfold errors_bounded. split; try (intros; assumption).
  intros x st Hx H. cbn [push_result testResults].
  apply Forall_app. split; [exact H|]. constructor; [|constructor].
  now apply step_result_errors.
Qed.

End RegistryInvariants.

Lemma delete_droplets_state (names : list jsstring) :
  forall st,
    delete_droplets names st = (Ok tt, logged (map DeleteDroplet names) st).
Proof.
  induction names as [|n names IH]; intros st; [reflexivity|].
  cbn [delete_droplets map logged fold_left]. unfold bind at 1, emit at 1.
  apply IH.
Qed.

Lemma cleanup_state (st : state) :
  cleanup st =
  (Ok tt, logged (map DeleteDroplet
                      (lit "jitsi-hub" :: map node_name (nodes st))) st).
Proof. unfold cleanup, bind, get. apply delete_droplets_state. Qed.

Lemma deleted_deletions (names : list jsstring) (n : nat) :
  deleted (deletions names n) = names.
Proof.
  unfold deleted, deletions. induction names as [|a names IH]; [reflexivity|].
  cbn. now rewrite IH.
Qed.

Lemma node_name_of_inj (i j : Z) : node_name_of i = node_name_of j -> i = j.
Proof.
  unfold node_name_of. intros E. apply app_inv_head in E.
  now apply string_of_Z_inj.
Qed.

Lemma node_name_of_not_hub (i : Z) : node_name_of i <> lit "jitsi-hub".
Proof. unfold node_name_of. intros E. discriminate. Qed.

Lemma registry_numbered_names (cfg : config) (st : state) :
  registry_numbered cfg st ->
  NoDup (lit "jitsi-hub" :: map node_name (nodes st)).
Proof.
  intros H. constructor.
  - rewrite in_map_iff. intros (n & E & Hn).
    apply In_nth_error in Hn as [k Hk]. destruct (H k n Hk) as [Hname _].
    rewrite Hname in E. now apply node_name_of_not_hub in E.
  - apply NoDup_nth_error. intros i j Hi E.
    rewrite length_map in Hi.
    rewrite !nth_error_map in E.
    destruct (nth_error (nodes st) i) as [n|] eqn:Ei;
      [|apply nth_error_None in Ei; lia].
    destruct (nth_error (nodes st) j) as [m|] eqn:Ej; [|discriminate].
    injection E as E. destruct (H i n Ei) as [Hn _], (H j m Ej) as [Hm _].
    rewrite Hn, Hm in E. apply node_name_of_inj in E. lia.
Qed.

(** The state of a campaign before the droplets are deleted, and what
    the deletion adds to it. *)
Lemma campaign_cleanup (I : state -> Prop) toString_large cfg w fuel r st' :
  sound_invariant cfg w I -> I constructor ->
  runCompleteTest toString_large cfg w fuel constructor = (r, st') ->
  exists st1,
    I st1 /\ nodes st' = nodes st1 /\ testResults st' = testResults st1 /\
    trace st' =
    trace st1 ++
    (if autoCleanup cfg
     then match r with
          | Ok None => []
          | _ => deletions (lit "jitsi-hub" :: map node_name (nodes st1))
                           (length (nodes st1))
          end
     else []) /\
    hubIp st' = hubIp st1 /\
    (forall rep,
        r = Ok (Some rep) ->
        exists st0,
          I st0 /\ rep = build_report toString_large cfg st0 /\
          st1 = logged [Now; WriteReport rep] st0).
Proof.
  intros HI H0 H.
  destruct (campaign_before_cleanup toString_large cfg w I HI fuel r st' H H0)
    as (st1 & H1 & Hc & Hrep).
  exists st1. split; [exact H1|].
  destruct Hc as [[-> ->]|[Hr Hc]].
  - destruct (autoCleanup cfg); rewrite app_nil_r; auto 10.
  - unfold maybe_cleanup in Hc. destruct (autoCleanup cfg).
    + rewrite cleanup_state in Hc.
      remember (map DeleteDroplet
                    (lit "jitsi-hub" :: map node_name (nodes st1))) as cs eqn:Ecs.
      injection Hc as <-.
      destruct (logged_fields cs st1) as (Hn & Hh & _ & Ht & Htr).
      rewrite Hn, Ht, Htr, Hh. split; [reflexivity|]. split; [reflexivity|].
      split; [|split; [reflexivity | exact Hrep]].
      f_equal. subst cs. unfold deletions. rewrite map_map.
      destruct r as [[rep|]|e]; [reflexivity | now destruct Hr | reflexivity].
    + unfold ret in Hc. injection Hc as <-. rewrite app_nil_r. auto 10.
Qed.

(** X7: with the automatic clean-up on, a campaign that has ended, by a
    report or by an exception, has asked to delete the hub and every
    node of the registry, each once, after everything else it did; so
    every droplet whose creation succeeded is deleted. *)
Theorem cleanup_deletes_every_droplet :
  forall toString_large e w fuel,
    let run := campaign toString_large e w fuel in
    let names := lit "jitsi-hub" :: map node_name (nodes (snd run)) in
    AUTO_CLEANUP_not_false e = true -> fst run <> Ok None ->
    deleted (trace (snd run)) = names /\
    NoDup names /\
    (exists before,
        trace (snd run) =
        before ++ deletions names (length (nodes (snd run))) /\
        deleted before = []) /\
    (forall j name size k d,
        nth_error (trace (snd run)) j = Some (CreateDroplet name size, k) ->
        doctl_create w j = inr d ->
        In name (deleted (trace (snd run)))).
Proof.
  intros toStr e w fuel run names Hauto Hr. unfold run, campaign in *.
  destruct (runCompleteTest toStr (main_config e) w fuel constructor)
    as [r st'] eqn:E. cbn [fst snd] in *.
  pose (I := fun st => registry_numbered (main_config e) st /\
                       registry_created w st /\ nothing_deleted st).
  assert (HI : sound_invariant (main_config e) w I).
  { apply sound_and; [apply sound_registry_numbered|].
    apply sound_and; [apply sound_registry_created | apply sound_nothing_deleted]. }
  assert (H0 : I constructor).
  { split; [|split; [split|reflexivity]].
    - intros [|k] n Hk; discriminate.
    - intros n [].
    - intros name []. }
  destruct (campaign_cleanup I toStr _ w fuel r st' HI H0 E)
    as (st1 & (Hnum & [_ Hcre] & Hdel) & Hn & _ & Ht & _).
  cbn [main_config autoCleanup] in Ht. rewrite Hauto in Ht.
  assert (Ht' : trace st' =
                trace st1 ++ deletions (lit "jitsi-hub" :: map node_name (nodes st1))
                                       (length (nodes st1)))
    by (destruct r as [[rep|]|err]; [exact Ht | now destruct Hr | exact Ht]).
  clear Ht. unfold names. rewrite Hn.
  assert (Hd : deleted (trace st') =
               lit "jitsi-hub" :: map node_name (nodes st1)).
  { rewrite Ht'. unfold deleted at 1. rewrite flat_map_app.
    fold (deleted (trace st1)). rewrite Hdel.
    apply deleted_deletions. }
  split; [exact Hd|]. split; [exact (registry_numbered_names _ _ Hnum)|].
  split; [exists (trace st1); now split|].
  intros j name size k d Hj Hdj. rewrite Hd.
  assert (Hin : In name (created w (trace st1))).
  { apply created_In. exists j, size, k, d. split; [|exact Hdj].
    rewrite Ht' in Hj.
    destruct (Nat.lt_ge_cases j (length (trace st1))) as [L|L].
    - now rewrite nth_error_app1 in Hj.
    - rewrite nth_error_app2 in Hj by exact L. unfold deletions in Hj.
      rewrite nth_error_map in Hj.
      destruct (nth_error _ (j - length (trace st1))); discriminate. }
  destruct (Hcre name Hin) as [->|H]; [now left | now right].
Qed.

Lemma cleanup_deletes_every_droplet_witness :
  let run := campaign no_exponent (example_env 200 50 80)
                      (example_world 22 (inl (lit "boom"))) 10 in
  deleted (trace (snd run)) =
  [lit "jitsi-hub"; lit "jitsi-node-1"; lit "jitsi-node-2"; lit "jitsi-node-3"]
  /\ In (lit "jitsi-node-2") (deleted (trace (snd run))).
Proof.
  cbv zeta.
  destruct (cleanup_deletes_every_droplet no_exponent (example_env 200 50 80)
              (example_world 22 (inl (lit "boom"))) 10)
    as (H1 & _ & _ & H4).
  - reflexivity.
  - vm_compute. discriminate.
  - split.
    + rewrite H1. vm_compute. reflexivity.
    + apply (H4 2%nat (lit "jitsi-node-2") nodeSize 1%nat
                {| droplet_id := 2; droplet_ip := lit "10.0.0.1" |});
        vm_compute; reflexivity.
Defined.



Lemma registry_after_calls (cfg : config) (w : world) (cs : list call) :
  forall st,
    registry_numbered cfg st /\
    (forall n, In n (nodes st) ->
               exists j k d,
                 nth_error (trace st) j =
                 Some (CreateDroplet (node_name n) nodeSize, k) /\
                 doctl_create w j = inr d /\
                 node_id n = droplet_id d /\ node_ip n = droplet_ip d) ->
    registry_numbered cfg (logged cs st) /\
    (forall n, In n (nodes (logged cs st)) ->
               exists j k d,
                 nth_error (trace (logged cs st)) j =
                 Some (CreateDroplet (node_name n) nodeSize, k) /\
                 doctl_create w j = inr d /\
                 node_id n = droplet_id d /\ node_ip n = droplet_ip d).
Proof.
  intros st [H1 H2].
  destruct (logged_fields cs st) as (Hn & _ & _ & _ & Ht).
  unfold registry_numbered. rewrite Hn, Ht. split; [exact H1|].
  intros n Hin. destruct (H2 n Hin) as (j & k & d & Hj & Hd).
  exists j, k, d. split; [|exact Hd].
  rewrite nth_error_app1; [exact Hj|]. apply nth_error_Some. congruence.
Qed.

(** X9: the registry of a campaign, at any time.  Its nodes are
    numbered in the order of their creation: the node at place [k] is
    named [jitsi-node-] and [k + 1], so no two nodes share a name and none
    is named like the hub.  Each holds the capacity of the configuration,
    and the identifier and address that [doctl] replied to the call that
    created it. *)
Theorem registry_is_numbered :
  forall toString_large e w fuel,
    let st := snd (campaign toString_large e w fuel) in
    (forall k n,
        nth_error (nodes st) k = Some n ->
        node_name n = lit "jitsi-node-" ++ string_of_Z (Z.of_nat k + 1) /\
        node_maxParticipants n = participantsPerNode (main_config e) /\
        exists j size d,
          nth_error (trace st) j =
          Some (CreateDroplet (node_name n) nodeSize, size) /\
          doctl_create w j = inr d /\
          node_id n = droplet_id d /\ node_ip n = droplet_ip d) /\
    NoDup (lit "jitsi-hub" :: map node_name (nodes st)).
Proof.
  intros toStr e w fuel st. unfold st, campaign.
  destruct (runCompleteTest toStr (main_config e) w fuel constructor)
    as [r st'] eqn:E. cbn [snd].
  pose (I := fun st => registry_numbered (main_config e) st /\
                       registry_created w st).
  assert (HI : sound_invariant (main_config e) w I)
    by (apply sound_and; [apply sound_registry_numbered
                         | apply sound_registry_created]).
  assert (H0 : I constructor).
  { split; [|split].
    - intros [|k] n Hk; discriminate.
    - intros n [].
    - intros name []. }
  destruct (campaign_before_cleanup toStr _ w I HI fuel r st' E H0)
    as (st1 & (Hnum & [Hcre _]) & Hc & _).
  assert (Hst' : exists cs, st' = logged cs st1).
  { destruct Hc as [[_ ->]|[_ Hc]]; [now exists []|].
    unfold maybe_cleanup in Hc. destruct (autoCleanup (main_config e)).
    - rewrite cleanup_state in Hc.
      exists (map DeleteDroplet
                  (lit "jitsi-hub" :: map node_name (nodes st1))).
      now injection Hc as <-.
    - injection Hc as <-. now exists []. }
  destruct Hst' as [cs ->].
  destruct (registry_after_calls (main_config e) w cs st1 (conj Hnum Hcre))
    as [Hnum' Hcre'].
  split; [|exact (registry_numbered_names _ _ Hnum')].
  intros k n Hk. destruct (Hnum' k n Hk) as [Hname Hcap].
  split; [exact Hname|]. split; [exact Hcap|].
  apply Hcre'. now apply nth_error_In in Hk.
Qed.

(** X10: every result in the log of a campaign has at most five
    errors, and a successful one has none. *)
Theorem campaign_errors_bounded :
  forall toString_large e w fuel x,
    In x (testResults (snd (campaign toString_large e w fuel))) ->
    (length (errors x) <= 5)%nat /\ (success x = true -> errors x = []).
Proof.
  intros toStr e w fuel x. unfold campaign.
  destruct (runCompleteTest toStr (main_config e) w fuel constructor)
    as [r st'] eqn:E. cbn [snd].
  destruct (campaign_cleanup errors_bounded toStr _ w fuel r st'
              (sound_errors_bounded _ w) (Forall_nil _) E)
    as (st1 & Hb & _ & -> & _).
  intros Hin. unfold errors_bounded in Hb. rewrite Forall_forall in Hb.
  now apply Hb.
Qed.

Lemma campaign_errors_bounded_witness :
  exists x,
    nth_error
      (testResults (snd (campaign no_exponent (example_env 200 50 80)
                                  (example_world 22 (inl (lit "boom"))) 10)))
      2 = Some x /\
    (length (errors x) <= 5)%nat.
Proof.
  eexists. split; [vm_compute; reflexivity|].
  apply (campaign_errors_bounded no_exponent (example_env 200 50 80)
           (example_world 22 (inl (lit "boom"))) 10).
  vm_compute. tauto.
Defined.

(** ** The outcome of a campaign *)

Lemma sound_True (cfg : config) (w : world) :
  sound_invariant cfg w (fun _ => True).
Proof. split; intros; exact Logic.I. Qed.

(** *** The report *)

Lemma loads_from_app (a b : nat) :
  forall p inc,
    loads_from p inc (a + b) =
    loads_from p inc a ++ loads_from (p + Z.of_nat a * inc) inc b.
Proof.
  induction a as [|a IH]; intros p inc.
  - cbn [Nat.add loads_from app]. f_equal. cbn. lia.
  - cbn [Nat.add loads_from app]. rewrite IH. do 3 f_equal. lia.
Qed.

Lemma length_loads_from (n : nat) :
  forall p inc, length (loads_from p inc n) = n.
Proof.
  induction n as [|n IH]; intros p inc; cbn; [reflexivity|]. now rewrite IH.
Qed.

Lemma loads_from_In (n : nat) :
  forall p inc x,
    In x (loads_from p inc n) <->
    exists i, (i < n)%nat /\ x = p + Z.of_nat i * inc.
Proof.
  induction n as [|n IH]; intros p inc x; cbn [loads_from In].
  - split; [intros [] | intros (i & Hi & _); lia].
  - rewrite IH. split.
    + intros [<-|(i & Hi & ->)].
      * exists 0%nat. split; [lia | cbn; lia].
      * exists (S i). split; [lia|]. lia.
    + intros ([|i] & Hi & ->).
      * left. cbn. lia.
      * right. exists i. split; [lia|]. lia.
Qed.

(** The largest of the loads [inc], [2 * inc], ..., [n * inc], and 0. *)
Lemma max_of_loads (inc : Z) (n : nat) :
  max_with_0 (loads_from inc inc n) = Z.max 0 (Z.of_nat n * inc).
Proof.
  destruct (max_with_0_spec (loads_from inc inc n)) as (H0 & Hle & Hin).
  set (m := max_with_0 (loads_from inc inc n)) in *.
  assert (Hm : m = 0 \/ exists i, (i < n)%nat /\ m = inc + Z.of_nat i * inc).
  { destruct Hin as [Hz|Hin]; [now left | right]. now apply loads_from_In. }
  destruct (Z.lt_ge_cases 0 inc) as [Hpos|Hneg].
  - destruct n as [|n].
    + destruct Hm as [->|(i & Hi & _)]; [reflexivity | lia].
    + assert (Hlast : inc + Z.of_nat n * inc <= m).
      { apply Hle, loads_from_In. exists n. split; [lia | reflexivity]. }
      destruct Hm as [Hm|(i & Hi & Hm)]; nia.
  - destruct Hm as [Hm|(i & Hi & Hm)]; nia.
Qed.

Lemma stops_at_first_failure_cases (rs : list testResult) :
  stops_at_first_failure rs ->
  Forall (fun x => success x = true) rs \/
  exists l x, rs = l ++ [x] /\ success x = false /\
              Forall (fun x => success x = true) l.
Proof.
  induction rs as [|x rs IH]; [now left|].
  intros [Hx Hrs]. destruct (success x) eqn:Es.
  - destruct (IH Hrs) as [Hall|(l & y & -> & Hy & Hl)].
    + left. now constructor.
    + right. exists (x :: l), y. repeat split; [exact Hy | now constructor].
  - right. rewrite (Hx eq_refl). exists [], x. now repeat split.
Qed.

Lemma filter_all_success (l : list testResult) :
  Forall (fun x => success x = true) l -> filter success l = l.
Proof.
  induction 1 as [|x l Hx _ IH]; [reflexivity|]. cbn. now rewrite Hx, IH.
Qed.

Lemma find_failure_all_success (l : list testResult) :
  Forall (fun x => success x = true) l ->
  forall rest,
    find (fun r => negb (success r)) (l ++ rest) =
    find (fun r => negb (success r)) rest.
Proof.
  induction 1 as [|x l Hx _ IH]; intros rest; [reflexivity|].
  cbn. now rewrite Hx, IH.
Qed.

(** The summary of a log that stops at its first failure and holds the
    loads [inc], [2 * inc], ... *)
Lemma summarize_campaign_log toString_large (inc : Z) (rs : list testResult) :
  inc <> 0 ->
  map participants rs = loads_from inc inc (length rs) ->
  stops_at_first_failure rs ->
  let s := summarize toString_large rs in
  let n := Z.of_nat (length rs) in
  (Forall (fun x => success x = true) rs /\
   breakingPoint s = None /\
   maxSuccessfulParticipants s = Z.max 0 (n * inc)) \/
  (exists l x,
      rs = l ++ [x] /\ success x = false /\
      Forall (fun x => success x = true) l /\
      breakingPoint s = Some (n * inc) /\
      maxSuccessfulParticipants s = Z.max 0 ((n - 1) * inc)).
Proof.
  intros Hinc Hloads Hstops. cbv zeta.
  cbn [summarize breakingPoint maxSuccessfulParticipants].
  unfold breaking_point, max_success.
  destruct (stops_at_first_failure_cases rs Hstops)
    as [Hall|(l & x & -> & Hx & Hl)].
  - left. split; [exact Hall|]. split.
    + rewrite <- (app_nil_r rs), find_failure_all_success by exact Hall.
      reflexivity.
    + rewrite filter_all_success, Hloads by exact Hall. apply max_of_loads.
  - right. exists l, x. split; [reflexivity|]. split; [exact Hx|].
    split; [exact Hl|].
    rewrite length_app in *. cbn [length] in *.
    rewrite map_app, loads_from_app in Hloads. cbn [map loads_from] in Hloads.
    apply app_same_length in Hloads as [Hl' Hx'];
      [|now rewrite length_map, length_loads_from].
    injection Hx' as Hx'. split.
    + rewrite find_failure_all_success by exact Hl. cbn [find]. rewrite Hx.
      cbn [negb]. rewrite Hx'.
      destruct (Z.eqb_spec (inc + Z.of_nat (length l) * inc) 0) as [E|E]; [nia|].
      f_equal. lia.
    + rewrite filter_app. cbn [filter]. rewrite Hx, app_nil_r.
      rewrite filter_all_success, Hl' by exact Hl.
      rewrite max_of_loads. f_equal. lia.
Qed.

(** X11: the report of a campaign.  It holds the whole log, the whole
    registry and the address of the hub as they are at the end.  With
    [n] results in the log and the increment [inc], either every result
    is a success, there is no breaking point and the largest successful
    load is [n * inc], or only the last result is a failure, the breaking
    point is [n * inc] and the largest successful load is
    [(n - 1) * inc]; a largest load that would be negative is 0. *)
Theorem report_of_a_campaign :
  forall toString_large e w fuel rep,
    let run := campaign toString_large e w fuel in
    let inc := incrementStep (main_config e) in
    fst run = Ok (Some rep) ->
    let s := report_summary rep in
    let n := Z.of_nat (totalTests s) in
    detailedResults rep = testResults (snd run) /\
    infrastructure_nodes rep = nodes (snd run) /\
    testConfig_nodesUsed rep = length (nodes (snd run)) /\
    infrastructure_hub rep = hubIp (snd run) /\
    ((Forall (fun x => success x = true) (detailedResults rep) /\
      breakingPoint s = None /\
      maxSuccessfulParticipants s = Z.max 0 (n * inc)) \/
     (exists l x,
         detailedResults rep = l ++ [x] /\ success x = false /\
         Forall (fun x => success x = true) l /\
         breakingPoint s = Some (n * inc) /\
         maxSuccessfulParticipants s = Z.max 0 ((n - 1) * inc))).
Proof.
  intros toStr e w fuel rep run inc Hr. unfold run, campaign in *.
  destruct (runCompleteTest toStr (main_config e) w fuel constructor)
    as [r st'] eqn:E. cbn [fst snd] in *. subst r.
  destruct (campaign_cleanup (fun _ => True) toStr _ w fuel _ st'
              (sound_True _ w) Logic.I E)
    as (st1 & _ & Hn & Ht & _ & Hh & Hrep).
  destruct (Hrep rep eq_refl) as (st0 & _ & -> & Hst1).
  destruct (logged_fields [Now; WriteReport (build_report toStr (main_config e) st0)] st0)
    as (Hn0 & Hh0 & _ & Ht0 & _).
  rewrite <- Hst1 in Hn0, Hh0, Ht0.
  rewrite Hn0 in Hn. rewrite Ht0 in Ht. rewrite Hh0 in Hh.
  apply runCompleteTest_facts in E as [Hloads _ Hstops _ _ _ _ _ _].
  cbv zeta. cbn [build_report detailedResults infrastructure_nodes
                 testConfig_nodesUsed infrastructure_hub report_summary].
  rewrite Hn, Ht, Hh. repeat (split; [reflexivity|]).
  assert (Hinc : inc <> 0) by (apply or_default_not_zero; discriminate).
  rewrite Ht in Hloads, Hstops.
  apply (summarize_campaign_log toStr inc (testResults st0) Hinc Hloads Hstops).
Qed.

Lemma report_of_a_campaign_witness :
  let run := campaign no_exponent (example_env 200 50 80)
                      (example_world 22 (inl (lit "boom"))) 10 in
  exists rep,
    fst run = Ok (Some rep) /\
    detailedResults rep = testResults (snd run) /\
    infrastructure_nodes rep = nodes (snd run).
Proof.
  cbv zeta. eexists.
  assert (E : fst (campaign no_exponent (example_env 200 50 80)
                            (example_world 22 (inl (lit "boom"))) 10) =
              Ok (Some _)) by (vm_compute; reflexivity).
  split; [exact E|].
  destruct (report_of_a_campaign no_exponent (example_env 200 50 80)
              (example_world 22 (inl (lit "boom"))) 10 _ E)
    as (H1 & H2 & _).
  split; [exact H1 | exact H2].
Defined.

(** *** How long a campaign lasts *)

Section Fuel.
Variable toString_large : float -> jsstring.
Variable cfg : config.
Variable w : world.

(** A loop that has ended has ended whatever fuel is added. *)
Lemma test_loop_more_fuel (fuel : nat) :
  forall p cur st r st' k,
    test_loop cfg w fuel p cur st = (r, st') -> r <> Ok Running ->
    test_loop cfg w (fuel + k) p cur st = (r, st').
Proof.
  induction fuel as [|fuel IH]; intros p cur st r st' k H Hr.
  - cbn [test_loop] in H. destruct (p <=? maxParticipants cfg) eqn:Ep.
    + unfold ret in H. injection H as <- _. now destruct Hr.
    + destruct k as [|k]; cbn [Nat.add]; [cbn [test_loop]|rewrite test_loop_unfold];
        now rewrite Ep.
  - cbn [Nat.add]. rewrite test_loop_unfold in *.
    destruct (p <=? maxParticipants cfg); [|exact H].
    unfold bind at 1 in H; unfold bind at 1.
    destruct (scale cfg w p cur st) as [[cur'|e] st1]; [|exact H].
    unfold bind at 1 in H; unfold bind at 1.
    destruct (runSingleTest w p st1) as [[x|e] st2]; [|exact H].
    unfold bind at 1, modify at 1 in H; unfold bind at 1, modify at 1.
    destruct (negb (success x)); [exact H|].
    unfold bind at 1 in H; unfold bind at 1.
    destruct (sleep 30000 (push_result x st2)) as [[[]|e] st3]; [|exact H].
    now apply IH.
Qed.

Lemma runCompleteTest_more_fuel fuel k st r st' :
  runCompleteTest toString_large cfg w fuel st = (r, st') -> r <> Ok None ->
  runCompleteTest toString_large cfg w (fuel + k) st = (r, st').
Proof.
  unfold runCompleteTest. intros H Hr.
  assert (Hsteps : forall r0 st0,
             campaign_steps toString_large cfg w fuel st = (r0, st0) ->
             r0 <> Ok None ->
             campaign_steps toString_large cfg w (fuel + k) st = (r0, st0)).
  { intros r0 st0. rewrite !campaign_steps_unfold. unfold bind.
    destruct (prelude cfg w st) as [[[]|e] st1]; [|auto].
    unfold loop_then_report, runIncrementalTests.
    unfold bind, get. intros H0 Hr0.
    destruct (test_loop cfg w fuel (incrementStep cfg)
                (Z.of_nat (length (nodes st1))) st1) as [r1 st2] eqn:E.
    assert (Hr1 : r1 <> Ok Running).
    { intros ->. unfold ret in H0. injection H0 as <- _. now destruct Hr0. }
    now rewrite (test_loop_more_fuel _ _ _ _ _ _ k E Hr1). }
  destruct (campaign_steps toString_large cfg w fuel st) as [r0 st0] eqn:E.
  assert (Hr0 : r0 <> Ok None).
  { intros ->. injection H as <- _. now destruct Hr. }
  now rewrite (Hsteps _ _ eq_refl Hr0).
Qed.
End Fuel.

(** X12: with a positive increment a campaign ends.  It runs at most
    [maxParticipants / incrementStep] tests, and once the model is
    allowed enough iterations, [maxParticipants - incrementStep + 1] of
    them, the campaign is over and its outcome and final state no longer
    depend on that allowance. *)
Theorem campaign_ends :
  forall toString_large e w fuel,
    let cfg := main_config e in
    let run := campaign toString_large e w fuel in
    let enough := Z.to_nat (maxParticipants cfg - incrementStep cfg + 1) in
    0 < incrementStep cfg ->
    Z.of_nat (length (testResults (snd run))) <=
    Z.max 0 (maxParticipants cfg / incrementStep cfg) /\
    ((enough <= fuel)%nat ->
     fst run <> Ok None /\
     forall fuel', (enough <= fuel')%nat ->
                   campaign toString_large e w fuel' = run).
Proof.
  intros toStr e w fuel cfg run enough Hinc. split.
  - unfold run, campaign.
    destruct (runCompleteTest toStr (main_config e) w fuel constructor)
      as [r st'] eqn:E. cbn [snd].
    apply runCompleteTest_facts in E as [Hloads Hbound _ _ _ _ _ _ _].
    destruct (testResults st') as [|x rs] eqn:Ers using rev_ind; [cbn; lia|].
    clear IHrs. rewrite Forall_app in Hbound. destruct Hbound as [_ Hx].
    apply Forall_inv in Hx.
    assert (Hp : participants x =
                 incrementStep cfg + incrementStep cfg * Z.of_nat (length rs)).
    { apply (loads_from_nth (rs ++ [x]) _ _ (length rs) x Hloads).
      now rewrite nth_error_app2, Nat.sub_diag by lia. }
    rewrite length_app, Nat2Z.inj_add. cbn [length].
    fold cfg in Hx. rewrite Hp in Hx.
    apply Z.le_trans with (2 := Z.le_max_r _ _).
    apply Z.div_le_lower_bound; [exact Hinc | lia].
  - intros Hfuel.
    assert (Hend : forall f, (enough <= f)%nat ->
                             fst (campaign toStr e w f) <> Ok None).
    { intros f Hf. unfold campaign.
      now apply runCompleteTest_terminates. }
    split; [now apply Hend|].
    assert (Hsame : forall f, (enough <= f)%nat ->
                              campaign toStr e w f = campaign toStr e w enough).
    { intros f Hf. replace f with (enough + (f - enough))%nat by lia.
      unfold campaign.
      destruct (runCompleteTest toStr (main_config e) w enough constructor)
        as [r st'] eqn:E.
      apply runCompleteTest_more_fuel; [exact E|].
      pose proof (Hend enough (Nat.le_refl _)) as H. unfold campaign in H.
      now rewrite E in H. }
    intros fuel' Hfuel'. unfold run.
    now rewrite (Hsame fuel' Hfuel'), (Hsame fuel Hfuel).
Qed.

Lemma campaign_ends_witness :
  let run := campaign no_exponent (example_env 200 50 80) steady_world 151 in
  Z.of_nat (length (testResults (snd run))) <= Z.max 0 (200 / 50) /\
  fst run <> Ok None /\
  campaign no_exponent (example_env 200 50 80) steady_world 1000 = run.
Proof.
  cbv zeta.
  destruct (campaign_ends no_exponent (example_env 200 50 80) steady_world 151)
    as (H1 & H2); [reflexivity|].
  split; [exact H1|].
  destruct H2 as (H2 & H3); [vm_compute; lia|].
  split; [exact H2|]. apply H3. vm_compute. lia.
Defined.

Section Endless.
Variable toString_large : float -> jsstring.
Variable cfg : config.
Variable w : world.
Hypothesis calm : never_fails w.

Lemma never_fails_call t c e : call_failed w t c e -> False.
Proof.
  destruct calm as (Hd & Hs & Hw). destruct c; cbn [call_failed]; auto.
  - destruct (Hd t) as [d ->]. discriminate.
  - unfold executor_raises. destruct (Hs t) as (out & -> & _).
    now intros (H & _).
  - now rewrite Hw.
Qed.

Lemma never_fails_returns t :
  exists output, executor_returns w t output /\ classify output = true.
Proof.
  destruct calm as (_ & Hs & _). destruct (Hs t) as (out & E & Hc).
  exists out. split; [|exact Hc]. exists []. auto.
Qed.

(** While the next load is within the maximum and the increment is not
    positive, the loop goes on: it uses up any fuel, one result per
    iteration. *)
Lemma test_loop_endless (fuel : nat) :
  incrementStep cfg <= 0 ->
  forall p cur st,
    p <= maxParticipants cfg -> cur = Z.of_nat (length (nodes st)) ->
    exists st',
      test_loop cfg w fuel p cur st = (Ok Running, st') /\
      length (testResults st') = (length (testResults st) + fuel)%nat.
Proof.
  intros Hinc. induction fuel as [|fuel IH]; intros p cur st Hp Hcur.
  - cbn [test_loop]. apply Z.leb_le in Hp. rewrite Hp.
    exists st. split; [reflexivity | lia].
  - destruct (test_loop cfg w (S fuel) p cur st) as [r st'] eqn:E.
    destruct (iteration cfg w fuel p cur st r st' E Hp Hcur)
      as [(e & added & trA & _ & _ & _ & (tr' & c & n & _ & _ & Hf) & _)
         |(added & trA & x & st1 & _ & Hcur' & _ & G & _ & _ & _ & Hret & Hnext)].
    + destruct (never_fails_call _ _ _ Hf).
    + destruct (never_fails_returns (length (trace st) + length trA + 2))
        as (out & Hout & Hc).
      rewrite (Hret out Hout), Hc in Hnext.
      destruct Hnext as [(Hfalse & _)|(_ & Hnext)]; [discriminate|].
      destruct (IH (p + incrementStep cfg)
                   (Z.max cur (ceil_div p (participantsPerNode cfg)))
                   (log_call (Sleep 30000) st1)) as (st2 & E2 & Hlen);
        [lia | exact Hcur' |].
      rewrite E2 in Hnext. injection Hnext as <- <-.
      exists st2. split; [reflexivity|].
      destruct G as (_ & Hr & _). rewrite Hlen. cbn [log_call testResults].
      rewrite Hr, length_app. cbn. lia.
Qed.

Lemma prelude_never_fails st :
  exists st', prelude cfg w st = (Ok tt, st') /\
              testResults st' = testResults st.
Proof.
  destruct (prelude cfg w st) as [r st'] eqn:E.
  destruct (quiet_prelude cfg w _ _ _ E) as (tr & Hr & _ & _ & Hthrow & _).
  exists st'. split; [|exact Hr]. destruct r as [[]|e]; [reflexivity|].
  destruct (Hthrow e eq_refl) as (tr' & c & n & _ & _ & Hf).
  destruct (never_fails_call _ _ _ Hf).
Qed.

Lemma runCompleteTest_endless fuel :
  incrementStep cfg <= 0 -> incrementStep cfg <= maxParticipants cfg ->
  exists st',
    runCompleteTest toString_large cfg w fuel constructor = (Ok None, st') /\
    length (testResults st') = fuel.
Proof.
  intros Hinc Hmax. unfold runCompleteTest.
  rewrite campaign_steps_unfold. unfold bind at 1.
  destruct (prelude_never_fails constructor) as (st0 & -> & Hr0).
  unfold loop_then_report, runIncrementalTests, bind, get.
  destruct (test_loop_endless fuel Hinc (incrementStep cfg)
              (Z.of_nat (length (nodes st0))) st0 Hmax eq_refl)
    as (st1 & -> & Hlen).
  exists st1. split; [reflexivity|]. now rewrite Hlen, Hr0.
Qed.
End Endless.


Lemma steady_world_never_fails : never_fails steady_world.
Proof.
  split; [|split].
  - intros t. eexists. reflexivity.
  - intros t. eexists. split; reflexivity.
  - reflexivity.
Defined.


(** *** The size of the registry *)

Lemma ceil_div_mono (a a' b : Z) :
  0 < b -> a <= a' -> ceil_div a b <= ceil_div a' b.
Proof.
  intros Hb Ha. rewrite !ceil_div_opp_floor.
  assert ((- a') / b <= (- a) / b) by (apply Z.div_le_mono; lia). lia.
Qed.

Lemma ceil_div_0 (b : Z) : ceil_div 0 b = 0.
Proof. rewrite ceil_div_opp_floor. cbn. reflexivity. Qed.

Section RegistrySize.
Variable toString_large : float -> jsstring.
Variable cfg : config.
Variable w : world.

(** The nodes that are registered at the start come one by one, as long
    as their creation succeeds. *)
Lemma create_initial_nodes_spec (count : nat) :
  forall i st r st',
    create_initial_nodes cfg w count i st = (r, st') ->
    hubIp st' = hubIp st /\ testResults st' = testResults st /\
    (length (nodes st') <= length (nodes st) + count)%nat /\
    (r = Ok tt ->
     length (nodes st') = (length (nodes st) + count)%nat /\
     trace st' =
     trace st ++
     map (fun k => (CreateDroplet (node_name_of (i + Z.of_nat k)) nodeSize,
                    (length (nodes st) + k)%nat))
         (seq 0 count)).
Proof.
  induction count as [|count IH]; intros i st r st' H;
    cbn [create_initial_nodes] in H.
  - injection H as <- <-.
    split; [reflexivity|]. split; [reflexivity|]. split; [lia|].
    intros _. split; [lia|]. cbn. now rewrite app_nil_r.
  - apply bind_inv in H as [(e & H & ->)|(d & st1 & H & H')];
      destruct (createDroplet_cases w (node_name_of i) nodeSize st)
        as [(d' & Hd & E)|(e' & He & E)];
      rewrite E in H; try discriminate.
    + injection H as _ <-. cbn [log_call hubIp testResults nodes].
      split; [reflexivity|]. split; [reflexivity|]. split; [lia|]. discriminate.
    + injection H as <- <-. unfold bind at 1, modify at 1 in H'.
      apply IH in H' as (Hh & Hr & Hle & Hok).
      cbn [push_node log_call hubIp testResults nodes trace] in *.
      rewrite length_app in *. cbn [length] in *.
      split; [exact Hh|]. split; [exact Hr|]. split; [lia|].
      intros ->. destruct (Hok eq_refl) as [Hlen Htr].
      split; [lia|]. rewrite Htr, <- app_assoc. f_equal.
      cbn [seq map app]. rewrite Z.add_0_r, Nat.add_0_r. f_equal.
      rewrite <- seq_shift, map_map. apply map_ext. intros k.
      f_equal; [f_equal; f_equal; lia | lia].
Qed.

Lemma provisionInfrastructure_spec st r st' :
  provisionInfrastructure cfg w st = (r, st') ->
  let k := Z.to_nat (Z.min 3 match requiredNodes st with
                             | Some n => n
                             | None => 0
                             end) in
  testResults st' = testResults st /\
  (length (nodes st') <= length (nodes st) + k)%nat /\
  (r = Ok tt ->
   exists d,
     doctl_create w (length (trace st)) = inr d /\
     hubIp st' = Some (droplet_ip d) /\
     length (nodes st') = (length (nodes st) + k)%nat /\
     trace st' =
     trace st ++
     (CreateDroplet (lit "jitsi-hub") hubSize, length (nodes st)) ::
     map (fun j => (CreateDroplet (node_name_of (1 + Z.of_nat j)) nodeSize,
                    (length (nodes st) + j)%nat))
         (seq 0 k) ++
     [(Sleep 60000, (length (nodes st) + k)%nat)]).
Proof.
  unfold provisionInfrastructure. intros H. cbv zeta.
  apply bind_inv in H as [(e & H & ->)|(d & st1 & H & H')];
    destruct (createDroplet_cases w (lit "jitsi-hub") hubSize st)
      as [(d' & Hd & E)|(e' & He & E)];
    rewrite E in H; try discriminate.
  - injection H as _ <-. cbn [log_call testResults nodes].
    split; [reflexivity|]. split; [lia|]. discriminate.
  - injection H as <- <-.
    unfold bind at 1, modify at 1, bind at 1, get at 1 in H'.
    cbn [set_hubIp log_call requiredNodes] in H'.
    apply bind_inv in H' as [(e & H' & ->)|([] & st2 & H' & H'')].
    + apply create_initial_nodes_spec in H' as (_ & Hr & Hle & _).
      cbn [set_hubIp log_call testResults nodes] in *.
      split; [exact Hr|]. split; [exact Hle|]. discriminate.
    + apply create_initial_nodes_spec in H' as (Hh & Hr & Hle & Hok).
      rewrite sleep_state in H''. injection H'' as <- <-.
      cbn [set_hubIp log_call testResults nodes hubIp trace] in *.
      split; [exact Hr|]. split; [exact Hle|]. intros _.
      destruct (Hok eq_refl) as [Hlen Htr]. exists d'.
      split; [exact Hd|]. split; [exact Hh|]. split; [exact Hlen|].
      rewrite Htr, Hlen, <- !app_assoc. reflexivity.
Qed.

(** The registry after the test loop, from the loads it tested. *)
Lemma test_loop_nodes (fuel : nat) :
  forall p cur st exit st',
    test_loop cfg w fuel p cur st = (Ok exit, st') ->
    cur = Z.of_nat (length (nodes st)) ->
    exists new,
      testResults st' = testResults st ++ new /\
      Z.of_nat (length (nodes st')) = nodes_after cfg cur (map participants new).
Proof.
  induction fuel as [|fuel IH]; intros p cur st exit st' H Hcur.
  - cbn [test_loop] in H. exists [].
    destruct (p <=? maxParticipants cfg); injection H as _ <-;
      rewrite app_nil_r; auto.
  - destruct (Z.leb_spec p (maxParticipants cfg)) as [Hp|Hp].
    2:{ rewrite test_loop_unfold in H. apply Z.leb_gt in Hp. rewrite Hp in H.
        injection H as _ <-. exists []. rewrite app_nil_r. auto. }
    destruct (iteration cfg w fuel p cur st _ st' H Hp Hcur)
      as [(e & _ & _ & Hr & _)
         |(added & trA & x & st1 & _ & Hcur' & _ & G & _ & Hx & _ & _ & Hnext)];
      [discriminate|].
    destruct G as (_ & Hres & _).
    destruct Hnext as [(_ & _ & ->)|(_ & Hnext)].
    + exists [x]. split; [exact Hres|]. cbn [map nodes_after fold_left].
      unfold nodes_after. cbn [fold_left]. rewrite Hx. now rewrite <- Hcur'.
    + apply IH in Hnext as (new & Hres' & Hn); [|exact Hcur'].
      exists (x :: new). cbn [log_call testResults] in Hres'.
      split; [rewrite Hres', Hres, <- app_assoc; reflexivity|].
      rewrite Hn. unfold nodes_after. cbn [map fold_left]. now rewrite Hx.
Qed.

Lemma nodes_after_bound (limit : Z) (loads : list Z) :
  0 < participantsPerNode cfg ->
  Forall (fun L => L <= limit) loads ->
  forall cur,
    nodes_after cfg cur loads <=
    Z.max cur (ceil_div limit (participantsPerNode cfg)).
Proof.
  intros Hppn. unfold nodes_after.
  induction 1 as [|L loads HL _ IH]; intros cur; cbn [fold_left]; [lia|].
  specialize (IH (Z.max cur (ceil_div L (participantsPerNode cfg)))).
  pose proof (ceil_div_mono L limit _ Hppn HL). lia.
Qed.

Lemma nodes_after_increasing (inc : Z) (n : nat) :
  0 < participantsPerNode cfg -> 0 < inc ->
  forall cur p,
    0 <= cur ->
    nodes_after cfg cur (loads_from p inc n) =
    match n with
    | O => cur
    | S m => Z.max cur (ceil_div (p + Z.of_nat m * inc)
                                 (participantsPerNode cfg))
    end.
Proof.
  intros Hppn Hinc. unfold nodes_after.
  induction n as [|n IH]; intros cur p Hcur; [reflexivity|].
  cbn [loads_from fold_left]. rewrite IH by lia. destruct n as [|n].
  - f_equal. f_equal. cbn. lia.
  - assert (ceil_div p (participantsPerNode cfg) <=
            ceil_div (p + inc + Z.of_nat n * inc) (participantsPerNode cfg))
      by (apply ceil_div_mono; [exact Hppn | nia]).
    replace (p + Z.of_nat (S n) * inc) with (p + inc + Z.of_nat n * inc) by lia.
    lia.
Qed.

(** The phases of a campaign that ended by a report. *)
Lemma campaign_report_phases fuel rep st' :
  runCompleteTest toString_large cfg w fuel constructor = (Ok (Some rep), st') ->
  exists st0 exit st1,
    prelude cfg w constructor = (Ok tt, st0) /\
    runIncrementalTests cfg w fuel st0 = (Ok exit, st1) /\
    rep = build_report toString_large cfg st1.
Proof.
  unfold runCompleteTest. rewrite campaign_steps_unfold. unfold bind at 1.
  destruct (prelude cfg w constructor) as [[[]|e] st0] eqn:Ep.
  2:{ destruct (maybe_cleanup_ok cfg st0) as [st2 Ec].
      fold (maybe_cleanup cfg). rewrite Ec. discriminate. }
  unfold loop_then_report. unfold bind at 1.
  destruct (runIncrementalTests cfg w fuel st0) as [[exit|e] st1] eqn:El.
  2:{ destruct (maybe_cleanup_ok cfg st1) as [st2 Ec].
      fold (maybe_cleanup cfg). rewrite Ec. discriminate. }
  intros H. exists st0, exit, st1. split; [reflexivity|]. split; [exact El|].
  assert (Hrep : forall r s,
             report_and_cleanup toString_large cfg w st1 = (r, s) ->
             (match r with
              | Ok r0 => (Ok r0, s)
              | Throw e => let (_, st2) := maybe_cleanup cfg s in (Throw e, st2)
              end) = (Ok (Some rep), st') ->
             rep = build_report toString_large cfg st1).
  { intros r s Hr Hm. unfold report_and_cleanup in Hr.
    pose proof (generateFinalReport_spec toString_large cfg w st1) as G.
    cbv zeta in G. unfold bind at 1 in Hr.
    destruct (write_file w (length (trace st1) + 1)); rewrite G in Hr.
    - injection Hr as <- <-.
      destruct (maybe_cleanup cfg _) in Hm. discriminate.
    - unfold bind at 1 in Hr.
      destruct (maybe_cleanup_ok cfg
                  (log_call (WriteReport (build_report toString_large cfg st1))
                            (log_call Now st1))) as [st4 Ec].
      rewrite Ec in Hr. unfold ret in Hr. injection Hr as <- <-.
      now injection Hm as <- _. }
  fold (maybe_cleanup cfg) in H.
  destruct exit.
  - destruct (report_and_cleanup toString_large cfg w st1) as [r s] eqn:Er.
    exact (Hrep r s eq_refl H).
  - destruct (report_and_cleanup toString_large cfg w st1) as [r s] eqn:Er.
    exact (Hrep r s eq_refl H).
  - discriminate.
Qed.

Lemma prelude_spec st0 :
  prelude cfg w constructor = (Ok tt, st0) ->
  testResults st0 = [] /\
  length (nodes st0) =
  Z.to_nat (Z.min 3 (ceil_div (maxParticipants cfg) (participantsPerNode cfg))).
Proof.
  unfold prelude, calculateInfrastructure. cbv zeta.
  unfold bind at 1, modify at 1. intros H.
  apply bind_inv in H as [(e & _ & H)|([] & st1 & H & H')]; [discriminate|].
  apply provisionInfrastructure_spec in H as (Hr & _ & Hok).
  destruct (Hok eq_refl) as (d & _ & _ & Hlen & _).
  cbn [set_requiredNodes requiredNodes nodes testResults constructor length
       Nat.add] in *.
  pose (I := fun st => testResults st = [] /\
                       length (nodes st) = length (nodes st1)).
  assert (Hcalls : forall c st, plain_call c -> I st -> I (log_call c st))
    by (intros c st _ HI; exact HI).
  assert (HI : I st0)
    by (apply (keeps_setupInfrastructure w I Hcalls _ _ _ H'); now split).
  destruct HI as [H1 H2]. split; [exact H1 | now rewrite H2].
Qed.
End RegistrySize.

(** X14: the nodes a campaign has used.  The report counts the nodes
    of the registry: the initial ones, three or the planned number if
    that is less, and those each test had to add.  With a positive
    capacity it never counts more than the plan,
    [ceil (maxParticipants / participantsPerNode)]; with a positive
    increment too, it is the larger of the initial number and of what the
    last load tested requires. *)
Theorem nodes_used_by_a_campaign :
  forall toString_large e w fuel rep,
    let cfg := main_config e in
    let planned :=
      ceil_div (maxParticipants cfg) (participantsPerNode cfg) in
    let initial := Z.max 0 (Z.min 3 planned) in
    let used := Z.of_nat (testConfig_nodesUsed rep) in
    let n := Z.of_nat (totalTests (report_summary rep)) in
    fst (campaign toString_large e w fuel) = Ok (Some rep) ->
    used = nodes_after cfg initial (map participants (detailedResults rep)) /\
    (0 < participantsPerNode cfg ->
     used <= Z.max 0 planned /\
     (0 < incrementStep cfg ->
      used = Z.max initial
                   (ceil_div (n * incrementStep cfg) (participantsPerNode cfg)))).
Proof.
  intros toStr e w fuel rep cfg planned initial used n Hr.
  unfold campaign in Hr.
  destruct (runCompleteTest toStr (main_config e) w fuel constructor)
    as [r st'] eqn:E. cbn [fst] in Hr. subst r. fold cfg in E.
  destruct (campaign_report_phases toStr cfg w fuel rep st' E)
    as (st0 & exit & st1 & Hpre & Hloop & Hrep).
  destruct (prelude_spec cfg w st0 Hpre) as [Hr0 Hn0].
  pose proof (runIncrementalTests_spec cfg w fuel st0 _ st1 Hloop)
    as (added & new & tr & F).
  destruct F as [(_ & Hres & _) Hloads Hbound _ _ _ _ _ _ _ _ _ _].
  unfold runIncrementalTests, bind, get in Hloop.
  apply test_loop_nodes in Hloop as (new' & Hres' & Hnodes); [|reflexivity].
  rewrite Hr0 in Hres, Hres'. cbn [app] in Hres, Hres'.
  assert (new' = new) as -> by congruence.
  assert (Hused : used = nodes_after cfg initial (map participants new)).
  { unfold used. rewrite Hrep. cbn [build_report testConfig_nodesUsed].
    rewrite Hnodes, Hn0. unfold initial, planned. f_equal. lia. }
  split.
  - rewrite Hused, Hrep. cbn [build_report detailedResults]. now rewrite Hres.
  - intros Hppn. split.
    + rewrite Hused.
      assert (Hb : Forall (fun L => L <= maxParticipants cfg)
                          (map participants new))
        by (apply Forall_map; exact Hbound).
      pose proof (nodes_after_bound cfg (maxParticipants cfg) _ Hppn Hb initial).
      fold planned in H. unfold initial in *. lia.
    + intros Hinc. rewrite Hused, Hloads.
      rewrite (nodes_after_increasing cfg (incrementStep cfg) (length new)
                 Hppn Hinc) by (unfold initial; lia).
      assert (Hn : n = Z.of_nat (length new)).
      { unfold n. rewrite Hrep.
        cbn [build_report report_summary summarize totalTests].
        now rewrite Hres. }
      rewrite Hn. destruct (length new) as [|m].
      * cbn [Z.of_nat Z.mul]. rewrite ceil_div_0. unfold initial. lia.
      * do 2 f_equal. lia.
Qed.

Lemma nodes_used_witness :
  let run := campaign no_exponent (example_env 400 50 80) steady_world 10 in
  exists rep,
    fst run = Ok (Some rep) /\
    Z.of_nat (testConfig_nodesUsed rep) <= Z.max 0 (ceil_div 400 80) /\
    Z.of_nat (testConfig_nodesUsed rep) =
    Z.max (Z.max 0 (Z.min 3 (ceil_div 400 80)))
          (ceil_div (Z.of_nat (totalTests (report_summary rep)) * 50) 80).
Proof.
  cbv zeta. eexists.
  assert (E : fst (campaign no_exponent (example_env 400 50 80)
                            steady_world 10) = Ok (Some _))
    by (vm_compute; reflexivity).
  split; [exact E|].
  destruct (nodes_used_by_a_campaign no_exponent (example_env 400 50 80)
              steady_world 10 _ E) as (_ & H).
  destruct H as (H1 & H2); [reflexivity|].
  split; [exact H1|]. apply H2. reflexivity.
Defined.

(** *** Provisioning *)



(** *** The process *)


